(** * Dune Weaver firmware: motion control of a two-axis polar plotter

    A shallow embedding of [esp32/esp32.ino] and of
    [arduino_code/arduino_code.ino], followed by the properties of the
    firmware that the specification states and by further properties of
    the two programs.

    - C++ [float] and [double] are IEEE-754 binary32 and binary64 values,
      computed with the operations of [SpecFloat]; every arithmetic
      operation is written with the promotions the C++ expression
      performs.
    - [long] and [int] are 32-bit on the target; a conversion or a
      subtraction whose result does not fit is undefined behaviour and
      yields [Undefined].  The Arduino sketch is built for boards whose
      [double] is binary32 and whose [unsigned int] has 16 bits, and for
      boards where they are binary64 and 32 bits; [doubleFormat] tells
      which.
    - [while] loops whose trip count is not known in advance take fuel
      and yield [OutOfFuel] when it is exhausted.
    - The AccelStepper/MultiStepper library and the Arduino [String]
      class are external to the repository; their interface is modelled
      as far as the firmware uses it.
    - Properties that hold of every [float] rest on a description of
      rounding on integers, [Round], which is proved to be what the
      operations of [SpecFloat] compute. *)

From Stdlib Require Import ZArith QArith Qround Qabs List String Ascii Bool Lia.
From Stdlib Require Import Floats.SpecFloat.
Import ListNotations.
Local Open Scope Z_scope.

(** ** Outcome of a computation *)

Inductive result (A : Type) : Type :=
| Done (a : A)
| Undefined
| OutOfFuel.
Arguments Done {A} a.
Arguments Undefined {A}.
Arguments OutOfFuel {A}.

Definition bind {A B : Type} (r : result A) (k : A -> result B) : result B :=
  match r with
  | Done a => k a
  | Undefined => Undefined
  | OutOfFuel => OutOfFuel
  end.

Notation "x <- c ;; k" := (bind c (fun x => k))
  (at level 61, c at next level, right associativity).

(** [completes r P]: the computation has a result, and [P] holds of it. *)
Definition completes {A : Type} (r : result A) (P : A -> Prop) : Prop :=
  match r with
  | Done a => P a
  | _ => False
  end.

(** ** IEEE-754 arithmetic as the C++ expressions use it *)

Definition float := spec_float.
Definition double := spec_float.

Definition fadd : float -> float -> float := SFadd 24 128.
Definition fsub : float -> float -> float := SFsub 24 128.
Definition fmul : float -> float -> float := SFmul 24 128.
Definition fdiv : float -> float -> float := SFdiv 24 128.
Definition dadd : double -> double -> double := SFadd 53 1024.
Definition dsub : double -> double -> double := SFsub 53 1024.
Definition dmul : double -> double -> double := SFmul 53 1024.
Definition ddiv : double -> double -> double := SFdiv 53 1024.
Definition dsqrt : double -> double := SFsqrt 53 1024.

(** [x < y], [x > y] and [x == y]: false as soon as an operand is NaN. *)
Definition flt (x y : spec_float) : bool := SFltb x y.
Definition fgt (x y : spec_float) : bool := SFltb y x.
Definition feq (x y : spec_float) : bool := SFeqb x y.

(** Promotion of a [float] to [double] (exact) and conversion of a
    [double] to [float] (round to nearest even). *)
Definition to_double (x : float) : double :=
  match x with
  | S754_finite s m e => binary_round 53 1024 s m e
  | _ => x
  end.

Definition to_float (x : double) : float :=
  match x with
  | S754_finite s m e => binary_round 24 128 s m e
  | _ => x
  end.

(** Conversion of an integer to [float] and to [double]. *)
Definition float_of_Z (z : Z) : float := binary_normalize 24 128 z 0 false.
Definition double_of_Z (z : Z) : double := binary_normalize 53 1024 z 0 false.

(** The exact rational value of a finite number. *)
Definition F2Q (x : spec_float) : Q :=
  match x with
  | S754_finite s m e =>
      match e with
      | Z0 => inject_Z (cond_Zopp s (Zpos m))
      | Zpos p => inject_Z (cond_Zopp s (Zpos m) * 2 ^ Zpos p)
      | Zneg p => Qmake (cond_Zopp s (Zpos m)) (2 ^ p)
      end
  | _ => 0
  end.

(** Truncation toward zero, rounding to nearest and ceiling of a rational. *)
Definition Qtrunc (q : Q) : Z := Z.quot (Qnum q) (Zpos (Qden q)).
Definition Qnearest (q : Q) : Z := Qfloor (q + (1 # 2)).

Definition LONG_MIN : Z := - 2 ^ 31.
Definition LONG_MAX : Z := 2 ^ 31 - 1.

Definition in_long (z : Z) : bool := (LONG_MIN <=? z) && (z <=? LONG_MAX).

(** [(long)x] and [(int)x] for a floating-point [x]: the fractional part is
    discarded; a value that does not fit, an infinity and NaN are
    undefined behaviour. *)
Definition cast_long (x : spec_float) : result Z :=
  match x with
  | S754_nan | S754_infinity _ => Undefined
  | _ => let z := Qtrunc (F2Q x) in
         if in_long z then Done z else Undefined
  end.

(** [a - b] on [long]. *)
Definition long_sub (a b : Z) : result Z :=
  if in_long (a - b) then Done (a - b) else Undefined.

(** [p <= x] for a [long] [p] and a [double] [x]: a 32-bit integer converts
    to [double] exactly, so the comparison is between exact values. *)
Definition long_le_double (p : Z) (x : double) : bool :=
  match x with
  | S754_nan => false
  | S754_infinity s => negb s
  | _ => Qle_bool (inject_Z p) (F2Q x)
  end.

(** [M_PI] of [math.h], 3.14159265358979323846 rounded to [double]. *)
Definition M_PI : double := S754_finite false 7074237752028440 (-51).

(** A decimal literal [n / 10^k] of type [double]. *)
Definition dliteral (n : Z) (k : nat) : double :=
  ddiv (double_of_Z n) (double_of_Z (10 ^ Z.of_nat k)).

(** The [float] a decimal numeral [n / 10^k] is read as. *)
Definition fliteral (n : Z) (k : nat) : float := to_float (dliteral n k).

(** ** The Arduino [String] operations the firmware calls *)

Definition strlen (s : string) : Z := Z.of_nat (String.length s).

Fixpoint sdrop (n : nat) (s : string) : string :=
  match n, s with
  | O, _ => s
  | S _, EmptyString => EmptyString
  | S n', String _ s' => sdrop n' s'
  end.

Fixpoint stake (n : nat) (s : string) : string :=
  match n, s with
  | O, _ => EmptyString
  | S _, EmptyString => EmptyString
  | S n', String a s' => String a (stake n' s')
  end.

(** Position of the first occurrence of a character. *)
Fixpoint find (c : ascii) (s : string) : option nat :=
  match s with
  | EmptyString => None
  | String a s' => if Ascii.eqb a c then Some O else option_map S (find c s')
  end.

(** An [int] argument received by an [unsigned int] parameter. *)
Definition to_unsigned (z : Z) : Z := z mod 2 ^ 32.

(** [s.indexOf(c, from)]: -1 when [from] is past the end or [c] does not
    occur from there on. *)
Definition indexOfFrom (c : ascii) (s : string) (from : Z) : Z :=
  let from := to_unsigned from in
  if strlen s <=? from then -1
  else match find c (sdrop (Z.to_nat from) s) with
       | Some k => from + Z.of_nat k
       | None => -1
       end.

Definition indexOf (c : ascii) (s : string) : Z := indexOfFrom c s 0.

(** [s.substring(from, to)]: the bounds are unsigned, swapped when
    out of order, and [to] is clipped to the length. *)
Definition substring (s : string) (from to : Z) : string :=
  let from := to_unsigned from in
  let to := to_unsigned to in
  let '(from, to) := if to <? from then (to, from) else (from, to) in
  if strlen s <=? from then EmptyString
  else
    let to := if strlen s <? to then strlen s else to in
    stake (Z.to_nat (to - from)) (sdrop (Z.to_nat from) s).

(** [s.substring(from)]. *)
Definition substringFrom (s : string) (from : Z) : string :=
  substring s from (strlen s).

Definition startsWith (s pre : string) : bool := String.prefix pre s.

Definition endsWith (s suf : string) : bool :=
  if strlen s <? strlen suf then false
  else String.eqb (sdrop (Z.to_nat (strlen s - strlen suf)) s) suf.

(** [indexOf] and [substring] on a target whose [unsigned int] has [w]
    bits; the definitions above are the case of 32 bits. *)
Definition indexOfFromW (w : Z) (c : ascii) (s : string) (from : Z) : Z :=
  let from := from mod 2 ^ w in
  if strlen s <=? from then -1
  else match find c (sdrop (Z.to_nat from) s) with
       | Some k => from + Z.of_nat k
       | None => -1
       end.

Definition substringW (w : Z) (s : string) (from to : Z) : string :=
  let from := from mod 2 ^ w in
  let to := to mod 2 ^ w in
  let '(from, to) := if to <? from then (to, from) else (from, to) in
  if strlen s <=? from then EmptyString
  else
    let to := if strlen s <? to then strlen s else to in
    stake (Z.to_nat (to - from)) (sdrop (Z.to_nat from) s).

(** ** The stepper library, as far as the firmware observes it

    One [AccelStepper] keeps a position counter, the speed of constant-speed
    runs, the speed limit of coordinated moves and whether its outputs are
    energised.  Time is abstracted: a [runSpeed] poll in the model is a poll
    at which a step is due. *)

Record AccelStepper : Type := mkStepper {
  currentPosition : Z;
  speed : float;
  stepperMaxSpeed : float;
  acceleration : float;
  outputsEnabled : bool
}.

Definition setCurrentPosition (p : Z) (st : AccelStepper) : AccelStepper :=
  mkStepper p (S754_zero false) (stepperMaxSpeed st) (acceleration st) (outputsEnabled st).

Definition setMaxSpeed (v : float) (st : AccelStepper) : AccelStepper :=
  let v := if flt v (S754_zero false) then SFopp v else v in
  mkStepper (currentPosition st) (speed st) v (acceleration st) (outputsEnabled st).

Definition setAcceleration (a : float) (st : AccelStepper) : AccelStepper :=
  mkStepper (currentPosition st) (speed st) (stepperMaxSpeed st) a (outputsEnabled st).

(** The [constrain(amt, low, high)] macro. *)
Definition constrain (amt low high : float) : float :=
  if flt amt low then low else if fgt amt high then high else amt.

Definition setSpeed (v : float) (st : AccelStepper) : AccelStepper :=
  if feq v (speed st) then st
  else
    let v := constrain v (SFopp (stepperMaxSpeed st)) (stepperMaxSpeed st) in
    mkStepper (currentPosition st) v (stepperMaxSpeed st) (acceleration st) (outputsEnabled st).

(** One due poll of [runSpeed]: no step at speed zero, otherwise one step
    clockwise for a positive speed and one step counter-clockwise if not. *)
Definition runSpeed (st : AccelStepper) : AccelStepper :=
  if feq (speed st) (S754_zero false) then st
  else
    let p := if fgt (speed st) (S754_zero false)
             then currentPosition st + 1 else currentPosition st - 1 in
    mkStepper p (speed st) (stepperMaxSpeed st) (acceleration st) (outputsEnabled st).

Definition setOutputs (b : bool) (st : AccelStepper) : AccelStepper :=
  mkStepper (currentPosition st) (speed st) (stepperMaxSpeed st) (acceleration st) b.

(** A blocking move of one stepper of a [MultiStepper] group to its target.
    Modelled from the spec: the coordinated move primitive always reaches
    its target (section 4.3); the speed it leaves behind is not modelled. *)
Definition arriveAt (p : Z) (st : AccelStepper) : AccelStepper :=
  mkStepper p (speed st) (stepperMaxSpeed st) (acceleration st) (outputsEnabled st).

(** In-place update of an array cell; the firmware only writes below the
    array bound. *)
Fixpoint store {A : Type} (l : list A) (i : nat) (x : A) : list A :=
  match l, i with
  | [], _ => []
  | _ :: t, O => x :: t
  | h :: t, S i' => h :: store t i' x
  end.

(** ** esp32/esp32.ino *)

Module Esp32.

Definition rot_total_steps : Z := 13730.
Definition inOut_total_steps : Z := 4642.
Definition gearRatio : float := fdiv (float_of_Z 100) (float_of_Z 15).
Definition BUFFER_SIZE : Z := 10.

(** Globals that no statement assigns after their initialisation. *)
Definition maxSpeed : float := float_of_Z 550.
Definition maxAcceleration : float := float_of_Z 5000.
Definition interpolationResolution : float := to_float (dliteral 4 4).

(** One coordinated move handed to the [MultiStepper] group: the waypoint
    [movePolar] was called with (rho after clamping) and the two absolute
    step targets.  The list of these moves is a history variable of the
    model. *)
Record Move : Type := mkMove {
  mv_theta : float;
  mv_rho : float;
  mv_rot : Z;
  mv_inOut : Z
}.

Record State : Type := mkState {
  rotStepper : AccelStepper;
  inOutStepper : AccelStepper;
  buffer : list (float * float);
  bufferCount : Z;
  batchComplete : bool;
  currentTheta : float;
  currentRho : float;
  isFirstCoordinates : bool;
  totalRevolutions : float;
  serialOut : list string;
  moveLog : list Move
}.

Definition upd_rotStepper (f : AccelStepper -> AccelStepper) (s : State) : State :=
  mkState (f (rotStepper s)) (inOutStepper s) (buffer s) (bufferCount s)
    (batchComplete s) (currentTheta s) (currentRho s) (isFirstCoordinates s)
    (totalRevolutions s) (serialOut s) (moveLog s).

Definition upd_inOutStepper (f : AccelStepper -> AccelStepper) (s : State) : State :=
  mkState (rotStepper s) (f (inOutStepper s)) (buffer s) (bufferCount s)
    (batchComplete s) (currentTheta s) (currentRho s) (isFirstCoordinates s)
    (totalRevolutions s) (serialOut s) (moveLog s).

Definition set_batch (b : list (float * float)) (n : Z) (c : bool) (s : State) : State :=
  mkState (rotStepper s) (inOutStepper s) b n c (currentTheta s) (currentRho s)
    (isFirstCoordinates s) (totalRevolutions s) (serialOut s) (moveLog s).

Definition set_currentTheta (t : float) (s : State) : State :=
  mkState (rotStepper s) (inOutStepper s) (buffer s) (bufferCount s)
    (batchComplete s) t (currentRho s) (isFirstCoordinates s)
    (totalRevolutions s) (serialOut s) (moveLog s).

Definition set_currentRho (r : float) (s : State) : State :=
  mkState (rotStepper s) (inOutStepper s) (buffer s) (bufferCount s)
    (batchComplete s) (currentTheta s) r (isFirstCoordinates s)
    (totalRevolutions s) (serialOut s) (moveLog s).

Definition set_isFirstCoordinates (b : bool) (s : State) : State :=
  mkState (rotStepper s) (inOutStepper s) (buffer s) (bufferCount s)
    (batchComplete s) (currentTheta s) (currentRho s) b
    (totalRevolutions s) (serialOut s) (moveLog s).

Definition set_totalRevolutions (r : float) (s : State) : State :=
  mkState (rotStepper s) (inOutStepper s) (buffer s) (bufferCount s)
    (batchComplete s) (currentTheta s) (currentRho s) (isFirstCoordinates s)
    r (serialOut s) (moveLog s).

(** [Serial.println]. *)
Definition println (line : string) (s : State) : State :=
  mkState (rotStepper s) (inOutStepper s) (buffer s) (bufferCount s)
    (batchComplete s) (currentTheta s) (currentRho s) (isFirstCoordinates s)
    (totalRevolutions s) (serialOut s ++ [line]) (moveLog s).

(** [multiStepper.moveTo(targetPositions); multiStepper.runSpeedToPosition()]. *)
Definition runSpeedToPosition (mv : Move) (s : State) : State :=
  mkState (arriveAt (mv_rot mv) (rotStepper s)) (arriveAt (mv_inOut mv) (inOutStepper s))
    (buffer s) (bufferCount s) (batchComplete s) (currentTheta s) (currentRho s)
    (isFirstCoordinates s) (totalRevolutions s) (serialOut s) (moveLog s ++ [mv]).

(** *** movePolar *)

Definition clampRho (rho : float) : float :=
  if flt (to_double rho) (double_of_Z 0) then to_float (double_of_Z 0)
  else if fgt (to_double rho) (double_of_Z 1) then to_float (double_of_Z 1)
  else rho.

(** [theta * (rot_total_steps / (2.0f * M_PI))], a [double]. *)
Definition rotStepsValue (theta : float) : double :=
  dmul (to_double theta)
       (ddiv (double_of_Z rot_total_steps) (dmul (to_double (float_of_Z 2)) M_PI)).

(** [float revolutions = theta / (2.0 * M_PI)]. *)
Definition revolutionsOf (theta : float) : float :=
  to_float (ddiv (to_double theta) (dmul (double_of_Z 2) M_PI)).

(** [rot_total_steps / gearRatio], a [float]. *)
Definition couplingUnit : float := fdiv (float_of_Z rot_total_steps) gearRatio.

(** [revolutions * (rot_total_steps / gearRatio)], a [float]. *)
Definition offsetValue (theta : float) : float :=
  fmul (revolutionsOf theta) couplingUnit.

(** [rho * inOut_total_steps], a [float]. *)
Definition inOutValue (rho : float) : float :=
  fmul rho (float_of_Z inOut_total_steps).

Definition movePolar (theta rho : float) (s : State) : result State :=
  let rho := clampRho rho in
  rotSteps <- cast_long (rotStepsValue theta) ;;
  offsetSteps <- cast_long (offsetValue theta) ;;
  inOutSteps <- cast_long (inOutValue rho) ;;
  inOutSteps <- long_sub inOutSteps offsetSteps ;;
  let s := runSpeedToPosition (mkMove theta rho rotSteps inOutSteps) s in
  Done (set_currentRho rho (set_currentTheta theta s)).

(** *** interpolatePath *)

(** [pow(x, 2)]: the square, exact for the [float]-valued arguments it gets. *)
Definition pow2 (x : double) : double := dmul x x.

Definition two_pi : double := dmul (to_double (float_of_Z 2)) M_PI.

(** [while (angleDiff > M_PI) angleDiff -= 2.0f * M_PI;] *)
Fixpoint wrapDown (fuel : nat) (angleDiff : float) : result float :=
  if fgt (to_double angleDiff) M_PI then
    match fuel with
    | O => OutOfFuel
    | S fuel' => wrapDown fuel' (to_float (dsub (to_double angleDiff) two_pi))
    end
  else Done angleDiff.

(** [while (angleDiff < -M_PI) angleDiff += 2.0f * M_PI;] *)
Fixpoint wrapUp (fuel : nat) (angleDiff : float) : result float :=
  if flt (to_double angleDiff) (SFopp M_PI) then
    match fuel with
    | O => OutOfFuel
    | S fuel' => wrapUp fuel' (to_float (dadd (to_double angleDiff) two_pi))
    end
  else Done angleDiff.

Definition shortestAngle (fuel : nat) (angleDiff : float) : result float :=
  a <- wrapDown fuel angleDiff ;; wrapUp fuel a.

(** The interpolated waypoint of one pass of the [for] loop. *)
Definition interpolated (startTheta startRho angleDiff endRho : float)
    (numSteps step : Z) : float * float :=
  let t := fdiv (float_of_Z step) (float_of_Z numSteps) in
  (fadd startTheta (fmul t angleDiff),
   fadd startRho (fmul t (fsub endRho startRho))).

(** [for (int step = ...; step <= numSteps; step++)] with [n] passes left. *)
Fixpoint interpolateLoop (n : nat) (step numSteps : Z)
    (startTheta startRho angleDiff endRho : float) (s : State) : result State :=
  match n with
  | O => Done s
  | S n' =>
      let w := interpolated startTheta startRho angleDiff endRho numSteps step in
      s' <- movePolar (fst w) (snd w) s ;;
      interpolateLoop n' (step + 1) numSteps startTheta startRho angleDiff endRho s'
  end.

Definition distanceOf (startTheta startRho endTheta endRho : float) : float :=
  to_float (dsqrt (dadd (pow2 (to_double (fsub endTheta startTheta)))
                        (pow2 (to_double (fsub endRho startRho))))).

Definition interpolatePath (fuel : nat)
    (startTheta startRho endTheta endRho stepSize : float) (s : State) : result State :=
  let distance := distanceOf startTheta startRho endTheta endRho in
  n <- cast_long (fdiv distance stepSize) ;;
  let numSteps := Z.max 1 n in
  angleDiff <- shortestAngle fuel (fsub endTheta startTheta) ;;
  interpolateLoop (Z.to_nat (numSteps + 1)) 0 numSteps
    startTheta startRho angleDiff endRho s.

(** *** resetTheta *)

Definition resetTheta (s : State) : result State :=
  let s := set_totalRevolutions (S754_zero false) (set_currentTheta (S754_zero false) s) in
  let s := upd_rotStepper (setCurrentPosition 0) s in
  inOutPos <- cast_long (fmul (currentRho s) (float_of_Z inOut_total_steps)) ;;
  let s := upd_inOutStepper (setCurrentPosition inOutPos) s in
  let s := set_isFirstCoordinates true s in
  Done (println "THETA_RESET" s).

(** *** homing *)

(** [-inOut_total_steps * 1.1], a [double]. *)
Definition homingLimit : double :=
  dmul (double_of_Z (- inOut_total_steps)) (dliteral 11 1).

Fixpoint homingLoop (fuel : nat) (st : AccelStepper) : result AccelStepper :=
  match fuel with
  | O => OutOfFuel
  | S fuel' =>
      let st := runSpeed st in
      if long_le_double (currentPosition st) homingLimit then Done st
      else homingLoop fuel' st
  end.

Definition homing (fuel : nat) (s : State) : result State :=
  let s := println "HOMING" s in
  let s := upd_inOutStepper (setOutputs true) s in
  let s := upd_inOutStepper (setSpeed (SFopp maxSpeed)) s in
  st <- homingLoop fuel (inOutStepper s) ;;
  let s := upd_inOutStepper (fun _ => setCurrentPosition 0 st) s in
  let s := upd_rotStepper (setCurrentPosition 0) s in
  let s := set_currentTheta (S754_zero false) s in
  let s := set_currentRho (S754_zero false) s in
  let s := upd_inOutStepper (setOutputs false) s in
  Done (println "HOMED" s).

(** *** loop *)

Section Dispatcher.

(** [String::toFloat] of the Arduino core. *)
Variable toFloat : string -> float.

Definition parsePair (pair : string) : float * float :=
  let commaIndex := indexOf "," pair in
  (toFloat (substring pair 0 commaIndex),
   toFloat (substringFrom pair (commaIndex + 1))).

(** [while (pairIndex < BUFFER_SIZE) { ... }]; every pass increments
    [pairIndex], so [BUFFER_SIZE] passes are enough. *)
Fixpoint fillBuffer (n : nat) (input : string) (pairIndex startIdx : Z)
    (buf : list (float * float)) : Z * list (float * float) :=
  match n with
  | O => (pairIndex, buf)
  | S n' =>
      if pairIndex <? BUFFER_SIZE then
        let endIdx := indexOfFrom ";" input startIdx in
        if endIdx =? -1 then (pairIndex, buf)
        else
          let pair := substring input startIdx endIdx in
          fillBuffer n' input (pairIndex + 1) (endIdx + 1)
            (store buf (Z.to_nat pairIndex) (parsePair pair))
      else (pairIndex, buf)
  end.

Definition readBatch (input : string) (s : State) : State :=
  let '(pairIndex, buf) := fillBuffer (Z.to_nat BUFFER_SIZE) input 0 0 (buffer s) in
  set_batch buf pairIndex true s.

Definition bufferAt (s : State) (i : Z) : float * float :=
  nth (Z.to_nat i) (buffer s) (S754_zero false, S754_zero false).

(** [for (int i = ...; i < bufferCount; i++)] with [n] passes left. *)
Fixpoint batchLoop (fuel : nat) (n : nat) (i : Z) (startTheta startRho : float)
    (s : State) : result State :=
  match n with
  | O => Done s
  | S n' =>
      s' <- (if isFirstCoordinates s then
               s1 <- movePolar (fst (bufferAt s 0)) (snd (bufferAt s 0)) s ;;
               Done (set_isFirstCoordinates false s1)
             else
               interpolatePath fuel startTheta startRho
                 (fst (bufferAt s i)) (snd (bufferAt s i))
                 interpolationResolution s) ;;
      batchLoop fuel n' (i + 1) (fst (bufferAt s' i)) (snd (bufferAt s' i)) s'
  end.

(** The second half of [loop]: process the buffer if a batch is ready. *)
Definition processBatch (fuel : nat) (s : State) : result State :=
  if batchComplete s && (0 <? bufferCount s) then
    let s := upd_rotStepper (setOutputs true) s in
    let s := upd_inOutStepper (setOutputs true) s in
    s <- batchLoop fuel (Z.to_nat (bufferCount s)) 0 (currentTheta s) (currentRho s) s ;;
    let s := upd_rotStepper (setOutputs false) s in
    let s := upd_inOutStepper (setOutputs false) s in
    Done (println "R" (set_batch (buffer s) 0 false s))
  else Done s.

(** One pass of [loop]; [available] is the line [Serial] has ready, if any. *)
Definition loop (fuel : nat) (available : option string) (s : State) : result State :=
  match available with
  | Some input =>
      if negb (String.eqb input "HOME") && negb (String.eqb input "RESET_THETA")
         && negb (startsWith input "SET_SPEED") && negb (endsWith input ";")
      then Done (println "IGNORED" s)
      else if startsWith input "SET_SPEED" then
        let spaceIndex := indexOf " " input in
        if negb (spaceIndex =? -1) then
          let speed := toFloat (substringFrom input (spaceIndex + 1)) in
          if fgt speed (float_of_Z 0) then
            let s := upd_rotStepper (setMaxSpeed speed) s in
            let s := upd_inOutStepper (setMaxSpeed speed) s in
            Done (println "R" (println "SPEED_SET" s))
          else Done (println "INVALID_SPEED" s)
        else Done (println "INVALID_COMMAND" s)
      else if String.eqb input "HOME" then homing fuel s
      else if String.eqb input "RESET_THETA" then
        s <- resetTheta s ;;
        Done (println "R" (println "THETA_RESET" s))
      else
        processBatch fuel (if negb (batchComplete s) then readBatch input s else s)
  | None => processBatch fuel s
  end.

(** A run of [loop] over the lines that arrive, one per pass. *)
Fixpoint run (fuel : nat) (lines : list string) (s : State) : result State :=
  match lines with
  | [] => Done s
  | l :: ls => s' <- loop fuel (Some l) s ;; run fuel ls s'
  end.

End Dispatcher.

(** *** Start-up *)

(** The globals as initialised, the steppers as their constructor leaves
    them. *)
Definition powerOn : State :=
  let st := mkStepper 0 (S754_zero false) (float_of_Z 1) (float_of_Z 1) true in
  mkState st st (repeat (S754_zero false, S754_zero false) (Z.to_nat BUFFER_SIZE))
    0 false (S754_zero false) (S754_zero false) true (S754_zero false) [] [].

Definition setup (fuel : nat) : result State :=
  let s := upd_rotStepper (setMaxSpeed maxSpeed) powerOn in
  let s := upd_rotStepper (setAcceleration maxAcceleration) s in
  let s := upd_inOutStepper (setMaxSpeed maxSpeed) s in
  let s := upd_inOutStepper (setAcceleration maxAcceleration) s in
  homing fuel (println "R" s).

(** *** modulus *)

(** [a + b], [a - b] and [a % b] on [int], which has 32 bits here: a sum or
    difference that does not fit is undefined, and so is the remainder by
    zero and the one whose quotient does not fit. *)
Definition int_add (a b : Z) : result Z :=
  if in_long (a + b) then Done (a + b) else Undefined.

Definition int_sub (a b : Z) : result Z :=
  if in_long (a - b) then Done (a - b) else Undefined.

Definition int_rem (a b : Z) : result Z :=
  if b =? 0 then Undefined
  else if (a =? LONG_MIN) && (b =? -1) then Undefined
  else Done (Z.rem a b).

(** [x < 0 ? ((x + 1) % y) + y - 1 : x % y] *)
Definition modulus (x y : Z) : result Z :=
  if x <? 0 then
    a <- int_add x 1 ;;
    r <- int_rem a y ;;
    b <- int_add r y ;;
    int_sub b 1
  else int_rem x y.

End Esp32.

(** ** arduino_code/arduino_code.ino *)

Module Arduino.

(** The sketch does not name its board.  On the AVR boards of the Arduino
    family [double] has the format of [float]; elsewhere it is binary64.
    The transform is modelled for both. *)
Inductive doubleFormat : Type := Binary32 | Binary64.

Definition dprec (f : doubleFormat) : Z :=
  match f with Binary32 => 24 | Binary64 => 53 end.

Definition demax (f : doubleFormat) : Z :=
  match f with Binary32 => 128 | Binary64 => 1024 end.

Section Transform.

Variable fmt : doubleFormat.

(** Conversion of a finite or special value to [double]. *)
Definition as_double (x : spec_float) : double :=
  match x with
  | S754_finite s m e => binary_round (dprec fmt) (demax fmt) s m e
  | _ => x
  end.

Definition double_lit (z : Z) : double :=
  binary_normalize (dprec fmt) (demax fmt) z 0 false.

Definition mul : double -> double -> double := SFmul (dprec fmt) (demax fmt).
Definition div : double -> double -> double := SFdiv (dprec fmt) (demax fmt).

(** The literals [16000.0] and [5760.0] are [double]s. *)
Definition rot_total_steps : double := double_lit 16000.
Definition inOut_total_steps : double := double_lit 5760.

(** [2.0 * M_PI]. *)
Definition two_pi : double := mul (double_lit 2) (as_double M_PI).

Definition rotStepsValue (theta : float) : double :=
  mul (as_double theta) (div rot_total_steps two_pi).

Definition inOutValue (rho : float) : double :=
  mul (as_double rho) inOut_total_steps.

Definition revolutionsOf (theta : float) : float :=
  to_float (div (as_double theta) two_pi).

(** [revolutions * 1600], a [float]. *)
Definition offsetValue (theta : float) : float :=
  fmul (revolutionsOf theta) (float_of_Z 1600).

(** [a + b] on [long]. *)
Definition long_add (a b : Z) : result Z :=
  if in_long (a + b) then Done (a + b) else Undefined.

(** The two targets [movePolar] hands to the [MultiStepper] group. *)
Definition movePolar (theta rho : float) : result (Z * Z) :=
  rotSteps <- cast_long (rotStepsValue theta) ;;
  inOutSteps <- cast_long (inOutValue rho) ;;
  offsetSteps <- cast_long (offsetValue theta) ;;
  inOutSteps <- long_add inOutSteps offsetSteps ;;
  Done (rotSteps, inOutSteps).

End Transform.

(** *** The sketch: setup, loop, homing and the moves *)

(** The globals and the two steppers; [moveLog] is the history of target
    pairs handed to the [MultiStepper] group. *)
Record State : Type := mkState {
  rotStepper : AccelStepper;
  inOutStepper : AccelStepper;
  buffer : list (float * float);
  bufferCount : Z;
  batchComplete : bool;
  serialOut : list string;
  moveLog : list (Z * Z)
}.

Definition upd_rotStepper (f : AccelStepper -> AccelStepper) (s : State) : State :=
  mkState (f (rotStepper s)) (inOutStepper s) (buffer s) (bufferCount s)
    (batchComplete s) (serialOut s) (moveLog s).

Definition upd_inOutStepper (f : AccelStepper -> AccelStepper) (s : State) : State :=
  mkState (rotStepper s) (f (inOutStepper s)) (buffer s) (bufferCount s)
    (batchComplete s) (serialOut s) (moveLog s).

Definition set_batch (b : list (float * float)) (n : Z) (c : bool) (s : State) : State :=
  mkState (rotStepper s) (inOutStepper s) b n c (serialOut s) (moveLog s).

Definition println (line : string) (s : State) : State :=
  mkState (rotStepper s) (inOutStepper s) (buffer s) (bufferCount s)
    (batchComplete s) (serialOut s ++ [line]) (moveLog s).

(** The width of [unsigned int]: 16 bits on the AVR boards, 32 elsewhere. *)
Definition uintBits (f : doubleFormat) : Z :=
  match f with Binary32 => 16 | Binary64 => 32 end.

Section Sketch.

Variable fmt : doubleFormat.

(** [String::toFloat] of the Arduino core. *)
Variable toFloat : string -> float.

(** [movePolar]: the targets, then the blocking coordinated move to them. *)
Definition movePolarTo (theta rho : float) (s : State) : result State :=
  t <- movePolar fmt theta rho ;;
  Done (mkState (arriveAt (fst t) (rotStepper s)) (arriveAt (snd t) (inOutStepper s))
          (buffer s) (bufferCount s) (batchComplete s) (serialOut s)
          (moveLog s ++ [t])).

(** [-5760 * 1.1], a [double]. *)
Definition homingLimit : double :=
  mul fmt (double_lit fmt (-5760)) (div fmt (double_lit fmt 11) (double_lit fmt 10)).

(** [currentPosition() <= -5760 * 1.1]: the [long] is converted to
    [double]. *)
Definition homed_at (p : Z) : bool := SFleb (double_lit fmt p) homingLimit.

Fixpoint homingLoop (fuel : nat) (st : AccelStepper) : result AccelStepper :=
  match fuel with
  | O => OutOfFuel
  | S fuel' =>
      let st := runSpeed st in
      if homed_at (currentPosition st) then Done st
      else homingLoop fuel' st
  end.

Definition homing (fuel : nat) (s : State) : result State :=
  let s := println "HOMING" s in
  let s := upd_inOutStepper (setSpeed (float_of_Z (-5000))) s in
  st <- homingLoop fuel (inOutStepper s) ;;
  let s := upd_inOutStepper (fun _ => setCurrentPosition 0 st) s in
  Done (println "HOMED" s).

Definition parsePair (pair : string) : float * float :=
  let commaIndex := indexOfFromW (uintBits fmt) "," pair 0 in
  (toFloat (substringW (uintBits fmt) pair 0 commaIndex),
   toFloat (substringW (uintBits fmt) pair (commaIndex + 1) (strlen pair))).

(** [while (pairIndex < BUFFER_SIZE) { ... }] with [n] passes left. *)
Fixpoint fillBuffer (n : nat) (input : string) (pairIndex startIdx : Z)
    (buf : list (float * float)) : Z * list (float * float) :=
  match n with
  | O => (pairIndex, buf)
  | S n' =>
      if pairIndex <? 10 then
        let endIdx := indexOfFromW (uintBits fmt) ";" input startIdx in
        if endIdx =? -1 then (pairIndex, buf)
        else
          let pair := substringW (uintBits fmt) input startIdx endIdx in
          fillBuffer n' input (pairIndex + 1) (endIdx + 1)
            (store buf (Z.to_nat pairIndex) (parsePair pair))
      else (pairIndex, buf)
  end.

Definition readBatch (input : string) (s : State) : State :=
  let '(pairIndex, buf) := fillBuffer 10 input 0 0 (buffer s) in
  set_batch buf pairIndex true s.

(** [for (int i = ...; i < bufferCount; i++) movePolar(buffer[i][0],
    buffer[i][1]);] with [n] passes left. *)
Fixpoint batchLoop (n : nat) (i : Z) (s : State) : result State :=
  match n with
  | O => Done s
  | S n' =>
      let w := nth (Z.to_nat i) (buffer s) (S754_zero false, S754_zero false) in
      s' <- movePolarTo (fst w) (snd w) s ;;
      batchLoop n' (i + 1) s'
  end.

Definition processBatch (s : State) : result State :=
  if batchComplete s && (0 <? bufferCount s) then
    s <- batchLoop (Z.to_nat (bufferCount s)) 0 s ;;
    Done (println "READY" (set_batch (buffer s) 0 false s))
  else Done s.

(** One pass of [loop]; [available] is the line [Serial] has ready, if any. *)
Definition loop (fuel : nat) (available : option string) (s : State) : result State :=
  match available with
  | Some input =>
      if negb (String.eqb input "HOME") && negb (endsWith input ";")
      then Done (println "IGNORED" s)
      else if String.eqb input "HOME" then homing fuel s
      else processBatch (if negb (batchComplete s) then readBatch input s else s)
  | None => processBatch s
  end.

End Sketch.

(** The globals as initialised, the steppers as their constructor leaves
    them. *)
Definition powerOn : State :=
  let st := mkStepper 0 (S754_zero false) (float_of_Z 1) (float_of_Z 1) true in
  mkState st st (repeat (S754_zero false, S754_zero false) 10) 0 false [] [].

Definition setup (fmt : doubleFormat) (fuel : nat) : result State :=
  let s := upd_rotStepper (setMaxSpeed (float_of_Z 2000)) powerOn in
  let s := upd_rotStepper (setAcceleration (float_of_Z 1)) s in
  let s := upd_inOutStepper (setMaxSpeed (float_of_Z 2000)) s in
  let s := upd_inOutStepper (setAcceleration (float_of_Z 1)) s in
  homing fmt fuel (println "READY" s).

End Arduino.

(** ** A reading of [String::toFloat] on plain decimal literals

    [-]digits[.digits], the value converted as [atof] does: to [double],
    then to [float].  It serves to run the dispatcher on concrete lines;
    the properties of the dispatcher hold for every [toFloat]. *)

Definition digitOf (c : ascii) : option Z :=
  let n := Z.of_nat (nat_of_ascii c) in
  if (48 <=? n) && (n <=? 57) then Some (n - 48) else None.

(** Reads a run of digits: accumulated value, digits read, rest. *)
Fixpoint readDigits (s : string) (acc : Z) (k : nat) : Z * nat * string :=
  match s with
  | EmptyString => (acc, k, s)
  | String c s' =>
      match digitOf c with
      | Some d => readDigits s' (10 * acc + d) (S k)
      | None => (acc, k, s)
      end
  end.

Definition decimalToFloat (s : string) : float :=
  let '(neg, s) := match s with
                   | String "-" s' => (true, s')
                   | _ => (false, s)
                   end in
  let '(ip, _, rest) := readDigits s 0 0 in
  let '(m, k) := match rest with
                 | String "." r => let '(fp, k, _) := readDigits r ip 0 in (fp, k)
                 | _ => (ip, O)
                 end in
  to_float (ddiv (double_of_Z (if neg then - m else m)) (double_of_Z (10 ^ Z.of_nat k))).

(** ** The formulas of the specification, in exact rational arithmetic

    [round] is rounding to the nearest integer and [ceil] the ceiling;
    π is taken at the value of [M_PI], and the gear ratio at 100/15. *)

Module Spec.

Definition pi : Q := F2Q M_PI.

Definition rotationSteps (theta : Q) : Z :=
  Qnearest (theta * (inject_Z Esp32.rot_total_steps / (2 * pi))).

Definition offsetSteps (theta : Q) : Z :=
  Qnearest (theta / (2 * pi) * inject_Z Esp32.rot_total_steps / (100 # 15)).

Definition radialSteps (theta rho : Q) : Z :=
  Qnearest (rho * inject_Z Esp32.inOut_total_steps) - offsetSteps theta.

(** The square of the Euclidean distance between two waypoints. *)
Definition distance2 (startTheta startRho endTheta endRho : Q) : Q :=
  (endTheta - startTheta) ^ 2 + (endRho - startRho) ^ 2.

(** [max(1, ceil(distance / resolution))] for a distance whose square is
    [d2]: the least [n >= 1] with [distance <= n * resolution]. *)
Definition reaches (d2 resolution : Q) (n : Z) : Prop :=
  (d2 <= (inject_Z n * resolution) ^ 2)%Q.

Definition segmentCount (d2 resolution : Q) (n : Z) : Prop :=
  1 <= n /\ reaches d2 resolution n /\
  (1 < n -> ~ reaches d2 resolution (n - 1)).

End Spec.

(** * Notions the statements are written with *)

Import Esp32.

(** The state the firmware is in when [setup] returns. *)
Definition homed : State :=
  let st := mkStepper 0 (S754_zero false) maxSpeed maxAcceleration in
  mkState (st true) (st false)
    (repeat (S754_zero false, S754_zero false) (Z.to_nat BUFFER_SIZE))
    0 false (S754_zero false) (S754_zero false) true (S754_zero false)
    ["R"; "HOMING"; "HOMED"]%string [].

(** The states the firmware can be in: the one [setup] leaves, and those
    that a pass of [loop] leads to from such a state. *)
Inductive reachable (toFloat : string -> float) : State -> Prop :=
| reachable_setup (fuel : nat) (s : State) :
    setup fuel = Done s -> reachable toFloat s
| reachable_loop (fuel : nat) (available : option string) (s s' : State) :
    reachable toFloat s -> loop toFloat fuel available s = Done s' ->
    reachable toFloat s'.

(** The position at which the homing jog of the Arduino sketch stops: the
    first one at or below [-5760 * 1.1] as the board computes that product. *)
Definition arduinoHomingStop (f : Arduino.doubleFormat) : Z :=
  match f with Arduino.Binary32 => -6336 | Arduino.Binary64 => -6337 end.

(** The Motion State and the position references of the two axes. *)
Definition motionState (s : State) : float * float * float * bool :=
  (currentTheta s, currentRho s, totalRevolutions s, isFirstCoordinates s).

Definition positions (s : State) : Z * Z :=
  (currentPosition (rotStepper s), currentPosition (inOutStepper s)).

(** [frame s s']: [s'] differs from [s] at most in the two position
    counters, in [currentTheta] and [currentRho], and in the history of
    moves. *)
Definition sameStepper (a b : AccelStepper) : Prop :=
  speed b = speed a /\ stepperMaxSpeed b = stepperMaxSpeed a /\
  acceleration b = acceleration a /\ outputsEnabled b = outputsEnabled a.

Record frame (s s' : State) : Prop := mkFrame {
  fr_rot : sameStepper (rotStepper s) (rotStepper s');
  fr_inOut : sameStepper (inOutStepper s) (inOutStepper s');
  fr_buffer : buffer s' = buffer s;
  fr_bufferCount : bufferCount s' = bufferCount s;
  fr_batchComplete : batchComplete s' = batchComplete s;
  fr_first : isFirstCoordinates s' = isFirstCoordinates s;
  fr_revolutions : totalRevolutions s' = totalRevolutions s;
  fr_serial : serialOut s' = serialOut s
}.

(** One blocking move per waypoint of a list, in order. *)
Fixpoint moveThrough (ws : list (float * float)) (s : State) : result State :=
  match ws with
  | [] => Done s
  | w :: ws' => s' <- movePolar (fst w) (snd w) s ;; moveThrough ws' s'
  end.

(** The interpolated waypoints for [step] from 0 to [numSteps] inclusive. *)
Definition waypoints (startTheta startRho angleDiff endRho : float) (numSteps : Z)
  : list (float * float) :=
  map (fun k => interpolated startTheta startRho angleDiff endRho numSteps (Z.of_nat k))
      (seq 0 (Z.to_nat (numSteps + 1))).


(** A batch line: the segments, each followed by a semicolon. *)
Fixpoint join (segs : list string) : string :=
  match segs with
  | [] => EmptyString
  | seg :: t => (seg ++ String ";" (join t))%string
  end.

(** Successive stores from index [i] on. *)
Fixpoint storeAll {A : Type} (buf : list A) (i : nat) (ps : list A) : list A :=
  match ps with
  | [] => buf
  | p :: ps' => storeAll (store buf i p) (S i) ps'
  end.

(** The cells [k], ..., [k + n - 1] of the buffer. *)
Definition slice (buf : list (float * float)) (k n : nat) : list (float * float) :=
  map (fun j => nth j buf (S754_zero false, S754_zero false)) (seq k n).

(** Each waypoint of a list reached by interpolation from the one before
    it, the first from [prev]. *)
Fixpoint interpolateThrough (fuel : nat) (prev : float * float)
    (ws : list (float * float)) (s : State) : result State :=
  match ws with
  | [] => Done s
  | w :: ws' =>
      s' <- interpolatePath fuel (fst prev) (snd prev) (fst w) (snd w)
              interpolationResolution s ;;
      interpolateThrough fuel w ws' s'
  end.

(** A batch of waypoints: with the first-coordinates flag set, one direct
    move to the first waypoint, the flag cleared, and the others by
    interpolation from their predecessor; with the flag clear, every
    waypoint by interpolation, the first from the position the Motion State
    holds. *)
Definition executeBatch (fuel : nat) (ws : list (float * float)) (s : State)
  : result State :=
  match ws with
  | [] => Done s
  | w :: ws' =>
      if isFirstCoordinates s then
        s1 <- movePolar (fst w) (snd w) s ;;
        interpolateThrough fuel w ws' (set_isFirstCoordinates false s1)
      else interpolateThrough fuel (currentTheta s, currentRho s) ws s
  end.

Definition enableOutputs (s : State) : State :=
  upd_inOutStepper (setOutputs true) (upd_rotStepper (setOutputs true) s).

(** The end of a batch: outputs off, buffer cleared, ready marker. *)
Definition finishBatch (s : State) : State :=
  let s := upd_inOutStepper (setOutputs false) (upd_rotStepper (setOutputs false) s) in
  println "R" (set_batch (buffer s) 0 false s).

(** ** Rounding to a floating-point format

    What [binary_round], and with it the arithmetic of [SpecFloat], computes,
    written on integers: the value of a number as a multiple of [2^-off],
    and rounding to nearest, ties to even, of such multiples. *)

Module Round.

(** Round to nearest, ties to even, of the quotient [x / g]. *)
Definition rne_div (x g : Z) : Z :=
  let q := x / g in
  let r := x mod g in
  if 2 * r <? g then q
  else if g <? 2 * r then q + 1
  else if Z.even q then q else q + 1.

Section Format.

Variables prec emax off : Z.

(** Mantissa and exponent that [binary_round_aux] arrives at. *)
Definition renorm (q t : Z) : Z * Z :=
  if q =? 2 ^ prec then (2 ^ (prec - 1), t + 1) else (q, t).

Definition round_core (mx : positive) (ex : Z) : Z * Z :=
  let t := SpecFloat.fexp prec emax (Zpos (digits2_pos mx) + ex) in
  if t <=? ex then (Zpos mx, ex)
  else renorm (rne_div (Zpos mx) (2 ^ (t - ex))) t.

Definition pack (sx : bool) (me : Z * Z) : spec_float :=
  match fst me with
  | Z0 => S754_zero sx
  | Zpos m => if snd me <=? emax - prec then S754_finite sx m (snd me)
              else S754_infinity sx
  | Zneg _ => S754_nan
  end.

(** Mantissa and exponent of [binary_round], which first aligns a short
    mantissa to the left. *)
Definition rnd_me (mx : positive) (ex : Z) : Z * Z :=
  let t := SpecFloat.fexp prec emax (Zpos (digits2_pos mx) + ex) in
  if t <=? ex then (Zpos mx * 2 ^ (ex - t), t)
  else renorm (rne_div (Zpos mx) (2 ^ (t - ex))) t.

(** The value of a number in units of [2^-off]. *)
Definition V (x : spec_float) : Z :=
  match x with
  | S754_finite s m e => cond_Zopp s (Zpos m * 2 ^ (e + off))
  | _ => 0
  end.

(** The exponent of the binade of a positive value, its unit in the last
    place, and its rounding to the format. *)
Definition mag (X : Z) : Z := Z.log2 X + 1 - off.

Definition ulp_of (X : Z) : Z := 2 ^ (SpecFloat.fexp prec emax (mag X) + off).

Definition RND (X : Z) : Z := ulp_of X * rne_div X (ulp_of X).

(** Rounding of a signed value: symmetric around zero. *)
Definition RNDs (X : Z) : Z := if X <? 0 then - RND (- X) else RND X.

(** A number of the format, zero included. *)
Definition good (x : spec_float) : Prop :=
  match x with
  | S754_zero _ => True
  | S754_finite _ m e => bounded prec emax m e = true
  | _ => False
  end.

End Format.

End Round.

(** The exact values of [float] and [double] numbers on one integer scale:
    multiples of [2^-1074], the smallest positive [double]; [one] is 1.0. *)
Definition scale : Z := 1074.
Definition val (x : spec_float) : Z := Round.V scale x.
Definition one : Z := 2 ^ scale.
Definition is_float (x : spec_float) : Prop := Round.good 24 128 x.
Definition is_double (x : spec_float) : Prop := Round.good 53 1024 x.
Definition round32 (X : Z) : Z := Round.RNDs 24 128 scale X.
Definition round64 (X : Z) : Z := Round.RNDs 53 1024 scale X.

(** One pass of each of the two loops that normalise the angle difference. *)
Definition stepDown (a : float) : float := to_float (dsub (to_double a) two_pi).
Definition stepUp (a : float) : float := to_float (dadd (to_double a) two_pi).

(** A number of passes that is enough for an angle difference [d]: one
    more than a quarter of its magnitude. *)
Definition passes (d : float) : nat := Z.to_nat (Z.abs (val d) / (4 * one) + 1).

(** * Properties *)

(** ** Generic facts about the model *)

Lemma bind_Done {A B : Type} (r : result A) (k : A -> result B) (b : B) :
  bind r k = Done b -> exists a, r = Done a /\ k a = Done b.
Proof.
  destruct r as [a| |]; simpl; intros H; try discriminate.
  exists a. split; [reflexivity | exact H].
Qed.

Lemma cast_long_Done (x : spec_float) (z : Z) :
  cast_long x = Done z -> z = Qtrunc (F2Q x) /\ in_long z = true.
Proof.
  unfold cast_long.
  destruct x as [s|s| |s m e]; try discriminate;
    match goal with
    | |- context [in_long ?t] => destruct (in_long t) eqn:E
    end; intros H; inversion H; subst; auto.
Qed.

Lemma long_sub_Done (a b z : Z) :
  long_sub a b = Done z -> z = a - b.
Proof.
  unfold long_sub. destruct (in_long (a - b)); intros H; inversion H; reflexivity.
Qed.

(** What one call of [movePolar] does to the state. *)
Lemma movePolar_Done (theta rho : float) (s s' : State) :
  movePolar theta rho s = Done s' ->
  exists rotSteps offsetSteps inOutSteps,
    cast_long (rotStepsValue theta) = Done rotSteps /\
    cast_long (offsetValue theta) = Done offsetSteps /\
    cast_long (inOutValue (clampRho rho)) = Done inOutSteps /\
    in_long (inOutSteps - offsetSteps) = true /\
    s' = set_currentRho (clampRho rho) (set_currentTheta theta
           (runSpeedToPosition
              (mkMove theta (clampRho rho) rotSteps (inOutSteps - offsetSteps)) s)).
Proof.
  unfold movePolar. intros H.
  apply bind_Done in H. destruct H as (r & Hr & H).
  apply bind_Done in H. destruct H as (o & Ho & H).
  apply bind_Done in H. destruct H as (i & Hi & H).
  apply bind_Done in H. destruct H as (d & Hd & H).
  exists r, o, i. repeat split; try assumption.
  - unfold long_sub in Hd. destruct (in_long (i - o)); [reflexivity | discriminate].
  - apply long_sub_Done in Hd. subst d. inversion H. reflexivity.
Qed.

Lemma movePolar_intro (theta rho : float) (s : State) (rotSteps offsetSteps inOutSteps : Z) :
  cast_long (rotStepsValue theta) = Done rotSteps ->
  cast_long (offsetValue theta) = Done offsetSteps ->
  cast_long (inOutValue (clampRho rho)) = Done inOutSteps ->
  in_long (inOutSteps - offsetSteps) = true ->
  movePolar theta rho s =
  Done (set_currentRho (clampRho rho) (set_currentTheta theta
          (runSpeedToPosition
             (mkMove theta (clampRho rho) rotSteps (inOutSteps - offsetSteps)) s))).
Proof.
  intros Hr Ho Hi Hd. unfold movePolar. rewrite Hr, Ho, Hi. simpl.
  unfold long_sub. rewrite Hd. reflexivity.
Qed.

(** [Qtrunc] discards the fractional part: it is the floor of a
    non-negative rational and the ceiling of a non-positive one. *)
Lemma Qtrunc_nonneg (q : Q) : (0 <= q)%Q -> Qtrunc q = Qfloor q.
Proof.
  destruct q as [n d]. unfold Qle, Qtrunc, Qfloor. simpl. intros H.
  apply Z.quot_div_nonneg; lia.
Qed.

Lemma Qtrunc_nonpos (q : Q) : (q <= 0)%Q -> Qtrunc q = Qceiling q.
Proof.
  destruct q as [n d]. unfold Qle, Qtrunc, Qceiling, Qfloor. simpl. intros H.
  replace n with (- - n) at 1 by lia.
  rewrite Z.quot_opp_l by lia. f_equal.
  apply Z.quot_div_nonneg; lia.
Qed.

Lemma setup_homed : setup (Z.to_nat 5107) = Done homed.
Proof. vm_compute. reflexivity. Qed.

(** ** C1: the kinematic transform *)

(** C1, counterexample.  At the waypoint (1.5708, 0.5) from the homed state
    [movePolar] targets 3432 rotation steps and 1807 radial steps, whereas
    the formulas with [round] give 3433 and 1806. *)
Lemma movePolar_not_rounded :
  exists s',
    movePolar (fliteral 15708 4) (fliteral 5 1) homed = Done s' /\
    currentPosition (rotStepper s') = 3432 /\
    Spec.rotationSteps (F2Q (fliteral 15708 4)) = 3433 /\
    currentPosition (inOutStepper s') = 1807 /\
    Spec.radialSteps (F2Q (fliteral 15708 4)) (F2Q (fliteral 5 1)) = 1806.
Proof.
  eexists. split.
  - apply (movePolar_intro _ _ _ 3432 514 2321); vm_compute; reflexivity.
  - repeat split; vm_compute; reflexivity.
Qed.

(** C1, amended.  For every waypoint whose rho the clamp leaves unchanged
    and on which [movePolar] is defined, the rotation target is the
    floating-point product theta * (rot_total_steps / (2π)) with its
    fractional part discarded, the coupling offset is
    revolutions * (rot_total_steps / gearRatio) with its fractional part
    discarded, the radial target is rho * inOut_total_steps with its
    fractional part discarded minus that offset, and the Motion State
    takes the waypoint; the waypoint (1.5708, 0.5) is defined from every
    state and yields 3432 rotation steps, offset 514 and 1807 radial
    steps. *)
Theorem movePolar_truncates :
  (forall (theta rho : float) (s s' : State),
      clampRho rho = rho ->
      movePolar theta rho s = Done s' ->
      let offsetSteps := Qtrunc (F2Q (offsetValue theta)) in
      currentPosition (rotStepper s') = Qtrunc (F2Q (rotStepsValue theta)) /\
      currentPosition (inOutStepper s') =
        Qtrunc (F2Q (inOutValue rho)) - offsetSteps /\
      currentTheta s' = theta /\ currentRho s' = rho) /\
  (forall s : State,
      exists s',
        movePolar (fliteral 15708 4) (fliteral 5 1) s = Done s' /\
        Qtrunc (F2Q (offsetValue (fliteral 15708 4))) = 514 /\
        currentPosition (rotStepper s') = 3432 /\
        currentPosition (inOutStepper s') = 1807).
Proof.
  split.
  - intros theta rho s s' Hrho H.
    apply movePolar_Done in H.
    destruct H as (r & o & i & Hr & Ho & Hi & _ & ->).
    rewrite Hrho in *.
    apply cast_long_Done in Hr, Ho, Hi.
    destruct Hr as [-> _], Ho as [-> _], Hi as [-> _].
    simpl. repeat split; reflexivity.
  - intros s. eexists. split.
    + apply (movePolar_intro _ _ _ 3432 514 2321); vm_compute; reflexivity.
    + repeat split; vm_compute; reflexivity.
Qed.

Lemma movePolar_truncates_witness :
  clampRho (fliteral 5 1) = fliteral 5 1 /\
  exists s',
    movePolar (fliteral 15708 4) (fliteral 5 1) homed = Done s' /\
    currentPosition (rotStepper s') = Qtrunc (F2Q (rotStepsValue (fliteral 15708 4))) /\
    currentPosition (inOutStepper s') =
      Qtrunc (F2Q (inOutValue (fliteral 5 1))) - Qtrunc (F2Q (offsetValue (fliteral 15708 4))).
Proof.
  split; [vm_compute; reflexivity |].
  destruct (proj2 movePolar_truncates homed) as (s' & Hs' & _).
  exists s'. split; [exact Hs' |].
  destruct (proj1 movePolar_truncates (fliteral 15708 4) (fliteral 5 1) homed s')
    as (Hr & Hi & _).
  - vm_compute; reflexivity.
  - exact Hs'.
  - split; assumption.
Defined.

(** ** C4: the homing jog *)

(** A negative speed is a nonzero speed that steps counter-clockwise. *)
Lemma runSpeed_negative (st : AccelStepper) :
  flt (speed st) (S754_zero false) = true ->
  runSpeed st =
  mkStepper (currentPosition st - 1) (speed st) (stepperMaxSpeed st)
    (acceleration st) (outputsEnabled st).
Proof.
  unfold runSpeed. destruct (speed st) as [s|s| |s m e]; try destruct s;
    simpl; try discriminate; reflexivity.
Qed.


(** The loop exit test [currentPosition() <= -inOut_total_steps * 1.1]
    holds from step -5107 on. *)
Lemma homing_exit_test (p : Z) :
  long_le_double p homingLimit = (p <=? -5107).
Proof.
  assert (E : homingLimit = S754_finite true 5614326273749812 (-40))
    by (vm_compute; reflexivity).
  rewrite E. unfold long_le_double.
  replace (F2Q (S754_finite true 5614326273749812 (-40)))
    with (-5614326273749812 # 1099511627776)%Q by (vm_compute; reflexivity).
  unfold Qle_bool. simpl.
  destruct (Z.leb_spec (p * 1099511627776) (-5614326273749812));
    destruct (Z.leb_spec p (-5107)); try reflexivity; lia.
Qed.

(** The jog ends: from position [p] it takes [max 1 (p + 5107)] polls, and
    stops at the first position at or below -5107. *)
Lemma homingLoop_terminates (fuel : nat) :
  forall st : AccelStepper,
    flt (speed st) (S754_zero false) = true ->
    (Z.max 1 (currentPosition st + 5107) <= Z.of_nat fuel) ->
    homingLoop fuel st =
    Done (mkStepper (Z.min (currentPosition st - 1) (-5107)) (speed st)
            (stepperMaxSpeed st) (acceleration st) (outputsEnabled st)).
Proof.
  induction fuel as [|fuel IH]; intros st Hsp Hfuel; [lia |].
  cbn [homingLoop]. rewrite (runSpeed_negative st Hsp). cbn [currentPosition].
  rewrite homing_exit_test.
  destruct (Z.leb_spec (currentPosition st - 1) (-5107)) as [Hle | Hgt].
  - rewrite Z.min_l by lia. reflexivity.
  - rewrite IH; cbn [currentPosition speed stepperMaxSpeed acceleration outputsEnabled];
      [| exact Hsp | lia].
    f_equal. f_equal. lia.
Qed.

(** ** C7: RESET_THETA twice *)

Lemma resetTheta_Done (s s1 : State) :
  resetTheta s = Done s1 ->
  exists inOutPos,
    cast_long (fmul (currentRho s) (float_of_Z inOut_total_steps)) = Done inOutPos /\
    currentRho s1 = currentRho s /\
    motionState s1 = (S754_zero false, currentRho s, S754_zero false, true) /\
    positions s1 = (0, inOutPos).
Proof.
  unfold resetTheta. intros H.
  apply bind_Done in H. destruct H as (p & Hp & H).
  cbn [currentRho set_totalRevolutions set_currentTheta upd_rotStepper] in Hp.
  exists p. inversion H. subst s1. repeat split. exact Hp.
Qed.

Lemma resetTheta_defined (s : State) (inOutPos : Z) :
  cast_long (fmul (currentRho s) (float_of_Z inOut_total_steps)) = Done inOutPos ->
  exists s1, resetTheta s = Done s1.
Proof.
  intros H. unfold resetTheta.
  cbn [currentRho set_totalRevolutions set_currentTheta upd_rotStepper].
  rewrite H. eexists. reflexivity.
Qed.

Section Commands.

Variable toFloat : string -> float.

Lemma loop_RESET_THETA (fuel : nat) (s : State) :
  loop toFloat fuel (Some "RESET_THETA"%string) s =
  (s1 <- resetTheta s ;; Done (println "R" (println "THETA_RESET" s1))).
Proof. reflexivity. Qed.

(** C7.  When a RESET_THETA command has been carried out, a second one right
    after it is carried out as well, and the Motion State (currentTheta,
    currentRho, totalRevolutions, first-since-reset flag) and the position
    references of both axes after the second are those after the first. *)
Theorem reset_theta_idempotent (fuel : nat) (s s1 : State) :
  loop toFloat fuel (Some "RESET_THETA"%string) s = Done s1 ->
  exists s2,
    loop toFloat fuel (Some "RESET_THETA"%string) s1 = Done s2 /\
    motionState s2 = motionState s1 /\
    positions s2 = positions s1.
Proof.
  rewrite !loop_RESET_THETA. intros H.
  apply bind_Done in H. destruct H as (r1 & Hr1 & H). inversion H. subst s1.
  destruct (resetTheta_Done _ _ Hr1) as (p & Hp & Hrho & Hm & Hpos).
  assert (Hp' : cast_long (fmul (currentRho (println "R" (println "THETA_RESET" r1)))
                             (float_of_Z inOut_total_steps)) = Done p).
  { cbn [currentRho println]. rewrite Hrho. exact Hp. }
  destruct (resetTheta_defined _ _ Hp') as (r2 & Hr2).
  rewrite Hr2. cbn [bind]. eexists. split; [reflexivity |].
  destruct (resetTheta_Done _ _ Hr2) as (p2 & Hp2 & Hrho2 & Hm2 & Hpos2).
  rewrite Hp' in Hp2. inversion Hp2. subst p2.
  unfold motionState, positions in *.
  cbn [currentTheta currentRho totalRevolutions isFirstCoordinates
       rotStepper inOutStepper println] in *.
  rewrite Hm2, Hpos2, Hm, Hpos, Hrho. split; reflexivity.
Qed.

End Commands.

Lemma reset_theta_idempotent_witness :
  exists s1 s2,
    loop decimalToFloat 0 (Some "RESET_THETA"%string) homed = Done s1 /\
    loop decimalToFloat 0 (Some "RESET_THETA"%string) s1 = Done s2 /\
    motionState s2 = motionState s1 /\
    positions s2 = positions s1.
Proof.
  eexists.
  assert (H1 : loop decimalToFloat 0 (Some "RESET_THETA"%string) homed = Done _)
    by (vm_compute; reflexivity).
  destruct (reset_theta_idempotent decimalToFloat 0 homed _ H1) as (s2 & H2 & Hm & Hp).
  exists s2. repeat split; assumption.
Defined.

(** ** C6: SET_SPEED *)

Lemma positive_not_negative (v : float) :
  fgt v (float_of_Z 0) = true -> flt v (S754_zero false) = false.
Proof.
  destruct v as [s|s| |s m e]; try destruct s; intros H;
    try (vm_compute in H; discriminate); reflexivity.
Qed.

Section SetSpeed.

Variable toFloat : string -> float.

(** C6.  For a line that starts with SET_SPEED: without a space that
    introduces the argument the command is answered INVALID_COMMAND and the
    state is otherwise unchanged; with an argument that does not parse to a
    positive value it is answered INVALID_SPEED and the state is otherwise
    unchanged; with an argument that parses to a positive value the maximum
    speed of both axes becomes that value and SPEED_SET followed by the ready
    marker R is emitted. *)
Theorem set_speed_command (fuel : nat) (input : string) (s : State) :
  startsWith input "SET_SPEED" = true ->
  let spaceIndex := indexOf " " input in
  let speed := toFloat (substringFrom input (spaceIndex + 1)) in
  (spaceIndex = -1 ->
   loop toFloat fuel (Some input) s = Done (println "INVALID_COMMAND" s)) /\
  (spaceIndex <> -1 -> fgt speed (float_of_Z 0) = false ->
   loop toFloat fuel (Some input) s = Done (println "INVALID_SPEED" s)) /\
  (spaceIndex <> -1 -> fgt speed (float_of_Z 0) = true ->
   exists s',
     loop toFloat fuel (Some input) s = Done s' /\
     stepperMaxSpeed (rotStepper s') = speed /\
     stepperMaxSpeed (inOutStepper s') = speed /\
     serialOut s' = serialOut s ++ ["SPEED_SET"; "R"]%string /\
     motionState s' = motionState s /\ positions s' = positions s /\
     (buffer s', bufferCount s', batchComplete s') =
     (buffer s, bufferCount s, batchComplete s)).
Proof.
  intros Hpre spaceIndex speed.
  assert (Hloop : loop toFloat fuel (Some input) s =
                  if negb (spaceIndex =? -1) then
                    if fgt speed (float_of_Z 0) then
                      Done (println "R" (println "SPEED_SET"
                              (upd_inOutStepper (setMaxSpeed speed)
                                 (upd_rotStepper (setMaxSpeed speed) s))))
                    else Done (println "INVALID_SPEED" s)
                  else Done (println "INVALID_COMMAND" s)).
  { unfold loop. rewrite Hpre. cbn [negb].
    rewrite andb_false_r. cbn [andb]. reflexivity. }
  rewrite Hloop. repeat split.
  - intros E. rewrite E. reflexivity.
  - intros E Hv. apply Z.eqb_neq in E. rewrite E, Hv. reflexivity.
  - intros E Hv. apply Z.eqb_neq in E. rewrite E, Hv. cbn [negb].
    eexists. split; [reflexivity |].
    unfold setMaxSpeed. rewrite (positive_not_negative speed Hv).
    unfold motionState, positions. cbn. rewrite <- app_assoc.
    repeat split; reflexivity.
Qed.

End SetSpeed.

Lemma set_speed_command_witness :
  (loop decimalToFloat 0 (Some "SET_SPEED"%string) homed
   = Done (println "INVALID_COMMAND" homed)) /\
  (loop decimalToFloat 0 (Some "SET_SPEED -5"%string) homed
   = Done (println "INVALID_SPEED" homed)) /\
  (exists s',
     loop decimalToFloat 0 (Some "SET_SPEED 300"%string) homed = Done s' /\
     stepperMaxSpeed (rotStepper s') = float_of_Z 300 /\
     stepperMaxSpeed (inOutStepper s') = float_of_Z 300 /\
     serialOut s' = serialOut homed ++ ["SPEED_SET"; "R"]%string).
Proof.
  split; [| split].
  - apply (set_speed_command decimalToFloat 0 "SET_SPEED" homed);
      vm_compute; reflexivity.
  - apply (set_speed_command decimalToFloat 0 "SET_SPEED -5" homed);
      vm_compute; solve [reflexivity | discriminate].
  - destruct (set_speed_command decimalToFloat 0 "SET_SPEED 300" homed)
      as (_ & _ & H); [vm_compute; reflexivity |].
    destruct H as (s' & Hs' & Hr & Hi & Ho & _);
      [vm_compute; discriminate | vm_compute; reflexivity |].
    exists s'. repeat split; [exact Hs' | | | exact Ho].
    + rewrite Hr. vm_compute. reflexivity.
    + rewrite Hi. vm_compute. reflexivity.
Defined.

(** ** What moves leave unchanged *)

Lemma frame_refl (s : State) : frame s s.
Proof. constructor; unfold sameStepper; auto. Qed.

Lemma frame_trans (s1 s2 s3 : State) : frame s1 s2 -> frame s2 s3 -> frame s1 s3.
Proof.
  intros [[a1 [a2 [a3 a4]]] [b1 [b2 [b3 b4]]] c d e f g h]
         [[a1' [a2' [a3' a4']]] [b1' [b2' [b3' b4']]] c' d' e' f' g' h'].
  constructor; unfold sameStepper; repeat split; congruence.
Qed.

Lemma movePolar_frame (theta rho : float) (s s' : State) :
  movePolar theta rho s = Done s' -> frame s s'.
Proof.
  intros H. apply movePolar_Done in H.
  destruct H as (r & o & i & _ & _ & _ & _ & ->).
  constructor; unfold sameStepper; repeat split; reflexivity.
Qed.

(** The move [movePolar] adds to the history. *)
Lemma movePolar_log (theta rho : float) (s s' : State) :
  movePolar theta rho s = Done s' ->
  exists mv, moveLog s' = moveLog s ++ [mv] /\
             mv_theta mv = theta /\ mv_rho mv = clampRho rho /\
             positions s' = (mv_rot mv, mv_inOut mv).
Proof.
  intros H. apply movePolar_Done in H.
  destruct H as (r & o & i & _ & _ & _ & _ & ->).
  eexists. split; [reflexivity |]. repeat split; reflexivity.
Qed.

Lemma moveThrough_frame (ws : list (float * float)) :
  forall s s', moveThrough ws s = Done s' -> frame s s'.
Proof.
  induction ws as [|w ws IH]; intros s s' H.
  - inversion H. apply frame_refl.
  - cbn [moveThrough] in H. apply bind_Done in H. destruct H as (s1 & H1 & H).
    eapply frame_trans; [eapply movePolar_frame; eassumption | eapply IH; eassumption].
Qed.

Lemma moveThrough_log (ws : list (float * float)) :
  forall s s', moveThrough ws s = Done s' ->
  exists mvs, moveLog s' = moveLog s ++ mvs /\
              map (fun mv => (mv_theta mv, mv_rho mv)) mvs =
              map (fun w => (fst w, clampRho (snd w))) ws.
Proof.
  induction ws as [|w ws IH]; intros s s' H.
  - inversion H. exists []. split; [symmetry; apply app_nil_r | reflexivity].
  - cbn [moveThrough] in H. apply bind_Done in H. destruct H as (s1 & H1 & H).
    destruct (movePolar_log _ _ _ _ H1) as (mv & Hlog & Ht & Hr & _).
    destruct (IH _ _ H) as (mvs & Hlogs & Hmap).
    exists (mv :: mvs). split.
    + rewrite Hlogs, Hlog, <- app_assoc. reflexivity.
    + cbn [map]. rewrite Hmap, Ht, Hr. reflexivity.
Qed.

(** ** C3: the interpolator's segments *)

Lemma interpolateLoop_moveThrough
    (startTheta startRho angleDiff endRho : float) (numSteps : Z) (n : nat) :
  forall (k : nat) (s : State),
    interpolateLoop n (Z.of_nat k) numSteps startTheta startRho angleDiff endRho s =
    moveThrough
      (map (fun j => interpolated startTheta startRho angleDiff endRho numSteps (Z.of_nat j))
           (seq k n)) s.
Proof.
  induction n as [|n IH]; intros k s; [reflexivity |].
  cbn [interpolateLoop seq map moveThrough].
  destruct (movePolar _ _ s) as [s1| |]; cbn [bind]; try reflexivity.
  replace (Z.of_nat k + 1) with (Z.of_nat (S k)) by lia. apply IH.
Qed.

Lemma interpolatePath_waypoints (fuel : nat)
    (startTheta startRho endTheta endRho stepSize : float) (s : State) :
  interpolatePath fuel startTheta startRho endTheta endRho stepSize s =
  (n <- cast_long (fdiv (distanceOf startTheta startRho endTheta endRho) stepSize) ;;
   angleDiff <- shortestAngle fuel (fsub endTheta startTheta) ;;
   moveThrough (waypoints startTheta startRho angleDiff endRho (Z.max 1 n)) s).
Proof.
  unfold interpolatePath, waypoints.
  destruct (cast_long _) as [n| |]; cbn [bind]; try reflexivity.
  destruct (shortestAngle _ _) as [a| |]; cbn [bind]; try reflexivity.
  apply (interpolateLoop_moveThrough _ _ _ _ _ _ O).
Qed.

Lemma interpolatePath_frame (fuel : nat)
    (startTheta startRho endTheta endRho stepSize : float) (s s' : State) :
  interpolatePath fuel startTheta startRho endTheta endRho stepSize s = Done s' ->
  frame s s'.
Proof.
  rewrite interpolatePath_waypoints. intros H.
  apply bind_Done in H. destruct H as (n & _ & H).
  apply bind_Done in H. destruct H as (a & _ & H).
  eapply moveThrough_frame; eassumption.
Qed.

Lemma waypoints_length (startTheta startRho angleDiff endRho : float) (numSteps : Z) :
  List.length (waypoints startTheta startRho angleDiff endRho numSteps) =
  Z.to_nat (numSteps + 1).
Proof. unfold waypoints. rewrite length_map, length_seq. reflexivity. Qed.

Lemma waypoints_nth (startTheta startRho angleDiff endRho : float) (numSteps : Z)
    (k : nat) (d : float * float) :
  (k < Z.to_nat (numSteps + 1))%nat ->
  nth k (waypoints startTheta startRho angleDiff endRho numSteps) d =
  let t := fdiv (float_of_Z (Z.of_nat k)) (float_of_Z numSteps) in
  (fadd startTheta (fmul t angleDiff),
   fadd startRho (fmul t (fsub endRho startRho))).
Proof.
  intros Hk. unfold waypoints.
  set (f := fun j : nat =>
              interpolated startTheta startRho angleDiff endRho numSteps (Z.of_nat j)).
  rewrite (nth_indep _ d (f O)) by (rewrite length_map, length_seq; exact Hk).
  rewrite map_nth, seq_nth by exact Hk. reflexivity.
Qed.

(** C3, counterexample.  Between the waypoints (0, 0) and (0, 0.001) at the
    firmware's resolution 0.0004 the interpolator takes 2 segments, and makes
    3 moves; 2 segments of that resolution do not span the distance, so that
    the count with [ceil] is 3. *)
Lemma segment_count_not_ceiling :
  let rho := fliteral 1 3 in
  let zero := S754_zero false in
  let d2 := Spec.distance2 0 0 0 (F2Q rho) in
  cast_long (fdiv (distanceOf zero zero zero rho) interpolationResolution) = Done 2 /\
  completes (interpolatePath 0 zero zero zero rho interpolationResolution homed)
    (fun s' => List.length (moveLog s') = 3%nat) /\
  ~ Spec.segmentCount d2 (F2Q interpolationResolution) 2 /\
  Spec.segmentCount d2 (F2Q interpolationResolution) 3.
Proof.
  cbv zeta. split; [vm_compute; reflexivity |].
  split; [vm_compute; reflexivity |].
  assert (H1 : Qle_bool (Spec.distance2 0 0 0 (F2Q (fliteral 1 3)))
                 ((inject_Z 2 * F2Q interpolationResolution) ^ 2) = false)
    by (vm_compute; reflexivity).
  assert (H2 : Qle_bool (Spec.distance2 0 0 0 (F2Q (fliteral 1 3)))
                 ((inject_Z 3 * F2Q interpolationResolution) ^ 2) = true)
    by (vm_compute; reflexivity).
  split.
  - intros (_ & Hreach & _). unfold Spec.reaches in Hreach.
    apply Qle_bool_iff in Hreach. rewrite H1 in Hreach. discriminate.
  - unfold Spec.segmentCount, Spec.reaches. split; [lia |]. split.
    + apply Qle_bool_iff. exact H2.
    + intros _ Hreach. apply Qle_bool_iff in Hreach.
      change (3 - 1) with 2 in Hreach. rewrite H1 in Hreach. discriminate.
Qed.

(** C3, amended.  For every start waypoint, end waypoint and resolution the
    interpolator computes n, the quotient distance / resolution with its
    fractional part discarded (the quotient of the floating-point Euclidean
    distance, theta and rho as orthogonal equally weighted axes), takes
    numSteps = max(1, n) segments, normalises the angle difference, and then
    makes one blocking move for each of exactly numSteps + 1 waypoints: the
    waypoint number step, from 0 to numSteps inclusive, is
    (startTheta + t * angleDiff, startRho + t * (endRho - startRho)) with
    t = step / numSteps.  When it completes, the history of moves has grown
    by exactly these numSteps + 1 moves in that order. *)
Theorem interpolatePath_segments (fuel : nat)
    (startTheta startRho endTheta endRho stepSize : float) (s : State) :
  let q := fdiv (distanceOf startTheta startRho endTheta endRho) stepSize in
  interpolatePath fuel startTheta startRho endTheta endRho stepSize s =
    (n <- cast_long q ;;
     angleDiff <- shortestAngle fuel (fsub endTheta startTheta) ;;
     moveThrough (waypoints startTheta startRho angleDiff endRho (Z.max 1 n)) s) /\
  (forall n : Z, cast_long q = Done n -> n = Qtrunc (F2Q q)) /\
  (forall (angleDiff : float) (n : Z),
      let numSteps := Z.max 1 n in
      let ws := waypoints startTheta startRho angleDiff endRho numSteps in
      List.length ws = Z.to_nat (numSteps + 1) /\
      forall step : Z, 0 <= step <= numSteps ->
        nth (Z.to_nat step) ws (S754_nan, S754_nan) =
        let t := fdiv (float_of_Z step) (float_of_Z numSteps) in
        (fadd startTheta (fmul t angleDiff),
         fadd startRho (fmul t (fsub endRho startRho)))) /\
  (forall s' : State,
      interpolatePath fuel startTheta startRho endTheta endRho stepSize s = Done s' ->
      exists (n : Z) (angleDiff : float) (mvs : list Move),
        cast_long q = Done n /\
        shortestAngle fuel (fsub endTheta startTheta) = Done angleDiff /\
        moveLog s' = moveLog s ++ mvs /\
        List.length mvs = Z.to_nat (Z.max 1 n + 1) /\
        map (fun mv => (mv_theta mv, mv_rho mv)) mvs =
        map (fun w => (fst w, clampRho (snd w)))
            (waypoints startTheta startRho angleDiff endRho (Z.max 1 n))).
Proof.
  cbv zeta. split; [apply interpolatePath_waypoints |].
  split; [intros n Hn; apply cast_long_Done in Hn; tauto |].
  split.
  - intros a n. split; [apply waypoints_length |].
    intros step Hstep. rewrite waypoints_nth by lia. cbv zeta.
    rewrite Z2Nat.id by lia. reflexivity.
  - intros s' H. rewrite interpolatePath_waypoints in H.
    apply bind_Done in H. destruct H as (n & Hn & H).
    apply bind_Done in H. destruct H as (a & Ha & H).
    destruct (moveThrough_log _ _ _ H) as (mvs & Hlog & Hmap).
    exists n, a, mvs. repeat split; try assumption.
    rewrite <- (length_map (fun mv => (mv_theta mv, mv_rho mv))), Hmap, length_map.
    apply waypoints_length.
Qed.

Lemma interpolatePath_segments_witness :
  exists s' mvs,
    interpolatePath 0 (S754_zero false) (S754_zero false)
      (S754_zero false) (fliteral 1 3) interpolationResolution homed = Done s' /\
    moveLog s' = moveLog homed ++ mvs /\ List.length mvs = 3%nat.
Proof.
  eexists.
  assert (H : interpolatePath 0 (S754_zero false) (S754_zero false)
                (S754_zero false) (fliteral 1 3) interpolationResolution homed = Done _)
    by (vm_compute; reflexivity).
  destruct (interpolatePath_segments 0 (S754_zero false) (S754_zero false)
              (S754_zero false) (fliteral 1 3) interpolationResolution homed)
    as (_ & _ & _ & Hlog).
  destruct (Hlog _ H) as (n & a & mvs & Hn & _ & Hm & Hlen & _).
  exists mvs. split; [exact H |]. split; [exact Hm |].
  rewrite Hlen.
  assert (E : cast_long (fdiv (distanceOf (S754_zero false) (S754_zero false)
                                 (S754_zero false) (fliteral 1 3))
                              interpolationResolution) = Done 2)
    by (vm_compute; reflexivity).
  rewrite E in Hn. inversion Hn. reflexivity.
Defined.

(** ** C8: the coupling offset over one full turn *)





(** ** C9: the two variants of the transform *)

(** C9, counterexample.  At theta = 1.5708 the ESP32 variant subtracts an
    offset of 514 steps, where the formula with [round] gives 515. *)
Lemma esp32_offset_not_rounded :
  cast_long (offsetValue (fliteral 15708 4)) = Done 514 /\
  Spec.offsetSteps (F2Q (fliteral 15708 4)) = 515.
Proof. split; vm_compute; reflexivity. Qed.

(** C9, amended.  The ESP32 variant subtracts from the radial step target
    the offset revolutions * (rot_total_steps / gearRatio) with its
    fractional part discarded; the Arduino variant adds to it the offset
    revolutions * 1600 with its fractional part discarded, whichever format
    [double] has on its board; the coupling constants are 2059.5 and 1600;
    and the two transforms are different functions of the waypoint: at
    (1.5708, 0.5) the targets are (3432, 1807) and (4000, 3280). *)
Theorem variants_differ :
  (forall (theta rho : float) (s s' : State),
      movePolar theta rho s = Done s' ->
      currentPosition (inOutStepper s') =
      Qtrunc (F2Q (inOutValue (clampRho rho))) -
      Qtrunc (F2Q (fmul (revolutionsOf theta) couplingUnit))) /\
  (forall (fmt : Arduino.doubleFormat) (theta rho : float) (rotSteps inOutSteps : Z),
      Arduino.movePolar fmt theta rho = Done (rotSteps, inOutSteps) ->
      inOutSteps =
      Qtrunc (F2Q (Arduino.inOutValue fmt rho)) +
      Qtrunc (F2Q (fmul (Arduino.revolutionsOf fmt theta) (float_of_Z 1600)))) /\
  ((F2Q couplingUnit == 4119 # 2)%Q /\ (F2Q (float_of_Z 1600) == 1600)%Q) /\
  (forall (fmt : Arduino.doubleFormat) (s : State),
      Arduino.movePolar fmt (fliteral 15708 4) (fliteral 5 1) = Done (4000, 3280) /\
      exists s',
        movePolar (fliteral 15708 4) (fliteral 5 1) s = Done s' /\
        positions s' = (3432, 1807)).
Proof.
  split; [| split; [| split]].
  - intros theta rho s s' H. apply movePolar_Done in H.
    destruct H as (r & o & i & _ & Ho & Hi & _ & ->).
    apply cast_long_Done in Ho, Hi. destruct Ho as [-> _], Hi as [-> _].
    reflexivity.
  - intros fmt theta rho r i H. unfold Arduino.movePolar in H.
    apply bind_Done in H. destruct H as (r' & _ & H).
    apply bind_Done in H. destruct H as (i' & Hi & H).
    apply bind_Done in H. destruct H as (o & Ho & H).
    apply bind_Done in H. destruct H as (d & Hd & H).
    unfold Arduino.long_add in Hd.
    destruct (in_long (i' + o)); [| discriminate].
    inversion Hd. subst d. inversion H. subst.
    apply cast_long_Done in Ho, Hi. destruct Ho as [-> _], Hi as [-> _].
    reflexivity.
  - split; vm_compute; reflexivity.
  - intros fmt s. split.
    + destruct fmt; vm_compute; reflexivity.
    + eexists. split.
      * apply (movePolar_intro _ _ _ 3432 514 2321); vm_compute; reflexivity.
      * vm_compute. reflexivity.
Qed.

Lemma variants_differ_witness :
  exists s',
    movePolar (fliteral 15708 4) (fliteral 5 1) homed = Done s' /\
    currentPosition (inOutStepper s') =
    Qtrunc (F2Q (inOutValue (clampRho (fliteral 5 1)))) -
    Qtrunc (F2Q (fmul (revolutionsOf (fliteral 15708 4)) couplingUnit)).
Proof.
  destruct (proj2 (proj2 (proj2 variants_differ)) Arduino.Binary64 homed)
    as (_ & s' & Hs' & _).
  exists s'. split; [exact Hs' |].
  apply (proj1 variants_differ _ _ _ _ Hs').
Defined.

(** ** Strings and the batch buffer *)

Lemma length_append (a b : string) :
  String.length (a ++ b) = (String.length a + String.length b)%nat.
Proof. induction a as [|c a IH]; simpl; [reflexivity | rewrite IH; reflexivity]. Qed.

Lemma strlen_append (a b : string) : strlen (a ++ b) = strlen a + strlen b.
Proof. unfold strlen. rewrite length_append. lia. Qed.

Lemma strlen_nonneg (a : string) : 0 <= strlen a.
Proof. unfold strlen. lia. Qed.

Lemma append_assoc (a b c : string) : ((a ++ b) ++ c = a ++ (b ++ c))%string.
Proof. induction a as [|x a IH]; simpl; [reflexivity | rewrite IH; reflexivity]. Qed.

Lemma sdrop_append (a b : string) : sdrop (String.length a) (a ++ b) = b.
Proof. induction a as [|c a IH]; simpl; [reflexivity | exact IH]. Qed.

Lemma stake_append (a b : string) : stake (String.length a) (a ++ b) = a.
Proof.
  induction a as [|c a IH]; simpl.
  - destruct b; reflexivity.
  - rewrite IH. reflexivity.
Qed.

Lemma find_append (c : ascii) (a b : string) :
  find c a = None -> find c (a ++ String c b) = Some (String.length a).
Proof.
  induction a as [|x a IH]; simpl; intros H.
  - rewrite Ascii.eqb_refl. reflexivity.
  - destruct (Ascii.eqb x c); [discriminate |].
    destruct (find c a); [discriminate |]. rewrite IH; reflexivity.
Qed.

Lemma to_unsigned_small (z : Z) : 0 <= z < 2 ^ 32 -> to_unsigned z = z.
Proof. intros H. unfold to_unsigned. apply Z.mod_small. exact H. Qed.

(** The next semicolon after a prefix is at the end of the segment that
    follows the prefix. *)
Lemma indexOfFrom_segment (pre seg rest : string) :
  find ";" seg = None ->
  strlen (pre ++ seg ++ String ";" rest) < 2 ^ 32 ->
  indexOfFrom ";" (pre ++ seg ++ String ";" rest) (strlen pre) =
  strlen pre + strlen seg.
Proof.
  intros Hseg Hlen. unfold indexOfFrom.
  pose proof (strlen_nonneg pre) as Hp. pose proof (strlen_nonneg seg) as Hs.
  pose proof (strlen_nonneg rest) as Hr.
  rewrite !strlen_append in Hlen.
  change (strlen (String ";" rest)) with (Z.of_nat (S (String.length rest))) in Hlen.
  unfold strlen in Hr.
  rewrite to_unsigned_small by lia.
  rewrite !strlen_append.
  change (strlen (String ";" rest)) with (Z.of_nat (S (String.length rest))).
  destruct (Z.leb_spec (strlen pre + (strlen seg + Z.of_nat (S (String.length rest))))
              (strlen pre)) as [H | H]; [lia |].
  unfold strlen at 1. rewrite Nat2Z.id, sdrop_append, (find_append _ _ _ Hseg).
  reflexivity.
Qed.

Lemma substring_segment (pre seg rest : string) :
  strlen (pre ++ seg ++ String ";" rest) < 2 ^ 32 ->
  substring (pre ++ seg ++ String ";" rest) (strlen pre) (strlen pre + strlen seg) = seg.
Proof.
  intros Hlen. unfold substring.
  pose proof (strlen_nonneg pre) as Hp. pose proof (strlen_nonneg seg) as Hs.
  pose proof (strlen_nonneg rest) as Hr.
  rewrite !strlen_append in Hlen.
  change (strlen (String ";" rest)) with (Z.of_nat (S (String.length rest))) in Hlen.
  unfold strlen in Hr.
  rewrite !to_unsigned_small by lia.
  destruct (Z.ltb_spec (strlen pre + strlen seg) (strlen pre)) as [H | H]; [lia |].
  rewrite !strlen_append.
  change (strlen (String ";" rest)) with (Z.of_nat (S (String.length rest))).
  destruct (Z.leb_spec (strlen pre + (strlen seg + Z.of_nat (S (String.length rest))))
              (strlen pre)) as [H1 | H1]; [lia |].
  destruct (Z.ltb_spec (strlen pre + (strlen seg + Z.of_nat (S (String.length rest))))
              (strlen pre + strlen seg)) as [H2 | H2]; [lia |].
  replace (strlen pre + strlen seg - strlen pre) with (strlen seg) by lia.
  unfold strlen. rewrite !Nat2Z.id, sdrop_append, stake_append. reflexivity.
Qed.

Lemma store_app {A : Type} (pre buf : list A) (b p : A) :
  store (pre ++ b :: buf) (List.length pre) p = pre ++ p :: buf.
Proof. induction pre as [|x pre IH]; simpl; [reflexivity | rewrite IH; reflexivity]. Qed.

Lemma storeAll_app {A : Type} (ps : list A) :
  forall pre buf : list A,
    (List.length ps <= List.length buf)%nat ->
    storeAll (pre ++ buf) (List.length pre) ps = pre ++ ps ++ skipn (List.length ps) buf.
Proof.
  induction ps as [|p ps IH]; intros pre buf Hlen; [reflexivity |].
  destruct buf as [|b buf]; [simpl in Hlen; lia |].
  cbn [storeAll]. rewrite store_app.
  replace (pre ++ p :: buf) with ((pre ++ [p]) ++ buf) by (rewrite <- app_assoc; reflexivity).
  replace (S (List.length pre)) with (List.length (pre ++ [p]))
    by (rewrite length_app; simpl; lia).
  rewrite IH by (simpl in Hlen; lia).
  rewrite <- app_assoc. reflexivity.
Qed.


Lemma slice_all (l : list (float * float)) : slice l 0 (List.length l) = l.
Proof.
  unfold slice. induction l as [|a l IH]; [reflexivity |].
  cbn [List.length seq map nth]. f_equal.
  rewrite <- seq_shift, map_map. exact IH.
Qed.

(** ** Batches *)

Lemma interpolateThrough_frame (fuel : nat) (ws : list (float * float)) :
  forall prev s s', interpolateThrough fuel prev ws s = Done s' -> frame s s'.
Proof.
  induction ws as [|w ws IH]; intros prev s s' H.
  - inversion H. apply frame_refl.
  - cbn [interpolateThrough] in H. apply bind_Done in H. destruct H as (s1 & H1 & H).
    eapply frame_trans; [eapply interpolatePath_frame; eassumption | eapply IH; eassumption].
Qed.

Lemma batchLoop_interpolateThrough (fuel : nat) (n : nat) :
  forall (k : nat) (prev : float * float) (s : State),
    isFirstCoordinates s = false ->
    batchLoop fuel n (Z.of_nat k) (fst prev) (snd prev) s =
    interpolateThrough fuel prev (slice (buffer s) k n) s.
Proof.
  induction n as [|n IH]; intros k prev s Hflag; [reflexivity |].
  cbn [batchLoop]. rewrite Hflag. unfold slice. cbn [seq map interpolateThrough].
  unfold bufferAt at 1 2. rewrite Nat2Z.id.
  destruct (interpolatePath fuel (fst prev) (snd prev) _ _ interpolationResolution s)
    as [s1| |] eqn:E; cbn [bind]; try reflexivity.
  apply interpolatePath_frame in E. destruct E as [_ _ Hbuf _ _ Hfirst _ _].
  unfold bufferAt. rewrite Nat2Z.id, Hbuf.
  replace (Z.of_nat k + 1) with (Z.of_nat (S k)) by lia.
  rewrite (IH (S k) (nth k (buffer s) (S754_zero false, S754_zero false)) s1)
    by congruence.
  rewrite Hbuf. reflexivity.
Qed.

Lemma processBatch_executeBatch (fuel : nat) (s : State) :
  batchComplete s = true -> 0 < bufferCount s ->
  processBatch fuel s =
  (s1 <- executeBatch fuel (slice (buffer s) 0 (Z.to_nat (bufferCount s)))
           (enableOutputs s) ;;
   Done (finishBatch s1)).
Proof.
  intros Hc Hn. unfold processBatch. rewrite Hc.
  destruct (Z.ltb_spec 0 (bufferCount s)) as [_ | H]; [| lia]. cbn [andb].
  change (upd_inOutStepper (setOutputs true) (upd_rotStepper (setOutputs true) s))
    with (enableOutputs s).
  change (bufferCount (enableOutputs s)) with (bufferCount s).
  change (currentTheta (enableOutputs s)) with (currentTheta s).
  change (currentRho (enableOutputs s)) with (currentRho s).
  assert (Hbody : batchLoop fuel (Z.to_nat (bufferCount s)) 0 (currentTheta s)
                    (currentRho s) (enableOutputs s) =
                  executeBatch fuel (slice (buffer s) 0 (Z.to_nat (bufferCount s)))
                    (enableOutputs s)).
  { destruct (Z.to_nat (bufferCount s)) as [|n] eqn:En; [lia |].
    destruct (isFirstCoordinates s) eqn:Hflag.
    - unfold slice. cbn [seq map executeBatch batchLoop].
      change (isFirstCoordinates (enableOutputs s)) with (isFirstCoordinates s).
      rewrite Hflag.
      change (bufferAt (enableOutputs s) 0)
        with (nth 0 (buffer s) (S754_zero false, S754_zero false)).
      destruct (movePolar _ _ (enableOutputs s)) as [s1| |] eqn:E; cbn [bind];
        try reflexivity.
      apply movePolar_frame in E. destruct E as [_ _ Hbuf _ _ _ _ _].
      change (buffer (enableOutputs s)) with (buffer s) in Hbuf.
      change (bufferAt (set_isFirstCoordinates false s1) 0)
        with (nth 0 (buffer s1) (S754_zero false, S754_zero false)).
      rewrite Hbuf. change (0 + 1) with (Z.of_nat 1).
      rewrite (batchLoop_interpolateThrough fuel n 1
                 (nth 0 (buffer s) (S754_zero false, S754_zero false))
                 (set_isFirstCoordinates false s1)) by reflexivity.
      change (buffer (set_isFirstCoordinates false s1)) with (buffer s1).
      rewrite Hbuf. reflexivity.
    - pose proof (batchLoop_interpolateThrough fuel (S n) 0
                    (currentTheta s, currentRho s) (enableOutputs s) Hflag) as E.
      cbn [fst snd Z.of_nat] in E. rewrite E.
      unfold executeBatch, slice. cbn [seq map].
      change (isFirstCoordinates (enableOutputs s)) with (isFirstCoordinates s).
      rewrite Hflag. reflexivity. }
  rewrite Hbody. reflexivity.
Qed.

Lemma executeBatch_frame (fuel : nat) (ws : list (float * float)) (s s' : State) :
  executeBatch fuel ws s = Done s' ->
  serialOut s' = serialOut s /\ buffer s' = buffer s /\
  totalRevolutions s' = totalRevolutions s /\
  (ws <> [] -> isFirstCoordinates s' = false).
Proof.
  destruct ws as [|w ws]; cbn [executeBatch]; intros H.
  - inversion H. repeat split. congruence.
  - destruct (isFirstCoordinates s) eqn:Hflag.
    + apply bind_Done in H. destruct H as (s1 & H1 & H).
      apply movePolar_frame in H1. apply interpolateThrough_frame in H.
      destruct H1 as [_ _ b1 _ _ _ r1 o1], H as [_ _ b2 _ _ f2 r2 o2].
      cbn in b2, f2, r2, o2. repeat split; congruence.
    + apply interpolateThrough_frame in H.
      destruct H as [_ _ b2 _ _ f2 r2 o2]. repeat split; congruence.
Qed.

(** ** C4: what homing resets *)


(** What [homing] and a batch leave as they find it. *)
Lemma homingLoop_keeps (fuel : nat) :
  forall st st' : AccelStepper,
    homingLoop fuel st = Done st' -> stepperMaxSpeed st' = stepperMaxSpeed st.
Proof.
  induction fuel as [| fuel IH]; intros st st' H; [discriminate |].
  cbn [homingLoop] in H.
  assert (E : stepperMaxSpeed (runSpeed st) = stepperMaxSpeed st)
    by (unfold runSpeed; destruct (feq _ _); reflexivity).
  destruct (long_le_double _ _).
  - inversion H; subst. exact E.
  - rewrite (IH _ _ H). exact E.
Qed.

Lemma homing_keeps (fuel : nat) (s s' : State) :
  homing fuel s = Done s' ->
  totalRevolutions s' = totalRevolutions s /\
  stepperMaxSpeed (inOutStepper s') = stepperMaxSpeed (inOutStepper s).
Proof.
  unfold homing. intros H. apply bind_Done in H. destruct H as (st & Hst & H).
  inversion H; subst s'; clear H. apply homingLoop_keeps in Hst.
  split; [reflexivity |].
  cbn [inOutStepper upd_inOutStepper upd_rotStepper println set_currentTheta
       set_currentRho setOutputs setCurrentPosition stepperMaxSpeed] in *.
  rewrite Hst. unfold setSpeed. destruct (feq _ _); reflexivity.
Qed.

Lemma executeBatch_maxSpeed (fuel : nat) (ws : list (float * float)) (s s' : State) :
  executeBatch fuel ws s = Done s' ->
  stepperMaxSpeed (inOutStepper s') = stepperMaxSpeed (inOutStepper s).
Proof.
  destruct ws as [| w ws]; cbn [executeBatch]; intros H.
  - inversion H. reflexivity.
  - destruct (isFirstCoordinates s).
    + apply bind_Done in H. destruct H as (s1 & H1 & H).
      apply movePolar_frame in H1. apply interpolateThrough_frame in H.
      destruct H1 as [_ (_ & m1 & _) _ _ _ _ _ _], H as [_ (_ & m2 & _) _ _ _ _ _ _].
      cbn in m2. congruence.
    + apply interpolateThrough_frame in H.
      destruct H as [_ (_ & m2 & _) _ _ _ _ _ _]. exact m2.
Qed.

Lemma processBatch_keeps (fuel : nat) (s s' : State) :
  processBatch fuel s = Done s' ->
  totalRevolutions s' = totalRevolutions s /\
  stepperMaxSpeed (inOutStepper s') = stepperMaxSpeed (inOutStepper s).
Proof.
  intros H. destruct (batchComplete s && (0 <? bufferCount s)) eqn:E.
  - apply andb_prop in E as [Ec En]. apply Z.ltb_lt in En.
    rewrite (processBatch_executeBatch fuel s Ec En) in H.
    apply bind_Done in H. destruct H as (s1 & H1 & H). inversion H; subst s'; clear H.
    pose proof (executeBatch_maxSpeed _ _ _ _ H1) as M.
    apply executeBatch_frame in H1. destruct H1 as (_ & _ & R & _).
    split; [exact R | exact M].
  - unfold processBatch in H. rewrite E in H. inversion H. split; reflexivity.
Qed.

(** In every state the firmware reaches, [totalRevolutions] is zero, the
    value it is initialised with and the only one that is ever assigned to
    it, and the speed limit of the radial axis is positive. *)
Lemma loop_keeps (toFloat : string -> float) (fuel : nat) (available : option string)
    (s s' : State) :
  loop toFloat fuel available s = Done s' ->
  totalRevolutions s = S754_zero false ->
  fgt (stepperMaxSpeed (inOutStepper s)) (S754_zero false) = true ->
  totalRevolutions s' = S754_zero false /\
  fgt (stepperMaxSpeed (inOutStepper s')) (S754_zero false) = true.
Proof.
  intros H R M. unfold loop in H. destruct available as [input |].
  - destruct (negb (String.eqb input "HOME") && negb (String.eqb input "RESET_THETA")
              && negb (startsWith input "SET_SPEED") && negb (endsWith input ";")).
    { inversion H. split; assumption. }
    destruct (startsWith input "SET_SPEED").
    { destruct (negb (indexOf " " input =? -1)).
      - destruct (fgt (toFloat (substringFrom input (indexOf " " input + 1)))
                    (float_of_Z 0)) eqn:Hs.
        + inversion H. split; [exact R |].
          cbn [inOutStepper println upd_inOutStepper upd_rotStepper setMaxSpeed
               stepperMaxSpeed].
          rewrite (positive_not_negative _ Hs). exact Hs.
        + inversion H. split; assumption.
      - inversion H. split; assumption. }
    destruct (String.eqb input "HOME").
    { apply homing_keeps in H. destruct H as [-> ->]. split; assumption. }
    destruct (String.eqb input "RESET_THETA").
    { apply bind_Done in H. destruct H as (s1 & H1 & H). inversion H; subst s'; clear H.
      unfold resetTheta in H1. apply bind_Done in H1. destruct H1 as (p & _ & H1).
      inversion H1; subst s1; clear H1. split; [reflexivity | exact M]. }
    apply processBatch_keeps in H. destruct H as [-> ->].
    destruct (negb (batchComplete s)); [| split; assumption].
    unfold readBatch. destruct (fillBuffer _ _ _ _ _ _) as [p buf].
    split; assumption.
  - apply processBatch_keeps in H. destruct H as [-> ->]. split; assumption.
Qed.

Lemma reachable_invariant (toFloat : string -> float) (s : State) :
  reachable toFloat s ->
  totalRevolutions s = S754_zero false /\
  fgt (stepperMaxSpeed (inOutStepper s)) (S754_zero false) = true.
Proof.
  induction 1 as [fuel s H | fuel available s s' _ [R M] H].
  - unfold setup in H. apply homing_keeps in H. destruct H as [-> ->].
    split; vm_compute; reflexivity.
  - exact (loop_keeps toFloat fuel available s s' H R M).
Qed.



(** ** C10: the first waypoint after a reset *)

Lemma homing_keeps_flag (fuel : nat) (s s' : State) :
  homing fuel s = Done s' -> isFirstCoordinates s' = isFirstCoordinates s.
Proof.
  unfold homing. intros H. apply bind_Done in H. destruct H as (st & _ & H).
  inversion H. reflexivity.
Qed.

(** C10, counterexample.  A waypoint of a later batch is not reached by
    interpolation from the waypoint before it, but from the position the
    Motion State holds.  After the batch "0,1.001;" from the homed state the
    previous waypoint is (0, 1.001) and the Motion State holds rho = 1 (the
    clamped value): the batch "0,1.002;" then makes 5 moves, where an
    interpolation from (0, 1.001) makes 3.  After the batch "0.001,0.001;"
    and a HOME command the Motion State holds (0, 0): the batch "0.002,0;"
    then makes 6 moves, where an interpolation from (0.001, 0.001) makes 4. *)
Lemma later_batch_not_from_previous_waypoint :
  exists s1 s2 s3 t1 t2 t3,
    run decimalToFloat 0 ["0,1.001;"%string] homed = Done s1 /\
    isFirstCoordinates s1 = false /\
    currentRho s1 = float_of_Z 1 /\
    loop decimalToFloat 0 (Some "0,1.002;"%string) s1 = Done s2 /\
    List.length (moveLog s2) = (List.length (moveLog s1) + 5)%nat /\
    (s' <- interpolateThrough 0 (fliteral 0 0, fliteral 1001 3)
             [(fliteral 0 0, fliteral 1002 3)] (enableOutputs s1) ;;
     Done (finishBatch s')) = Done s3 /\
    List.length (moveLog s3) = (List.length (moveLog s1) + 3)%nat /\
    run decimalToFloat (Z.to_nat 5200) ["0.001,0.001;"%string; "HOME"%string] homed
      = Done t1 /\
    isFirstCoordinates t1 = false /\
    (currentTheta t1, currentRho t1) = (S754_zero false, S754_zero false) /\
    loop decimalToFloat 0 (Some "0.002,0;"%string) t1 = Done t2 /\
    List.length (moveLog t2) = (List.length (moveLog t1) + 6)%nat /\
    (s' <- interpolateThrough 0 (fliteral 1 3, fliteral 1 3)
             [(fliteral 2 3, fliteral 0 0)] (enableOutputs t1) ;;
     Done (finishBatch s')) = Done t3 /\
    List.length (moveLog t3) = (List.length (moveLog t1) + 4)%nat.
Proof.
  do 6 eexists.
  do 13 (split; [vm_compute; reflexivity |]).
  vm_compute; reflexivity.
Qed.

(** C10, amended.  For a ready batch whose waypoints are [w :: ws]: when
    the first-coordinates flag is set, which it is at power-on, when [setup]
    returns and after [resetTheta], the batch processor makes one direct move
    to [w] (one call of [movePolar], which adds one move to the history),
    clears the flag, and reaches every other waypoint of the batch by
    interpolation from the waypoint before it; when the flag is clear it
    reaches [w] by interpolation from the position the Motion State holds
    (currentTheta, currentRho) and every other waypoint by interpolation from
    the waypoint before it; after a batch the flag is clear. *)
Theorem first_waypoint_direct_rest_interpolated (fuel : nat) (s : State)
    (w : float * float) (ws : list (float * float)) :
  batchComplete s = true ->
  slice (buffer s) 0 (Z.to_nat (bufferCount s)) = w :: ws ->
  (isFirstCoordinates s = true ->
   processBatch fuel s =
     (s1 <- movePolar (fst w) (snd w) (enableOutputs s) ;;
      s2 <- interpolateThrough fuel w ws (set_isFirstCoordinates false s1) ;;
      Done (finishBatch s2)) /\
   forall s1, movePolar (fst w) (snd w) (enableOutputs s) = Done s1 ->
     exists mv, moveLog s1 = moveLog s ++ [mv] /\
                (mv_theta mv, mv_rho mv) = (fst w, clampRho (snd w))) /\
  (isFirstCoordinates s = false ->
   processBatch fuel s =
     (s2 <- interpolateThrough fuel (currentTheta s, currentRho s) (w :: ws)
              (enableOutputs s) ;;
      Done (finishBatch s2))) /\
  (forall s', processBatch fuel s = Done s' -> isFirstCoordinates s' = false) /\
  isFirstCoordinates powerOn = true /\
  (forall f s0, setup f = Done s0 -> isFirstCoordinates s0 = true) /\
  (forall s0 s0', resetTheta s0 = Done s0' -> isFirstCoordinates s0' = true).
Proof.
  intros Hc Hws.
  assert (Hn : 0 < bufferCount s).
  { destruct (Z.to_nat (bufferCount s)) eqn:E; [discriminate Hws | lia]. }
  pose proof (processBatch_executeBatch fuel s Hc Hn) as Hp. rewrite Hws in Hp.
  split; [| split; [| split; [| split; [| split]]]].
  - intros Hflag. split.
    + rewrite Hp. cbn [executeBatch].
      change (isFirstCoordinates (enableOutputs s)) with (isFirstCoordinates s).
      rewrite Hflag. destruct (movePolar _ _ _); reflexivity.
    + intros s1 H1. destruct (movePolar_log _ _ _ _ H1) as (mv & Hlog & Ht & Hr & _).
      exists mv. split; [exact Hlog | rewrite Ht, Hr; reflexivity].
  - intros Hflag. rewrite Hp. cbn [executeBatch].
    change (isFirstCoordinates (enableOutputs s)) with (isFirstCoordinates s).
    rewrite Hflag. reflexivity.
  - intros s' H. rewrite Hp in H. apply bind_Done in H. destruct H as (s1 & H1 & H).
    apply executeBatch_frame in H1. destruct H1 as (_ & _ & _ & Hf).
    inversion H. cbn. apply Hf. discriminate.
  - reflexivity.
  - intros f s0 H. unfold setup in H. apply homing_keeps_flag in H. exact H.
  - intros s0 s0' H. destruct (resetTheta_Done _ _ H) as (p & _ & _ & Hm & _).
    unfold motionState in Hm. congruence.
Qed.

Lemma first_waypoint_direct_rest_interpolated_witness :
  let s := readBatch decimalToFloat "0,0;0,0.001;" homed in
  let w := (fliteral 0 0, fliteral 0 0) in
  batchComplete s = true /\ isFirstCoordinates s = true /\
  processBatch 0 s =
    (s1 <- movePolar (fst w) (snd w) (enableOutputs s) ;;
     s2 <- interpolateThrough 0 w [(fliteral 0 0, fliteral 1 3)]
             (set_isFirstCoordinates false s1) ;;
     Done (finishBatch s2)).
Proof.
  cbv zeta.
  assert (Hc : batchComplete (readBatch decimalToFloat "0,0;0,0.001;" homed) = true)
    by (vm_compute; reflexivity).
  assert (Hf : isFirstCoordinates (readBatch decimalToFloat "0,0;0,0.001;" homed) = true)
    by (vm_compute; reflexivity).
  split; [exact Hc |]. split; [exact Hf |].
  refine (proj1 (proj1 (first_waypoint_direct_rest_interpolated 0
            (readBatch decimalToFloat "0,0;0,0.001;" homed)
            (fliteral 0 0, fliteral 0 0) [(fliteral 0 0, fliteral 1 3)] Hc _) Hf)).
  vm_compute. reflexivity.
Defined.

(** ** C5: a batch line longer than the buffer *)

Lemma join_last (segs : list string) :
  segs <> [] -> exists x, join segs = (x ++ String ";" EmptyString)%string.
Proof.
  induction segs as [|seg t IH]; intros H; [congruence |].
  destruct t as [|seg' t'].
  - exists seg. reflexivity.
  - destruct IH as (x & Hx); [discriminate |].
    exists (seg ++ String ";" x)%string.
    cbn [join] in *. rewrite Hx, append_assoc. reflexivity.
Qed.

Lemma endsWith_semicolon (x : string) :
  endsWith (x ++ String ";" EmptyString) (String ";" EmptyString) = true.
Proof.
  unfold endsWith. rewrite strlen_append.
  change (strlen (String ";" EmptyString)) with 1.
  pose proof (strlen_nonneg x) as Hx.
  destruct (Z.ltb_spec (strlen x + 1) 1) as [H | H]; [lia |].
  replace (strlen x + 1 - 1) with (strlen x) by lia.
  unfold strlen. rewrite Nat2Z.id, sdrop_append. reflexivity.
Qed.

Section Batch.

Variable toFloat : string -> float.




End Batch.


(** ** Rounding to a floating-point format *)

Local Abbreviation rne_div := Round.rne_div.

Lemma digits2_pos_size (m : positive) : digits2_pos m = Pos.size m.
Proof. induction m as [m IH | m IH |]; simpl; try rewrite IH; reflexivity. Qed.

Lemma Zdigits2_log2 (m : positive) : Zdigits2 (Zpos m) = Z.log2 (Zpos m) + 1.
Proof.
  unfold Zdigits2. rewrite digits2_pos_size.
  destruct m as [m | m |]; simpl; try reflexivity; rewrite Pos2Z.inj_succ; lia.
Qed.

Lemma digits_bounds (m : positive) :
  2 ^ (Zpos (digits2_pos m) - 1) <= Zpos m < 2 ^ Zpos (digits2_pos m).
Proof.
  change (Zpos (digits2_pos m)) with (Zdigits2 (Zpos m)). rewrite Zdigits2_log2.
  replace (Z.log2 (Zpos m) + 1 - 1) with (Z.log2 (Zpos m)) by lia.
  apply Z.log2_spec. lia.
Qed.

Lemma iter_xO (m d : positive) : Zpos (Pos.iter xO m d) = Zpos m * 2 ^ Zpos d.
Proof.
  rewrite (Pos.iter_swap_gen _ _ Zpos xO (Z.mul 2)) by reflexivity.
  change (Pos.iter (Z.mul 2) (Zpos m) d) with (Z.shiftl (Zpos m) (Zpos d)).
  apply Z.shiftl_mul_pow2. lia.
Qed.

Lemma iter_pos_nat {A : Type} (f : A -> A) (p : positive) :
  forall x, iter_pos f p x = Nat.iter (Pos.to_nat p) f x.
Proof.
  induction p as [p IH | p IH |]; intros x; cbn [iter_pos].
  - rewrite !IH, Pos2Nat.inj_xI, Nat.iter_succ_r.
    replace (2 * Pos.to_nat p)%nat with (Pos.to_nat p + Pos.to_nat p)%nat by lia.
    rewrite Nat.iter_add. reflexivity.
  - rewrite !IH, Pos2Nat.inj_xO.
    replace (2 * Pos.to_nat p)%nat with (Pos.to_nat p + Pos.to_nat p)%nat by lia.
    rewrite Nat.iter_add. reflexivity.
  - reflexivity.
Qed.

Lemma shr_1_spec (M : Z) (r s : bool) :
  0 <= M ->
  shr_1 (Build_shr_record M r s) = Build_shr_record (M / 2) (Z.odd M) (r || s).
Proof.
  intros HM. rewrite <- Z.div2_div.
  destruct M as [|p|p]; [reflexivity | | lia].
  destruct p; reflexivity.
Qed.

Lemma odd_mod2 (a : Z) : a mod 2 = if Z.odd a then 1 else 0.
Proof. apply Zmod_odd. Qed.

(** [k + 1] right shifts of a mantissa: quotient, round bit, sticky bit. *)
Lemma shr_iter_spec (m : Z) (k : nat) :
  0 <= m ->
  Nat.iter (S k) shr_1 (Build_shr_record m false false) =
  Build_shr_record (m / 2 ^ (Z.of_nat k + 1)) (Z.odd (m / 2 ^ Z.of_nat k))
    (negb (m mod 2 ^ Z.of_nat k =? 0)).
Proof.
  intros Hm. induction k as [|k IH].
  - cbn [Nat.iter]. rewrite shr_1_spec by exact Hm.
    change (2 ^ Z.of_nat 0) with 1. rewrite Z.div_1_r, Z.mod_1_r. reflexivity.
  - rewrite Nat.iter_succ, IH.
    assert (Hp : 0 < 2 ^ Z.of_nat k) by (apply Z.pow_pos_nonneg; lia).
    rewrite shr_1_spec by (apply Z.div_pos; [exact Hm | apply Z.pow_pos_nonneg; lia]).
    replace (Z.of_nat (S k)) with (Z.of_nat k + 1) by lia.
    f_equal.
    + rewrite Z.div_div by lia.
      replace (2 ^ (Z.of_nat k + 1 + 1)) with (2 ^ (Z.of_nat k + 1) * 2)
        by (rewrite (Z.pow_add_r 2 (Z.of_nat k + 1) 1) by lia; reflexivity).
      reflexivity.
    + rewrite (Z.pow_add_r 2 (Z.of_nat k) 1) by lia. change (2 ^ 1) with 2.
      rewrite Z.rem_mul_r by lia. rewrite odd_mod2.
      pose proof (Z.mod_pos_bound m (2 ^ Z.of_nat k) Hp) as Hb. clear IH.
      destruct (Z.odd (m / 2 ^ Z.of_nat k));
        destruct (Z.eqb_spec (m mod 2 ^ Z.of_nat k) 0) as [E | E];
        match goal with
        | |- context [?a =? 0] => destruct (Z.eqb_spec a 0)
        end; cbn [negb orb]; try reflexivity; lia.
Qed.

Lemma round_shr (m : Z) (k : nat) :
  0 <= m ->
  let rec := Nat.iter (S k) shr_1 (Build_shr_record m false false) in
  round_nearest_even (shr_m rec) (loc_of_shr_record rec) =
  rne_div m (2 ^ (Z.of_nat k + 1)).
Proof.
  intros Hm. cbv zeta. rewrite shr_iter_spec by exact Hm.
  assert (Hp : 0 < 2 ^ Z.of_nat k) by (apply Z.pow_pos_nonneg; lia).
  unfold rne_div.
  rewrite (Z.pow_add_r 2 (Z.of_nat k) 1) by lia. change (2 ^ 1) with 2.
  rewrite Z.rem_mul_r by lia. rewrite odd_mod2.
  pose proof (Z.mod_pos_bound m (2 ^ Z.of_nat k) Hp) as Hb.
  cbn [shr_m loc_of_shr_record].
  destruct (Z.odd (m / 2 ^ Z.of_nat k));
    destruct (Z.eqb_spec (m mod 2 ^ Z.of_nat k) 0) as [E | E]; cbn [negb round_nearest_even];
    repeat match goal with
           | |- context [?a <? ?b] => destruct (Z.ltb_spec a b); try lia
           end; reflexivity.
Qed.

Lemma rne_div_bounds (x g : Z) :
  0 < g -> x / g <= rne_div x g <= x / g + 1.
Proof.
  intros Hg. unfold rne_div.
  repeat match goal with
         | |- context [if ?c then _ else _] => destruct c
         end; lia.
Qed.

Lemma rne_div_exact (x g : Z) : 0 < g -> x mod g = 0 -> rne_div x g = x / g.
Proof.
  intros Hg H. unfold rne_div. rewrite H.
  destruct (Z.ltb_spec (2 * 0) g); [reflexivity | lia].
Qed.

(** A quotient below an integer bound rounds to at most that bound. *)
Lemma rne_div_le (x g c : Z) : 0 < g -> x <= c * g -> rne_div x g <= c.
Proof.
  intros Hg Hx.
  destruct (Z.eq_dec x (c * g)) as [E | E].
  - rewrite rne_div_exact; [| exact Hg | subst x; apply Z.mod_mul; lia].
    subst x. rewrite Z.div_mul by lia. lia.
  - pose proof (rne_div_bounds x g Hg) as [_ Hb].
    assert (x / g < c) by (apply Z.div_lt_upper_bound; lia). lia.
Qed.

Lemma rne_div_ge (x g c : Z) : 0 < g -> c * g <= x -> c <= rne_div x g.
Proof.
  intros Hg Hx. pose proof (rne_div_bounds x g Hg) as [Hb _].
  assert (c <= x / g) by (apply Z.div_le_lower_bound; lia). lia.
Qed.

Section Format.

Variables prec emax : Z.
Hypothesis Hprec : 2 <= prec.
Hypothesis Hemax : prec < emax.

Local Abbreviation emin := (SpecFloat.emin prec emax).
Local Abbreviation fexp := (SpecFloat.fexp prec emax).
Local Abbreviation renorm := (Round.renorm prec).
Local Abbreviation round_core := (Round.round_core prec emax).
Local Abbreviation pack := (Round.pack prec emax).
Local Abbreviation rnd_me := (Round.rnd_me prec emax).
Local Abbreviation good := (Round.good prec emax).

Lemma fexp_ge_emin (d : Z) : emin <= fexp d.
Proof. unfold SpecFloat.fexp, SpecFloat.emin. lia. Qed.

Lemma fexp_mono (d1 d2 : Z) : d1 <= d2 -> fexp d1 <= fexp d2.
Proof. unfold SpecFloat.fexp. lia. Qed.

Lemma fexp_spec (d : Z) : fexp d = Z.max (d - prec) emin.
Proof. reflexivity. Qed.

Lemma Zdigits2_nonneg_le (q k : Z) : 0 <= q < 2 ^ k -> 0 <= k -> Zdigits2 q <= k.
Proof.
  intros [H0 Hq] Hk. destruct q as [|p|p]; [simpl; lia | | lia].
  rewrite Zdigits2_log2.
  assert (Z.log2 (Zpos p) < k) by (apply Z.log2_lt_pow2; lia). lia.
Qed.

Lemma Zdigits2_pow2 (k : Z) : 0 <= k -> Zdigits2 (2 ^ k) = k + 1.
Proof.
  intros Hk. assert (Hp : 0 < 2 ^ k) by (apply Z.pow_pos_nonneg; lia).
  destruct (2 ^ k) as [|p|p] eqn:E; try lia.
  rewrite Zdigits2_log2, <- E, Z.log2_pow2 by lia. reflexivity.
Qed.

Lemma shr_fexp_noshift (m e : Z) :
  fexp (Zdigits2 m + e) <= e ->
  shr_fexp prec emax m e loc_Exact = (Build_shr_record m false false, e).
Proof.
  intros H. unfold shr_fexp, shr. cbn [shr_record_of_loc].
  destruct (fexp (Zdigits2 m + e) - e) eqn:E; try reflexivity. lia.
Qed.

Lemma shr_fexp_shift (m : positive) (e : Z) :
  e < fexp (Zdigits2 (Zpos m) + e) ->
  let t := fexp (Zdigits2 (Zpos m) + e) in
  exists rec,
    shr_fexp prec emax (Zpos m) e loc_Exact = (rec, t) /\
    round_nearest_even (shr_m rec) (loc_of_shr_record rec) =
    rne_div (Zpos m) (2 ^ (t - e)).
Proof.
  intros H t. unfold shr_fexp, shr. cbn [shr_record_of_loc]. fold t.
  destruct (t - e) as [|p|p] eqn:E; try lia.
  rewrite iter_pos_nat.
  destruct (Pos.to_nat p) as [|k] eqn:Ek; [lia |].
  eexists. split; [f_equal; lia |].
  rewrite round_shr by lia. f_equal. f_equal. lia.
Qed.

Theorem binary_round_aux_exact (sx : bool) (mx : positive) (ex : Z) :
  binary_round_aux prec emax sx (Zpos mx) ex loc_Exact = pack sx (round_core mx ex).
Proof.
  unfold binary_round_aux, round_core.
  change (Zpos (digits2_pos mx)) with (Zdigits2 (Zpos mx)).
  set (t := fexp (Zdigits2 (Zpos mx) + ex)).
  destruct (Z.leb_spec t ex) as [Hle | Hlt].
  - rewrite shr_fexp_noshift by exact Hle.
    cbn [shr_m loc_of_shr_record round_nearest_even].
    rewrite shr_fexp_noshift by exact Hle. reflexivity.
  - destruct (shr_fexp_shift mx ex Hlt) as (rec & Hrec & Hq). fold t in Hrec, Hq.
    rewrite Hrec, Hq.
    set (n := t - ex) in *.
    assert (Hn : 0 < n) by (unfold n; lia).
    assert (Hg : 0 < 2 ^ n) by (apply Z.pow_pos_nonneg; lia).
    set (q := rne_div (Zpos mx) (2 ^ n)).
    pose proof (digits_bounds mx) as [_ Hmx].
    change (Zpos (digits2_pos mx)) with (Zdigits2 (Zpos mx)) in Hmx.
    set (d := Zdigits2 (Zpos mx)) in *.
    assert (Hd : 1 <= d) by (unfold d; rewrite Zdigits2_log2;
                              pose proof (Z.log2_nonneg (Zpos mx)); lia).
    assert (Ht : emin <= t) by apply fexp_ge_emin.
    assert (Ht' : d + ex - prec <= t) by (unfold t, SpecFloat.fexp, SpecFloat.emin; lia).
    assert (Hq0 : 0 <= q).
    { unfold q. apply (rne_div_ge _ _ 0 Hg). lia. }
    (* the rounded mantissa is at most 2 ^ prec, and below 2 ^ (prec - 1)
       in the subnormal case *)
    assert (Hqle : q <= 2 ^ prec /\ (d + ex - prec < t -> q <= 2 ^ (prec - 1))).
    { split.
      - unfold q. apply rne_div_le; [exact Hg |].
        rewrite <- Z.pow_add_r by lia.
        apply Z.lt_le_incl. eapply Z.lt_le_trans; [exact Hmx |].
        apply Z.pow_le_mono_r; lia.
      - intros Hsub. unfold q. apply rne_div_le; [exact Hg |].
        rewrite <- Z.pow_add_r by lia.
        apply Z.lt_le_incl. eapply Z.lt_le_trans; [exact Hmx |].
        apply Z.pow_le_mono_r; lia. }
    destruct Hqle as [Hqle Hqsub].
    unfold renorm. destruct (Z.eqb_spec q (2 ^ prec)) as [Eq | Nq].
    + (* the mantissa overflowed to 2 ^ prec: one more shift *)
      assert (Hnorm : t = d + ex - prec).
      { destruct (Z.eq_dec t (d + ex - prec)) as [E | E]; [exact E |].
        assert (Hlt2 : 2 ^ (prec - 1) < 2 ^ prec) by (apply Z.pow_lt_mono_r; lia).
        specialize (Hqsub ltac:(lia)). lia. }
      rewrite Eq.
      unfold shr_fexp. rewrite Zdigits2_pow2 by lia.
      replace (fexp (prec + 1 + t) - t) with 1 by (unfold SpecFloat.fexp, SpecFloat.emin in *; lia).
      unfold shr. cbn [shr_record_of_loc iter_pos].
      rewrite shr_1_spec by (apply Z.pow_nonneg; lia).
      cbn [shr_m].
      replace (2 ^ prec / 2) with (2 ^ (prec - 1)).
      2:{ replace prec with (prec - 1 + 1) at 2 by lia.
          rewrite Z.pow_add_r by lia. change (2 ^ 1) with 2.
          rewrite Z.div_mul by lia. reflexivity. }
      reflexivity.
    + rewrite shr_fexp_noshift; [reflexivity |].
      assert (Hdq : Zdigits2 q <= prec).
      { apply Zdigits2_nonneg_le; lia. }
      unfold SpecFloat.fexp, SpecFloat.emin in *. lia.
Qed.


Lemma digits_shift (mx d : positive) :
  Zpos (digits2_pos (Pos.iter xO mx d)) = Zpos (digits2_pos mx) + Zpos d.
Proof.
  change (Zpos (digits2_pos ?p)) with (Zdigits2 (Zpos p)).
  rewrite !Zdigits2_log2, iter_xO, Z.log2_mul_pow2 by lia. lia.
Qed.

Theorem binary_round_exact (sx : bool) (mx : positive) (ex : Z) :
  binary_round prec emax sx mx ex = pack sx (rnd_me mx ex).
Proof.
  unfold binary_round, rnd_me, shl_align.
  set (t := fexp (Zpos (digits2_pos mx) + ex)).
  destruct (t - ex) as [|p|p] eqn:E.
  - rewrite binary_round_aux_exact. unfold round_core. fold t.
    destruct (Z.leb_spec t ex); [| lia].
    replace (ex - t) with 0 by lia. rewrite Z.mul_1_r.
    replace t with ex by lia. reflexivity.
  - rewrite binary_round_aux_exact. unfold round_core. fold t.
    destruct (Z.leb_spec t ex); [lia | rewrite E; reflexivity].
  - rewrite binary_round_aux_exact. unfold round_core.
    rewrite digits_shift.
    replace (Zpos (digits2_pos mx) + Zpos p + t) with (Zpos (digits2_pos mx) + ex) by lia.
    fold t. destruct (Z.leb_spec t t); [| lia].
    destruct (Z.leb_spec t ex); [| lia].
    rewrite iter_xO. replace (ex - t) with (Zpos p) by lia. reflexivity.
Qed.

(** *** Values as integers: a number is counted in units of [2 ^ (- off)] *)

Variable off : Z.
Hypothesis Hoff : 0 <= emin + off.

Local Abbreviation V := (Round.V off).
Local Abbreviation mag := (Round.mag off).
Local Abbreviation ulp_of := (Round.ulp_of prec emax off).
Local Abbreviation RND := (Round.RND prec emax off).
Local Abbreviation RNDs := (Round.RNDs prec emax off).

Lemma ulp_of_pos (X : Z) : 0 < ulp_of X.
Proof.
  unfold ulp_of. apply Z.pow_pos_nonneg; [lia |].
  pose proof (fexp_ge_emin (mag X)). lia.
Qed.

Lemma mag_scaled (mx : positive) (ex : Z) :
  0 <= ex + off -> mag (Zpos mx * 2 ^ (ex + off)) = Zpos (digits2_pos mx) + ex.
Proof.
  intros H. unfold mag. rewrite Z.log2_mul_pow2 by lia.
  change (Zpos (digits2_pos mx)) with (Zdigits2 (Zpos mx)). rewrite Zdigits2_log2. lia.
Qed.

Lemma rne_div_scale (x g c : Z) :
  0 < g -> 0 < c -> rne_div (x * c) (g * c) = rne_div x g.
Proof.
  intros Hg Hc. unfold rne_div.
  rewrite Z.div_mul_cancel_r by lia.
  rewrite Z.mul_mod_distr_r by lia.
  replace (2 * (x mod g * c)) with (2 * (x mod g) * c) by lia.
  destruct (Z.ltb_spec (2 * (x mod g) * c) (g * c));
    destruct (Z.ltb_spec (2 * (x mod g)) g); try nia; try reflexivity.
  destruct (Z.ltb_spec (g * c) (2 * (x mod g) * c));
    destruct (Z.ltb_spec g (2 * (x mod g))); try nia; reflexivity.
Qed.

Lemma renorm_value (q t : Z) :
  0 <= t + off ->
  fst (renorm q t) * 2 ^ (snd (renorm q t) + off) = q * 2 ^ (t + off).
Proof.
  intros Ht. unfold renorm. destruct (Z.eqb_spec q (2 ^ prec)) as [E | E]; cbn [fst snd].
  - rewrite E. rewrite <- !Z.pow_add_r by lia. f_equal. lia.
  - reflexivity.
Qed.

Lemma rnd_me_value (mx : positive) (ex : Z) :
  0 <= ex + off ->
  fst (rnd_me mx ex) * 2 ^ (snd (rnd_me mx ex) + off) = RND (Zpos mx * 2 ^ (ex + off)).
Proof.
  intros Hex. unfold rnd_me, RND, ulp_of. rewrite mag_scaled by exact Hex.
  set (t := fexp (Zpos (digits2_pos mx) + ex)).
  assert (Ht : 0 <= t + off) by (pose proof (fexp_ge_emin (Zpos (digits2_pos mx) + ex)); lia).
  destruct (Z.leb_spec t ex) as [Hle | Hlt]; cbn [fst snd].
  - assert (E : Zpos mx * 2 ^ (ex + off) = Zpos mx * 2 ^ (ex - t) * 2 ^ (t + off)).
    { rewrite <- Z.mul_assoc, <- Z.pow_add_r by lia. f_equal. f_equal. lia. }
    rewrite E. rewrite rne_div_exact.
    + rewrite Z.div_mul by (apply Z.pow_nonzero; lia). lia.
    + apply Z.pow_pos_nonneg; lia.
    + apply Z.mod_mul. apply Z.pow_nonzero; lia.
  - rewrite renorm_value by exact Ht.
    replace (2 ^ (t + off)) with (2 ^ (t - ex) * 2 ^ (ex + off))
      by (rewrite <- Z.pow_add_r by lia; f_equal; lia).
    rewrite rne_div_scale by (apply Z.pow_pos_nonneg; lia). lia.
Qed.

Lemma Zdigits2_ge (q k : Z) : 0 <= k -> 2 ^ k <= q -> k + 1 <= Zdigits2 q.
Proof.
  intros Hk Hq. assert (0 < 2 ^ k) by (apply Z.pow_pos_nonneg; lia).
  destruct q as [|p|p]; try lia.
  rewrite Zdigits2_log2. assert (k <= Z.log2 (Zpos p)) by (apply Z.log2_le_pow2; lia). lia.
Qed.

Lemma rnd_me_shape (mx : positive) (ex : Z) :
  let m' := fst (rnd_me mx ex) in
  let e' := snd (rnd_me mx ex) in
  0 <= m' /\ (0 < m' -> fexp (Zdigits2 m' + e') = e') /\
  emin <= e' <= fexp (Zpos (digits2_pos mx) + ex) + 1.
Proof.
  unfold rnd_me.
  change (Zpos (digits2_pos mx)) with (Zdigits2 (Zpos mx)).
  set (d := Zdigits2 (Zpos mx)).
  set (t := fexp (d + ex)).
  assert (Ht : emin <= t) by apply fexp_ge_emin.
  assert (Ht' : d + ex - prec <= t) by (unfold t, SpecFloat.fexp; lia).
  pose proof (digits_bounds mx) as [Hlo Hhi].
  change (Zpos (digits2_pos mx)) with d in Hlo, Hhi.
  assert (Hd : 1 <= d) by (unfold d; rewrite Zdigits2_log2;
                            pose proof (Z.log2_nonneg (Zpos mx)); lia).
  destruct (Z.leb_spec t ex) as [Hle | Hlt]; cbn [fst snd].
  - split; [apply Z.mul_nonneg_nonneg; [lia | apply Z.pow_nonneg; lia] |].
    split; [| lia]. intros _.
    assert (E : Zdigits2 (Zpos mx * 2 ^ (ex - t)) = d + (ex - t)).
    { assert (Hpos : 0 < Zpos mx * 2 ^ (ex - t))
        by (apply Z.mul_pos_pos; [lia | apply Z.pow_pos_nonneg; lia]).
      destruct (Zpos mx * 2 ^ (ex - t)) as [|p|p] eqn:Ep; try lia.
      rewrite Zdigits2_log2, <- Ep, Z.log2_mul_pow2 by lia.
      unfold d. rewrite Zdigits2_log2. lia. }
    rewrite E. replace (d + (ex - t) + t) with (d + ex) by lia. reflexivity.
  - set (n := t - ex).
    assert (Hn : 0 < n) by (unfold n; lia).
    assert (Hg : 0 < 2 ^ n) by (apply Z.pow_pos_nonneg; lia).
    set (q := rne_div (Zpos mx) (2 ^ n)).
    assert (Hq0 : 0 <= q) by (unfold q; apply (rne_div_ge _ _ 0 Hg); lia).
    assert (Hqle : q <= 2 ^ prec).
    { unfold q. apply rne_div_le; [exact Hg |].
      rewrite <- Z.pow_add_r by lia.
      apply Z.lt_le_incl. eapply Z.lt_le_trans; [exact Hhi |].
      apply Z.pow_le_mono_r; lia. }
    unfold renorm. destruct (Z.eqb_spec q (2 ^ prec)) as [Eq | Nq]; cbn [fst snd].
    + split; [apply Z.pow_nonneg; lia |]. split; [| lia]. intros _.
      rewrite Zdigits2_pow2 by lia. unfold SpecFloat.fexp, SpecFloat.emin in *. lia.
    + split; [exact Hq0 |]. split; [| lia]. intros Hqpos.
      assert (Hdq : Zdigits2 q <= prec) by (apply Zdigits2_nonneg_le; lia).
      destruct (Z.eq_dec t emin) as [E | E].
      * unfold SpecFloat.fexp, SpecFloat.emin in *. lia.
      * assert (Hnorm : t = d + ex - prec) by (unfold t, SpecFloat.fexp in *; lia).
        assert (Hge : 2 ^ (prec - 1) <= q).
        { unfold q. apply rne_div_ge; [exact Hg |].
          rewrite <- Z.pow_add_r by lia.
          replace (prec - 1 + n) with (d - 1) by (unfold n; lia). exact Hlo. }
        assert (prec - 1 + 1 <= Zdigits2 q) by (apply Zdigits2_ge; lia).
        unfold SpecFloat.fexp, SpecFloat.emin in *. lia.
Qed.

(** [binary_round] yields a number of the format whose value is the
    rounding of the exact value, as long as it does not overflow. *)
Theorem binary_round_V (sx : bool) (mx : positive) (ex : Z) :
  0 <= ex + off ->
  Zpos (digits2_pos mx) + ex <= emax - 1 ->
  good (binary_round prec emax sx mx ex) /\
  V (binary_round prec emax sx mx ex) = cond_Zopp sx (RND (Zpos mx * 2 ^ (ex + off))).
Proof.
  intros Hex Hmag. rewrite binary_round_exact.
  pose proof (rnd_me_shape mx ex) as (H0 & Hcan & Hlo & Hhi).
  pose proof (rnd_me_value mx ex Hex) as Hval.
  unfold pack. destruct (rnd_me mx ex) as [m' e']. cbn [fst snd] in *.
  assert (He' : e' <= emax - prec)
    by (unfold SpecFloat.fexp, SpecFloat.emin in *; lia).
  destruct m' as [|p|p]; try lia.
  - split; [exact I |]. rewrite <- Hval. destruct sx; reflexivity.
  - destruct (Z.leb_spec e' (emax - prec)) as [_ | H]; [| lia].
    split.
    + unfold good, bounded, canonical_mantissa.
      change (Zpos (digits2_pos p)) with (Zdigits2 (Zpos p)).
      rewrite Hcan by lia. rewrite Z.eqb_refl.
      destruct (Z.leb_spec e' (emax - prec)); [reflexivity | lia].
    + cbn [V]. rewrite Hval. reflexivity.
Qed.

Lemma rne_div_mono (x y g : Z) : 0 < g -> x <= y -> rne_div x g <= rne_div y g.
Proof.
  intros Hg Hxy.
  destruct (Z.eq_dec (x / g) (y / g)) as [E | E].
  - pose proof (Z.div_mod x g) as Hx. pose proof (Z.div_mod y g) as Hy.
    pose proof (Z.mod_pos_bound x g Hg). pose proof (Z.mod_pos_bound y g Hg).
    assert (x mod g <= y mod g) by nia.
    unfold rne_div. rewrite E.
    repeat match goal with
           | |- context [?a <? ?b] => destruct (Z.ltb_spec a b)
           end; try lia; destruct (Z.even (y / g)); lia.
  - assert (x / g <= y / g) by (apply Z.div_le_mono; lia).
    pose proof (rne_div_bounds x g Hg). pose proof (rne_div_bounds y g Hg). lia.
Qed.

Lemma RND_zero : RND 0 = 0.
Proof.
  unfold RND. rewrite rne_div_exact; [| apply ulp_of_pos | apply Z.mod_0_l].
  - rewrite Z.div_0_l; [lia |]. pose proof (ulp_of_pos 0). lia.
  - pose proof (ulp_of_pos 0). lia.
Qed.

Lemma RND_nonneg (X : Z) : 0 <= X -> 0 <= RND X.
Proof.
  intros H. unfold RND. apply Z.mul_nonneg_nonneg.
  - pose proof (ulp_of_pos X). lia.
  - apply (rne_div_ge _ _ 0 (ulp_of_pos X)). lia.
Qed.

Lemma RND_exact (X : Z) : X mod ulp_of X = 0 -> RND X = X.
Proof.
  intros H. unfold RND. rewrite rne_div_exact by (apply ulp_of_pos || exact H).
  pose proof (ulp_of_pos X). pose proof (Z.div_mod X (ulp_of X)). lia.
Qed.

Theorem RND_mono (X Y : Z) : 0 < X -> X <= Y -> RND X <= RND Y.
Proof.
  intros HX HXY.
  assert (Hmag : mag X <= mag Y) by (unfold mag; pose proof (Z.log2_le_mono X Y); lia).
  pose proof (fexp_mono _ _ Hmag) as Hfexp.
  pose proof (fexp_ge_emin (mag X)) as HeX. pose proof (fexp_ge_emin (mag Y)) as HeY.
  destruct (Z.eq_dec (fexp (mag X)) (fexp (mag Y))) as [E | E].
  - unfold RND, ulp_of. rewrite E.
    apply Z.mul_le_mono_nonneg_l; [apply Z.pow_nonneg; lia |].
    apply rne_div_mono; [apply Z.pow_pos_nonneg; lia | exact HXY].
  - (* different binades: the power of two between them is in both grids *)
    assert (HeY' : fexp (mag Y) = mag Y - prec) by (unfold SpecFloat.fexp in *; lia).
    assert (Hlt : mag X < mag Y) by (unfold SpecFloat.fexp in *; lia).
    pose proof (Z.log2_spec X HX) as [_ HXhi].
    pose proof (Z.log2_spec Y ltac:(lia)) as [HYlo _].
    pose proof (Z.log2_nonneg X) as HlX. pose proof (Z.log2_nonneg Y) as HlY.
    set (P := 2 ^ Z.log2 Y).
    assert (HXP : X <= P).
    { apply Z.lt_le_incl. eapply Z.lt_le_trans; [exact HXhi |].
      unfold P. apply Z.pow_le_mono_r; unfold mag in *; lia. }
    apply Z.le_trans with P.
    + unfold RND.
      assert (HP : P = 2 ^ (Z.log2 Y - (fexp (mag X) + off)) * ulp_of X).
      { unfold P, ulp_of. rewrite <- Z.pow_add_r by (unfold mag in *; lia).
        f_equal. lia. }
      assert (Hc : rne_div X (ulp_of X) <= 2 ^ (Z.log2 Y - (fexp (mag X) + off)))
        by (apply rne_div_le; [apply ulp_of_pos | rewrite <- HP; exact HXP]).
      pose proof (ulp_of_pos X). rewrite HP. nia.
    + unfold RND.
      assert (HP : P = 2 ^ (Z.log2 Y - (fexp (mag Y) + off)) * ulp_of Y).
      { unfold P, ulp_of. rewrite <- Z.pow_add_r by (unfold mag in *; lia).
        f_equal. lia. }
      assert (Hc : 2 ^ (Z.log2 Y - (fexp (mag Y) + off)) <= rne_div Y (ulp_of Y))
        by (apply rne_div_ge; [apply ulp_of_pos | rewrite <- HP; exact HYlo]).
      pose proof (ulp_of_pos Y). rewrite HP. nia.
Qed.

Lemma RNDs_opp (X : Z) : RNDs (- X) = - RNDs X.
Proof.
  unfold RNDs.
  destruct (Z.ltb_spec (- X) 0), (Z.ltb_spec X 0); try lia.
  - rewrite Z.opp_involutive. lia.
  - assert (X = 0) by lia. subst X. cbn. rewrite RND_zero. reflexivity.
Qed.

Lemma RNDs_mono (X Y : Z) : X <= Y -> RNDs X <= RNDs Y.
Proof.
  intros H. unfold RNDs.
  destruct (Z.ltb_spec X 0), (Z.ltb_spec Y 0); try lia.
  - pose proof (RND_mono (- Y) (- X)). lia.
  - pose proof (RND_nonneg (- X)). pose proof (RND_nonneg Y). lia.
  - destruct (Z.eq_dec X 0) as [-> | N].
    + rewrite RND_zero. apply RND_nonneg. lia.
    + apply RND_mono; lia.
Qed.

Lemma cond_Zopp_RND (s : bool) (X : Z) :
  0 <= X -> cond_Zopp s (RND X) = RNDs (cond_Zopp s X).
Proof.
  intros H. destruct s; cbn [cond_Zopp].
  - rewrite RNDs_opp. unfold RNDs. destruct (Z.ltb_spec X 0); [lia | reflexivity].
  - unfold RNDs. destruct (Z.ltb_spec X 0); [lia | reflexivity].
Qed.

(** A value that fits in [prec] digits above the smallest exponent is a
    number of the format: rounding leaves it alone. *)
Lemma RND_format (m : positive) (e : Z) :
  Zpos (digits2_pos m) <= prec -> emin <= e ->
  RND (Zpos m * 2 ^ (e + off)) = Zpos m * 2 ^ (e + off).
Proof.
  intros Hd He. apply RND_exact. unfold ulp_of.
  rewrite mag_scaled by lia.
  set (t := fexp (Zpos (digits2_pos m) + e)).
  assert (Ht : emin <= t <= e) by (unfold t, SpecFloat.fexp; lia).
  replace (e + off) with ((e - t) + (t + off)) by lia.
  rewrite Z.pow_add_r by lia.
  rewrite Z.mul_assoc. apply Z.mod_mul.
  apply Z.pow_nonzero; lia.
Qed.

Lemma RNDs_format (m e : Z) :
  Z.abs m < 2 ^ prec -> emin <= e ->
  RNDs (m * 2 ^ (e + off)) = m * 2 ^ (e + off).
Proof.
  intros Hm He.
  assert (Hp : 0 < 2 ^ (e + off)) by (apply Z.pow_pos_nonneg; lia).
  assert (D : forall p, Zpos p < 2 ^ prec -> Zpos (digits2_pos p) <= prec).
  { intros p Hlt. change (Zpos (digits2_pos p)) with (Zdigits2 (Zpos p)).
    apply Zdigits2_nonneg_le; lia. }
  destruct m as [|p|p].
  - cbn. rewrite RND_zero. reflexivity.
  - unfold RNDs. destruct (Z.ltb_spec (Zpos p * 2 ^ (e + off)) 0); [nia |].
    apply RND_format; [apply D; lia | exact He].
  - unfold RNDs. destruct (Z.ltb_spec (Zneg p * 2 ^ (e + off)) 0); [| nia].
    replace (- (Zneg p * 2 ^ (e + off))) with (Zpos p * 2 ^ (e + off)) by lia.
    rewrite RND_format; [lia | apply D; lia | exact He].
Qed.

Lemma good_canonical (s : bool) (m : positive) (e : Z) :
  good (S754_finite s m e) ->
  fexp (Zpos (digits2_pos m) + e) = e /\ e <= emax - prec.
Proof.
  cbn [good]. unfold bounded, canonical_mantissa. intros H.
  apply andb_prop in H as [H1 H2].
  apply Z.eqb_eq in H1. apply Z.leb_le in H2. split; assumption.
Qed.

Lemma good_exponent (s : bool) (m : positive) (e : Z) :
  good (S754_finite s m e) ->
  emin <= e /\ Zpos (digits2_pos m) <= prec /\ 0 <= e + off.
Proof.
  intros H. apply good_canonical in H as [H _].
  unfold SpecFloat.fexp, SpecFloat.emin in *. lia.
Qed.

Lemma RNDs_good (x : spec_float) : good x -> RNDs (V x) = V x.
Proof.
  intros H. destruct x as [s | s | | s m e]; try (exfalso; exact H).
  - cbn. apply RND_zero.
  - cbn [V]. apply good_exponent in H as (He & Hd & _).
    rewrite <- cond_Zopp_RND.
    + rewrite RND_format by assumption. reflexivity.
    + apply Z.mul_nonneg_nonneg; [lia | apply Z.pow_nonneg; lia].
Qed.

(** Conversion of a finite number of any format to this one. *)
Theorem convert_V (s : bool) (m : positive) (e : Z) :
  0 <= e + off ->
  Zpos m * 2 ^ (e + off) < 2 ^ (emax - 1 + off) ->
  good (binary_round prec emax s m e) /\
  V (binary_round prec emax s m e) = RNDs (V (S754_finite s m e)).
Proof.
  intros He Hlt.
  assert (Hd : Zpos (digits2_pos m) + e <= emax - 1).
  { assert (Hpos : 0 < Zpos m * 2 ^ (e + off))
      by (apply Z.mul_pos_pos; [lia | apply Z.pow_pos_nonneg; lia]).
    apply Z.log2_lt_pow2 in Hlt; [| exact Hpos].
    rewrite Z.log2_mul_pow2 in Hlt by lia.
    change (Zpos (digits2_pos m)) with (Zdigits2 (Zpos m)).
    rewrite Zdigits2_log2. lia. }
  destruct (binary_round_V s m e He Hd) as [G EV].
  split; [exact G |]. rewrite EV. cbn [V]. apply cond_Zopp_RND.
  apply Z.mul_nonneg_nonneg; [lia | apply Z.pow_nonneg; lia].
Qed.

Lemma normalize_V (M e : Z) :
  0 <= e + off ->
  Z.abs M * 2 ^ (e + off) < 2 ^ (emax - 1 + off) ->
  good (binary_normalize prec emax M e false) /\
  V (binary_normalize prec emax M e false) = RNDs (M * 2 ^ (e + off)).
Proof.
  intros He Hlt. destruct M as [|p|p]; cbn [binary_normalize].
  - split; [exact I |]. cbn. rewrite RND_zero. reflexivity.
  - apply (convert_V false p e He Hlt).
  - destruct (convert_V true p e He Hlt) as [G EV]. split; [exact G |].
    rewrite EV. cbn [V cond_Zopp]. f_equal. lia.
Qed.

Lemma shl_align_fst (mx : positive) (ex ez : Z) :
  ez <= ex -> Zpos (fst (shl_align mx ex ez)) = Zpos mx * 2 ^ (ex - ez).
Proof.
  intros H. unfold shl_align.
  destruct (ez - ex) as [|d|d] eqn:E; cbn [fst].
  - replace (ex - ez) with 0 by lia. lia.
  - lia.
  - rewrite iter_xO. f_equal. f_equal. lia.
Qed.

Lemma aligned_value (s : bool) (m : positive) (e ez : Z) :
  ez <= e -> 0 <= ez + off ->
  cond_Zopp s (Zpos (fst (shl_align m e ez))) * 2 ^ (ez + off) =
  V (S754_finite s m e).
Proof.
  intros H1 H2. rewrite shl_align_fst by exact H1. cbn [V].
  replace (e + off) with ((e - ez) + (ez + off)) by lia.
  rewrite (Z.pow_add_r 2 (e - ez) (ez + off)) by lia.
  destruct s; cbn [cond_Zopp]; ring.
Qed.

Theorem SFadd_V (x y : spec_float) :
  good x -> good y ->
  Z.abs (V x + V y) < 2 ^ (emax - 1 + off) ->
  good (SFadd prec emax x y) /\
  V (SFadd prec emax x y) = RNDs (V x + V y).
Proof.
  intros Gx Gy Hlt.
  destruct x as [sx | sx | | sx mx ex]; try (exfalso; exact Gx);
    destruct y as [sy | sy | | sy my ey]; try (exfalso; exact Gy).
  - split; [destruct sx, sy; exact I |].
    cbn [V]. cbn. rewrite RND_zero. destruct sx, sy; reflexivity.
  - cbn [SFadd]. split; [exact Gy |].
    change (V (S754_zero sx)) with 0. rewrite Z.add_0_l. symmetry.
    apply RNDs_good. exact Gy.
  - cbn [SFadd]. split; [exact Gx |].
    change (V (S754_zero sy)) with 0. rewrite Z.add_0_r. symmetry.
    apply RNDs_good. exact Gx.
  - cbn [SFadd].
    pose proof (good_exponent _ _ _ Gx) as (_ & _ & Hx).
    pose proof (good_exponent _ _ _ Gy) as (_ & _ & Hy).
    set (ez := Z.min ex ey).
    assert (Hez : 0 <= ez + off) by (unfold ez; lia).
    assert (Hp : 0 < 2 ^ (ez + off)) by (apply Z.pow_pos_nonneg; lia).
    pose proof (aligned_value sx mx ex ez ltac:(unfold ez; lia) Hez) as Ex.
    pose proof (aligned_value sy my ey ez ltac:(unfold ez; lia) Hez) as Ey.
    set (M := cond_Zopp sx (Zpos (fst (shl_align mx ex ez))) +
              cond_Zopp sy (Zpos (fst (shl_align my ey ez)))).
    assert (EM : M * 2 ^ (ez + off) = V (S754_finite sx mx ex) + V (S754_finite sy my ey))
      by (unfold M; rewrite Z.mul_add_distr_r, Ex, Ey; reflexivity).
    rewrite <- EM. apply normalize_V; [exact Hez |].
    rewrite <- EM in Hlt. rewrite Z.abs_mul in Hlt.
    rewrite (Z.abs_eq (2 ^ (ez + off))) in Hlt by lia. exact Hlt.
Qed.

Lemma good_opp (x : spec_float) : good x -> good (SFopp x).
Proof. destruct x; cbn; auto. Qed.

Lemma V_opp (x : spec_float) : V (SFopp x) = - V x.
Proof. destruct x as [| | |s m e]; cbn [SFopp V]; try lia. destruct s; cbn; lia. Qed.

Theorem SFsub_V (x y : spec_float) :
  good x -> good y ->
  Z.abs (V x - V y) < 2 ^ (emax - 1 + off) ->
  good (SFsub prec emax x y) /\
  V (SFsub prec emax x y) = RNDs (V x - V y).
Proof.
  intros Gx Gy Hlt.
  destruct x as [sx | sx | | sx mx ex]; try (exfalso; exact Gx);
    destruct y as [sy | sy | | sy my ey]; try (exfalso; exact Gy).
  - split; [destruct sx, sy; exact I |].
    cbn [V]. cbn. rewrite RND_zero. destruct sx, sy; reflexivity.
  - cbn [SFsub]. split; [exact Gy |].
    change (V (S754_zero sx)) with 0. rewrite Z.sub_0_l.
    rewrite RNDs_opp, (RNDs_good _ Gy). cbn [V]. destruct sy; cbn; lia.
  - cbn [SFsub]. split; [exact Gx |].
    change (V (S754_zero sy)) with 0. rewrite Z.sub_0_r. symmetry.
    apply RNDs_good. exact Gx.
  - cbn [SFsub].
    pose proof (good_exponent _ _ _ Gx) as (_ & _ & Hx).
    pose proof (good_exponent _ _ _ Gy) as (_ & _ & Hy).
    set (ez := Z.min ex ey).
    assert (Hez : 0 <= ez + off) by (unfold ez; lia).
    assert (Hp : 0 < 2 ^ (ez + off)) by (apply Z.pow_pos_nonneg; lia).
    pose proof (aligned_value sx mx ex ez ltac:(unfold ez; lia) Hez) as Ex.
    pose proof (aligned_value sy my ey ez ltac:(unfold ez; lia) Hez) as Ey.
    set (M := cond_Zopp sx (Zpos (fst (shl_align mx ex ez))) -
              cond_Zopp sy (Zpos (fst (shl_align my ey ez)))).
    assert (EM : M * 2 ^ (ez + off) = V (S754_finite sx mx ex) - V (S754_finite sy my ey))
      by (unfold M; rewrite Z.mul_sub_distr_r, Ex, Ey; reflexivity).
    rewrite <- EM. apply normalize_V; [exact Hez |].
    rewrite <- EM in Hlt. rewrite Z.abs_mul in Hlt.
    rewrite (Z.abs_eq (2 ^ (ez + off))) in Hlt by lia. exact Hlt.
Qed.

(** Comparison of numbers of the format is comparison of their values. *)
Lemma canonical_lt (m1 m2 : positive) (e1 e2 : Z) :
  fexp (Zpos (digits2_pos m1) + e1) = e1 ->
  fexp (Zpos (digits2_pos m2) + e2) = e2 ->
  e1 < e2 ->
  Zpos m1 * 2 ^ (e1 + off) < Zpos m2 * 2 ^ (e2 + off).
Proof.
  intros C1 C2 Hlt.
  pose proof (fexp_ge_emin (Zpos (digits2_pos m1) + e1)) as G1.
  assert (Hd : Zpos (digits2_pos m1) + e1 < Zpos (digits2_pos m2) + e2).
  { destruct (Z.lt_ge_cases (Zpos (digits2_pos m1) + e1) (Zpos (digits2_pos m2) + e2))
      as [H | H]; [exact H |].
    apply fexp_mono in H. lia. }
  pose proof (digits_bounds m1) as [_ H1]. pose proof (digits_bounds m2) as [H2 _].
  assert (P1 : 0 < 2 ^ (e1 + off)) by (apply Z.pow_pos_nonneg; lia).
  assert (P2 : 0 < 2 ^ (e2 + off)) by (apply Z.pow_pos_nonneg; lia).
  assert (0 < Zpos (digits2_pos m2)) by lia.
  apply Z.lt_le_trans with (2 ^ Zpos (digits2_pos m1) * 2 ^ (e1 + off)); [nia |].
  apply Z.le_trans with (2 ^ (Zpos (digits2_pos m2) - 1) * 2 ^ (e2 + off)); [| nia].
  rewrite <- !Z.pow_add_r by lia. apply Z.pow_le_mono_r; lia.
Qed.

Theorem SFltb_V (x y : spec_float) :
  good x -> good y -> SFltb x y = (V x <? V y).
Proof.
  intros Gx Gy.
  destruct x as [sx | sx | | sx mx ex]; try (exfalso; exact Gx);
    destruct y as [sy | sy | | sy my ey]; try (exfalso; exact Gy).
  - reflexivity.
  - pose proof (good_exponent _ _ _ Gy) as (_ & _ & Hy).
    assert (0 < Zpos my * 2 ^ (ey + off))
      by (apply Z.mul_pos_pos; [lia | apply Z.pow_pos_nonneg; lia]).
    unfold SFltb. cbn [SFcompare V]. destruct sy; cbn [cond_Zopp]; symmetry.
    + apply Z.ltb_ge. lia.
    + apply Z.ltb_lt. lia.
  - pose proof (good_exponent _ _ _ Gx) as (_ & _ & Hx).
    assert (0 < Zpos mx * 2 ^ (ex + off))
      by (apply Z.mul_pos_pos; [lia | apply Z.pow_pos_nonneg; lia]).
    unfold SFltb. cbn [SFcompare V]. destruct sx; cbn [cond_Zopp]; symmetry.
    + apply Z.ltb_lt. lia.
    + apply Z.ltb_ge. lia.
  - pose proof (good_exponent _ _ _ Gx) as (_ & _ & Hx).
    pose proof (good_exponent _ _ _ Gy) as (_ & _ & Hy).
    pose proof (good_canonical _ _ _ Gx) as [Cx _].
    pose proof (good_canonical _ _ _ Gy) as [Cy _].
    assert (Px : 0 < Zpos mx * 2 ^ (ex + off))
      by (apply Z.mul_pos_pos; [lia | apply Z.pow_pos_nonneg; lia]).
    assert (Py : 0 < Zpos my * 2 ^ (ey + off))
      by (apply Z.mul_pos_pos; [lia | apply Z.pow_pos_nonneg; lia]).
    assert (Pe : 0 < 2 ^ (ex + off)) by (apply Z.pow_pos_nonneg; lia).
    unfold SFltb. cbn [SFcompare V].
    destruct sx, sy; cbn [cond_Zopp]; symmetry.
    + destruct (Z.compare_spec ex ey) as [E | L | L].
      * subst ey. rewrite Pos.compare_cont_spec. cbn [Pos.switch_Eq].
        destruct (Pos.compare_spec mx my) as [E | L | L]; cbn [CompOpp].
        -- apply Z.ltb_ge. subst. lia.
        -- apply Z.ltb_ge. nia.
        -- apply Z.ltb_lt. nia.
      * apply Z.ltb_ge. pose proof (canonical_lt _ _ _ _ Cx Cy L). lia.
      * apply Z.ltb_lt. pose proof (canonical_lt _ _ _ _ Cy Cx ltac:(lia)). lia.
    + apply Z.ltb_lt. lia.
    + apply Z.ltb_ge. lia.
    + destruct (Z.compare_spec ex ey) as [E | L | L].
      * subst ey. rewrite Pos.compare_cont_spec. cbn [Pos.switch_Eq].
        destruct (Pos.compare_spec mx my) as [E | L | L].
        -- apply Z.ltb_ge. subst. lia.
        -- apply Z.ltb_lt. nia.
        -- apply Z.ltb_ge. nia.
      * apply Z.ltb_lt. apply (canonical_lt _ _ _ _ Cx Cy L).
      * apply Z.ltb_ge. pose proof (canonical_lt _ _ _ _ Cy Cx ltac:(lia)). lia.
Qed.

(** Rounding does not leave an interval bounded by powers of two. *)
Lemma RNDs_bound (X k : Z) :
  emin <= k -> Z.abs X <= 2 ^ (k + off) -> Z.abs (RNDs X) <= 2 ^ (k + off).
Proof.
  intros Hk HX.
  assert (Hone : Z.abs 1 < 2 ^ prec).
  { change (Z.abs 1) with (2 ^ 0). apply Z.pow_lt_mono_r; lia. }
  pose proof (RNDs_format 1 k Hone Hk) as E1.
  pose proof (RNDs_format (-1) k Hone Hk) as E2.
  pose proof (RNDs_mono X (1 * 2 ^ (k + off)) ltac:(lia)) as U1.
  pose proof (RNDs_mono (-1 * 2 ^ (k + off)) X ltac:(lia)) as U2.
  rewrite E1 in U1. rewrite E2 in U2. lia.
Qed.




End Format.

(** ** The two normalisation loops *)

Lemma one_pos : 0 < one.
Proof. unfold one, scale. apply Z.pow_pos_nonneg; lia. Qed.

Lemma pow_one (k : Z) : 0 <= k -> 2 ^ (k + scale) = 2 ^ k * one.
Proof. intros H. unfold one. apply Z.pow_add_r; [exact H | unfold scale; lia]. Qed.

Lemma prec_float : 2 <= 24.
Proof. lia. Qed.
Lemma emax_float : 24 < 128.
Proof. lia. Qed.
Lemma prec_double : 2 <= 53.
Proof. lia. Qed.
Lemma emax_double : 53 < 1024.
Proof. lia. Qed.
Lemma scale_float : 0 <= SpecFloat.emin 24 128 + scale.
Proof. vm_compute. discriminate. Qed.
Lemma scale_double : 0 <= SpecFloat.emin 53 1024 + scale.
Proof. vm_compute. discriminate. Qed.

Lemma round32_mono (X Y : Z) : X <= Y -> round32 X <= round32 Y.
Proof. exact (RNDs_mono 24 128 prec_float scale scale_float X Y). Qed.

Lemma round64_mono (X Y : Z) : X <= Y -> round64 X <= round64 Y.
Proof. exact (RNDs_mono 53 1024 prec_double scale scale_double X Y). Qed.

Lemma round32_float (x : float) : is_float x -> round32 (val x) = val x.
Proof. exact (RNDs_good 24 128 scale scale_float x). Qed.


Lemma round32_opp (X : Z) : round32 (- X) = - round32 X.
Proof. exact (RNDs_opp 24 128 scale scale_float X). Qed.

Lemma round64_opp (X : Z) : round64 (- X) = - round64 X.
Proof. exact (RNDs_opp 53 1024 scale scale_double X). Qed.

Lemma round32_bound (X k : Z) :
  0 <= k -> Z.abs X <= 2 ^ k * one -> Z.abs (round32 X) <= 2 ^ k * one.
Proof.
  intros Hk H. rewrite <- pow_one in * by exact Hk.
  apply (RNDs_bound 24 128 prec_float scale scale_float); [| exact H].
  unfold SpecFloat.emin. lia.
Qed.

Lemma round64_bound (X k : Z) :
  0 <= k -> Z.abs X <= 2 ^ k * one -> Z.abs (round64 X) <= 2 ^ k * one.
Proof.
  intros Hk H. rewrite <- pow_one in * by exact Hk.
  apply (RNDs_bound 53 1024 prec_double scale scale_double); [| exact H].
  unfold SpecFloat.emin. lia.
Qed.

(** A multiple [m * 2^e] of a power of two with a short [m] is a [float],
    and every [float] is a [double]. *)
Lemma round32_short (m e : Z) :
  Z.abs m < 2 ^ 24 -> -149 <= e ->
  round32 (m * 2 ^ (e + scale)) = m * 2 ^ (e + scale).
Proof.
  intros Hm He. apply (RNDs_format 24 128 prec_float scale scale_float); [exact Hm |].
  unfold SpecFloat.emin. lia.
Qed.

Lemma round64_short (m e : Z) :
  Z.abs m < 2 ^ 24 -> -149 <= e ->
  round64 (m * 2 ^ (e + scale)) = m * 2 ^ (e + scale).
Proof.
  intros Hm He. apply (RNDs_format 53 1024 prec_double scale scale_double); [lia |].
  unfold SpecFloat.emin. lia.
Qed.

Lemma float_shape (s : bool) (m : positive) (e : Z) :
  is_float (S754_finite s m e) ->
  e = Z.max (Zpos (digits2_pos m) + e - 24) (-149) /\ e <= 104.
Proof.
  intros H. apply good_canonical in H as [C B].
  unfold SpecFloat.fexp, SpecFloat.emin in C. lia.
Qed.

Lemma val_opp (x : spec_float) : val (SFopp x) = - val x.
Proof. apply V_opp. Qed.

Lemma is_float_opp (x : float) : is_float x -> is_float (SFopp x).
Proof. apply good_opp. Qed.

(** Promotion to [double] is exact. *)
Lemma to_double_val (a : float) :
  is_float a -> is_double (to_double a) /\ val (to_double a) = val a.
Proof.
  intros G. destruct a as [s | s | | s m e]; try (exfalso; exact G).
  - split; [exact I | reflexivity].
  - pose proof (float_shape _ _ _ G) as [C B].
    pose proof (digits_bounds m) as [_ Hm].
    assert (Hd : Zpos (digits2_pos m) <= 24) by lia.
    assert (Hm' : Zpos m < 2 ^ 24).
    { eapply Z.lt_le_trans; [exact Hm |]. apply Z.pow_le_mono_r; lia. }
    assert (He : 0 <= e + scale) by (unfold scale; lia).
    cbn [to_double].
    destruct (convert_V 53 1024 prec_double emax_double scale scale_double s m e He) as [G' E].
    { apply Z.lt_le_trans with (2 ^ 24 * 2 ^ (e + scale)).
      - apply Z.mul_lt_mono_pos_r; [apply Z.pow_pos_nonneg; lia | exact Hm'].
      - rewrite <- Z.pow_add_r by lia. apply Z.pow_le_mono_r; unfold scale; lia. }
    split; [exact G' |]. unfold val. rewrite E.
    cbn [Round.V]. destruct s; cbn [cond_Zopp].
    + replace (- (Zpos m * 2 ^ (e + scale))) with ((- Zpos m) * 2 ^ (e + scale)) by ring.
      apply round64_short; lia.
    + apply round64_short; lia.
Qed.

(** Conversion of a [double] in the range of [float] rounds its value. *)
Lemma to_float_val (x : double) :
  is_double x -> Z.abs (val x) < 2 ^ 127 * one ->
  is_float (to_float x) /\ val (to_float x) = round32 (val x).
Proof.
  intros G Hlt. destruct x as [s | s | | s m e]; try (exfalso; exact G).
  - split; [exact I |]. symmetry. apply (round32_float (S754_zero s)). exact I.
  - pose proof (good_exponent 53 1024 scale scale_double s m e G) as (_ & _ & He).
    cbn [to_float].
    apply (convert_V 24 128 prec_float emax_float scale scale_float s m e He).
    change (128 - 1 + scale) with (127 + scale). rewrite (pow_one 127) by lia.
    unfold val in Hlt. cbn [Round.V] in Hlt.
    assert (0 < Zpos m * 2 ^ (e + scale))
      by (apply Z.mul_pos_pos; [lia | apply Z.pow_pos_nonneg; lia]).
    destruct s; cbn [cond_Zopp] in Hlt; lia.
Qed.

Lemma dsub_val (x y : double) :
  is_double x -> is_double y -> Z.abs (val x - val y) < 2 ^ 1023 * one ->
  is_double (dsub x y) /\ val (dsub x y) = round64 (val x - val y).
Proof.
  intros Gx Gy H. apply (SFsub_V 53 1024 prec_double emax_double scale scale_double x y Gx Gy).
  change (1024 - 1 + scale) with (1023 + scale). rewrite (pow_one 1023) by lia. exact H.
Qed.

Lemma dadd_val (x y : double) :
  is_double x -> is_double y -> Z.abs (val x + val y) < 2 ^ 1023 * one ->
  is_double (dadd x y) /\ val (dadd x y) = round64 (val x + val y).
Proof.
  intros Gx Gy H. apply (SFadd_V 53 1024 prec_double emax_double scale scale_double x y Gx Gy).
  change (1024 - 1 + scale) with (1023 + scale). rewrite (pow_one 1023) by lia. exact H.
Qed.

Lemma fsub_val (x y : float) :
  is_float x -> is_float y -> Z.abs (val x - val y) < 2 ^ 127 * one ->
  is_float (fsub x y) /\ val (fsub x y) = round32 (val x - val y).
Proof.
  intros Gx Gy H. apply (SFsub_V 24 128 prec_float emax_float scale scale_float x y Gx Gy).
  change (128 - 1 + scale) with (127 + scale). rewrite (pow_one 127) by lia. exact H.
Qed.

Lemma flt_val (x y : double) :
  is_double x -> is_double y -> flt x y = (val x <? val y).
Proof. exact (SFltb_V 53 1024 prec_double scale scale_double x y). Qed.

Lemma M_PI_double : is_double M_PI.
Proof. vm_compute. reflexivity. Qed.

Lemma two_pi_double : is_double two_pi.
Proof. vm_compute. reflexivity. Qed.

Lemma val_two_pi : val two_pi = 2 * val M_PI.
Proof. vm_compute. reflexivity. Qed.

Lemma pi_bounds : 3 * one < val M_PI < 4 * one.
Proof. split; vm_compute; reflexivity. Qed.

Lemma val_opp_pi : val (SFopp M_PI) = - val M_PI.
Proof. apply val_opp. Qed.

Lemma pow_1023 : 2 ^ 27 <= 2 ^ 1023.
Proof. apply Z.pow_le_mono_r; lia. Qed.

Lemma pow_127 : 2 ^ 27 <= 2 ^ 127.
Proof. apply Z.pow_le_mono_r; lia. Qed.

Lemma fgt_pi (a : float) :
  is_float a -> fgt (to_double a) M_PI = (val M_PI <? val a).
Proof.
  intros G. destruct (to_double_val a G) as [G' E].
  unfold fgt. change (SFltb M_PI (to_double a)) with (flt M_PI (to_double a)).
  rewrite (flt_val _ _ M_PI_double G'), E. reflexivity.
Qed.

Lemma flt_pi (a : float) :
  is_float a -> flt (to_double a) (SFopp M_PI) = (val a <? - val M_PI).
Proof.
  intros G. destruct (to_double_val a G) as [G' E].
  rewrite (flt_val _ _ G' (good_opp 53 1024 _ M_PI_double)), E, val_opp_pi.
  reflexivity.
Qed.

Lemma stepDown_val (a : float) :
  is_float a -> Z.abs (val a) <= 2 ^ 25 * one ->
  is_float (stepDown a) /\
  val (stepDown a) = round32 (round64 (val a - 2 * val M_PI)).
Proof.
  intros G B. destruct (to_double_val a G) as [G' E].
  pose proof one_pos as HU. pose proof pi_bounds as HP.
  pose proof pow_1023 as H1. pose proof pow_127 as H2.
  assert (P26 : 2 ^ 26 * one < 2 ^ 27 * one) by lia.
  destruct (dsub_val (to_double a) two_pi G' two_pi_double) as [G2 E2].
  { rewrite E, val_two_pi. nia. }
  rewrite E, val_two_pi in E2.
  assert (B2 : Z.abs (val (dsub (to_double a) two_pi)) <= 2 ^ 26 * one).
  { rewrite E2. apply round64_bound; lia. }
  destruct (to_float_val _ G2) as [G3 E3]; [nia |].
  unfold stepDown. split; [exact G3 |]. rewrite E3, E2. reflexivity.
Qed.

Lemma stepUp_val (a : float) :
  is_float a -> Z.abs (val a) <= 2 ^ 25 * one ->
  is_float (stepUp a) /\
  val (stepUp a) = round32 (round64 (val a + 2 * val M_PI)).
Proof.
  intros G B. destruct (to_double_val a G) as [G' E].
  pose proof one_pos as HU. pose proof pi_bounds as HP.
  pose proof pow_1023 as H1. pose proof pow_127 as H2.
  assert (P26 : 2 ^ 26 * one < 2 ^ 27 * one) by lia.
  destruct (dadd_val (to_double a) two_pi G' two_pi_double) as [G2 E2].
  { rewrite E, val_two_pi. nia. }
  rewrite E, val_two_pi in E2.
  assert (B2 : Z.abs (val (dadd (to_double a) two_pi)) <= 2 ^ 26 * one).
  { rewrite E2. apply round64_bound; lia. }
  destruct (to_float_val _ G2) as [G3 E3]; [nia |].
  unfold stepUp. split; [exact G3 |]. rewrite E3, E2. reflexivity.
Qed.

(** Four below a [float] between 2 and [2^25] is a [float] again. *)
Lemma four_below (a : float) :
  is_float a -> 2 * one < val a -> val a <= 2 ^ 25 * one ->
  round32 (val a - 4 * one) = val a - 4 * one /\
  round64 (val a - 4 * one) = val a - 4 * one.
Proof.
  intros G Lo Hi. pose proof one_pos as HU.
  destruct a as [s | s | | s m e]; try (exfalso; exact G).
  - unfold val in Lo. cbn [Round.V] in Lo. lia.
  - pose proof (float_shape _ _ _ G) as [C _].
    pose proof (digits_bounds m) as [Dlo Dhi].
    set (d := Zpos (digits2_pos m)) in *.
    assert (Hd : 0 < d) by (unfold d; lia).
    assert (He : 0 <= e + scale) by (unfold scale; lia).
    assert (Pe : 0 < 2 ^ (e + scale)) by (apply Z.pow_pos_nonneg; lia).
    unfold val in *. cbn [Round.V] in *.
    destruct s; cbn [cond_Zopp] in *; [nia |].
    assert (L : 1 < d + e).
    { assert (H : 2 ^ (1 + scale) < 2 ^ (d + e + scale)).
      { rewrite (pow_one 1) by lia.
        replace (d + e + scale) with (d + (e + scale)) by lia.
        rewrite Z.pow_add_r by lia. change (2 ^ 1) with 2. nia. }
      apply Z.pow_lt_mono_r_iff in H; unfold scale in *; lia. }
    assert (U : d + e <= 26).
    { assert (H : 2 ^ (d - 1 + e + scale) <= 2 ^ (25 + scale)).
      { rewrite (pow_one 25) by lia.
        replace (d - 1 + e + scale) with ((d - 1) + (e + scale)) by lia.
        rewrite Z.pow_add_r by lia. nia. }
      apply Z.pow_le_mono_r_iff in H; unfold scale in *; lia. }
    assert (E4 : 4 * one = 2 ^ (2 - e) * 2 ^ (e + scale)).
    { rewrite <- Z.pow_add_r by lia. replace (2 - e + (e + scale)) with (2 + scale) by lia.
      rewrite (pow_one 2) by lia. reflexivity. }
    assert (K1 : 2 ^ 0 <= 2 ^ (2 - e)) by (apply Z.pow_le_mono_r; lia).
    assert (K2 : 2 ^ (2 - e) <= 2 ^ 24) by (apply Z.pow_le_mono_r; lia).
    assert (M : Zpos m < 2 ^ 24).
    { eapply Z.lt_le_trans; [exact Dhi |]. apply Z.pow_le_mono_r; lia. }
    rewrite E4.
    replace (Zpos m * 2 ^ (e + scale) - 2 ^ (2 - e) * 2 ^ (e + scale))
      with ((Zpos m - 2 ^ (2 - e)) * 2 ^ (e + scale)) by ring.
    change (2 ^ 0) with 1 in K1.
    split; [apply round32_short | apply round64_short]; lia.
Qed.

Lemma stepDown_decreases (a : float) :
  is_float a -> val M_PI < val a -> val a <= 2 ^ 25 * one ->
  val (stepDown a) <= val a - 4 * one.
Proof.
  intros G Lo Hi. pose proof one_pos as HU. pose proof pi_bounds as HP.
  destruct (stepDown_val a G ltac:(lia)) as [_ E]. rewrite E.
  destruct (four_below a G ltac:(lia) Hi) as [E32 E64].
  rewrite <- E32 at 1. apply round32_mono.
  rewrite <- E64 at 1. apply round64_mono. lia.
Qed.

Lemma stepUp_increases (a : float) :
  is_float a -> val a < - val M_PI -> - (2 ^ 25 * one) <= val a ->
  val a + 4 * one <= val (stepUp a).
Proof.
  intros G Hi Lo. pose proof one_pos as HU. pose proof pi_bounds as HP.
  destruct (stepUp_val a G ltac:(lia)) as [_ E]. rewrite E.
  destruct (four_below (SFopp a) (is_float_opp a G)) as [E32 E64];
    try (rewrite val_opp; lia).
  rewrite val_opp in E32, E64.
  assert (F32 : round32 (val a + 4 * one) = val a + 4 * one).
  { replace (val a + 4 * one) with (- (- val a - 4 * one)) by lia.
    rewrite round32_opp, E32. reflexivity. }
  assert (F64 : round64 (val a + 4 * one) = val a + 4 * one).
  { replace (val a + 4 * one) with (- (- val a - 4 * one)) by lia.
    rewrite round64_opp, E64. reflexivity. }
  rewrite <- F32 at 1. apply round32_mono.
  rewrite <- F64 at 1. apply round64_mono. lia.
Qed.

(** The [float] nearest to [M_PI] is above it, so a [float] beyond [M_PI] is
    at least that one; one pass from there lands inside the interval. *)
Lemma nearest_pi_float : is_float (to_float M_PI).
Proof. vm_compute. reflexivity. Qed.

Lemma nearest_pi_val : val (to_float M_PI) = round32 (val M_PI).
Proof.
  apply to_float_val; [exact M_PI_double |].
  pose proof pi_bounds. pose proof one_pos. pose proof pow_127. nia.
Qed.

Lemma stepDown_nearest_pi : - val M_PI <= val (stepDown (to_float M_PI)).
Proof. vm_compute. discriminate. Qed.

Lemma stepUp_nearest_pi : val (stepUp (SFopp (to_float M_PI))) <= val M_PI.
Proof. vm_compute. discriminate. Qed.

Lemma nearest_pi_small : val (to_float M_PI) <= 2 ^ 25 * one.
Proof. vm_compute. discriminate. Qed.

Lemma stepDown_above (a : float) :
  is_float a -> val M_PI < val a -> val a <= 2 ^ 25 * one ->
  - val M_PI <= val (stepDown a).
Proof.
  intros G Lo Hi. pose proof one_pos as HU. pose proof pi_bounds as HP.
  assert (Q : val (to_float M_PI) <= val a).
  { rewrite nearest_pi_val, <- (round32_float a G). apply round32_mono. lia. }
  assert (Q0 : 0 <= val (to_float M_PI)).
  { rewrite nearest_pi_val.
    change 0 with (val (S754_zero false)).
    rewrite <- (round32_float (S754_zero false) I). apply round32_mono.
    change (val (S754_zero false)) with 0. lia. }
  destruct (stepDown_val a G ltac:(lia)) as [_ E].
  destruct (stepDown_val (to_float M_PI) nearest_pi_float ltac:(lia)) as [_ E'].
  eapply Z.le_trans; [exact stepDown_nearest_pi |].
  rewrite E, E'. apply round32_mono, round64_mono. lia.
Qed.

Lemma stepUp_below (a : float) :
  is_float a -> val a < - val M_PI -> - (2 ^ 25 * one) <= val a ->
  val (stepUp a) <= val M_PI.
Proof.
  intros G Hi Lo. pose proof one_pos as HU. pose proof pi_bounds as HP.
  assert (Q : val a <= val (SFopp (to_float M_PI))).
  { rewrite val_opp, nearest_pi_val, <- round32_opp, <- (round32_float a G).
    apply round32_mono. lia. }
  assert (Q0 : 0 <= val (to_float M_PI)).
  { rewrite nearest_pi_val.
    change 0 with (val (S754_zero false)).
    rewrite <- (round32_float (S754_zero false) I). apply round32_mono.
    change (val (S754_zero false)) with 0. lia. }
  pose proof nearest_pi_small as Qs.
  destruct (stepUp_val a G ltac:(lia)) as [_ E].
  destruct (stepUp_val (SFopp (to_float M_PI)) (is_float_opp _ nearest_pi_float))
    as [_ E']; [rewrite val_opp; lia |].
  eapply Z.le_trans; [| exact stepUp_nearest_pi].
  rewrite E, E'. apply round32_mono, round64_mono. lia.
Qed.

Lemma wrapDown_exit (fuel : nat) (a : float) :
  is_float a -> val a <= val M_PI -> wrapDown fuel a = Done a.
Proof.
  intros G H. destruct fuel; cbn [wrapDown]; rewrite (fgt_pi a G);
    destruct (Z.ltb_spec (val M_PI) (val a)); try lia; reflexivity.
Qed.

Lemma wrapDown_pass (fuel : nat) (a : float) :
  is_float a -> val M_PI < val a -> wrapDown (S fuel) a = wrapDown fuel (stepDown a).
Proof.
  intros G H. cbn [wrapDown]. rewrite (fgt_pi a G).
  destruct (Z.ltb_spec (val M_PI) (val a)); [reflexivity | lia].
Qed.

Lemma wrapUp_exit (fuel : nat) (a : float) :
  is_float a -> - val M_PI <= val a -> wrapUp fuel a = Done a.
Proof.
  intros G H. destruct fuel; cbn [wrapUp]; rewrite (flt_pi a G);
    destruct (Z.ltb_spec (val a) (- val M_PI)); try lia; reflexivity.
Qed.

Lemma wrapUp_pass (fuel : nat) (a : float) :
  is_float a -> val a < - val M_PI -> wrapUp (S fuel) a = wrapUp fuel (stepUp a).
Proof.
  intros G H. cbn [wrapUp]. rewrite (flt_pi a G).
  destruct (Z.ltb_spec (val a) (- val M_PI)); [reflexivity | lia].
Qed.

(** The first loop ends after at most [n] passes when the angle is at most
    [M_PI + 4 n]. *)
Lemma wrapDown_terminates (n : nat) :
  forall a : float,
    is_float a -> Z.abs (val a) <= 2 ^ 25 * one ->
    val a <= val M_PI + Z.of_nat n * (4 * one) ->
    exists r : float,
      (forall fuel, (n <= fuel)%nat -> wrapDown fuel a = Done r) /\
      is_float r /\ val r <= val M_PI /\
      (r = a \/ - val M_PI <= val r) /\
      (val a <= val M_PI -> r = a).
Proof.
  pose proof one_pos as HU. pose proof pi_bounds as HP.
  induction n as [| n IH]; intros a G B H.
  - exists a. split; [| split; [| split; [| split]]].
    + intros fuel _. apply wrapDown_exit; [exact G | lia].
    + exact G.
    + lia.
    + left. reflexivity.
    + reflexivity.
  - destruct (Z.le_gt_cases (val a) (val M_PI)) as [Le | Gt].
    + exists a. split; [| split; [| split; [| split]]].
      * intros fuel _. apply wrapDown_exit; assumption.
      * exact G.
      * exact Le.
      * left. reflexivity.
      * reflexivity.
    + pose proof (stepDown_decreases a G Gt ltac:(lia)) as D.
      pose proof (stepDown_above a G Gt ltac:(lia)) as A.
      destruct (stepDown_val a G B) as [G' _].
      destruct (IH (stepDown a) G' ltac:(lia) ltac:(lia)) as (r & R1 & R2 & R3 & R4 & _).
      exists r. split; [| split; [| split; [| split]]].
      * intros [| fuel] Hf; [lia |].
        rewrite (wrapDown_pass fuel a G Gt). apply R1. lia.
      * exact R2.
      * exact R3.
      * right. destruct R4 as [-> | R4]; [exact A | exact R4].
      * intros Le. lia.
Qed.

Lemma wrapUp_terminates (n : nat) :
  forall a : float,
    is_float a -> Z.abs (val a) <= 2 ^ 25 * one ->
    - val M_PI - Z.of_nat n * (4 * one) <= val a ->
    exists r : float,
      (forall fuel, (n <= fuel)%nat -> wrapUp fuel a = Done r) /\
      is_float r /\ - val M_PI <= val r /\
      (r = a \/ val r <= val M_PI) /\
      (- val M_PI <= val a -> r = a).
Proof.
  pose proof one_pos as HU. pose proof pi_bounds as HP.
  induction n as [| n IH]; intros a G B H.
  - exists a. split; [| split; [| split; [| split]]].
    + intros fuel _. apply wrapUp_exit; [exact G | lia].
    + exact G.
    + lia.
    + left. reflexivity.
    + reflexivity.
  - destruct (Z.le_gt_cases (- val M_PI) (val a)) as [Le | Gt].
    + exists a. split; [| split; [| split; [| split]]].
      * intros fuel _. apply wrapUp_exit; assumption.
      * exact G.
      * exact Le.
      * left. reflexivity.
      * reflexivity.
    + pose proof (stepUp_increases a G Gt ltac:(lia)) as D.
      pose proof (stepUp_below a G Gt ltac:(lia)) as A.
      destruct (stepUp_val a G B) as [G' _].
      destruct (IH (stepUp a) G' ltac:(lia) ltac:(lia)) as (r & R1 & R2 & R3 & R4 & _).
      exists r. split; [| split; [| split; [| split]]].
      * intros [| fuel] Hf; [lia |].
        rewrite (wrapUp_pass fuel a G Gt). apply R1. lia.
      * exact R2.
      * exact R3.
      * right. destruct R4 as [-> | R4]; [exact A | exact R4].
      * intros Le. lia.
Qed.

Lemma passes_enough (d : float) :
  Z.abs (val d) <= Z.of_nat (passes d) * (4 * one).
Proof.
  pose proof one_pos as HU. unfold passes.
  pose proof (Z.div_mod (Z.abs (val d)) (4 * one) ltac:(lia)) as E.
  pose proof (Z.mod_pos_bound (Z.abs (val d)) (4 * one) ltac:(lia)) as M.
  assert (0 <= Z.abs (val d) / (4 * one)) by (apply Z.div_pos; lia).
  rewrite Z2Nat.id by lia. lia.
Qed.

Lemma shortestAngle_val (d : float) :
  is_float d -> Z.abs (val d) <= 2 ^ 25 * one ->
  exists a : float,
    (forall fuel, (passes d <= fuel)%nat -> shortestAngle fuel d = Done a) /\
    is_float a /\
    - val M_PI <= val a <= val M_PI /\
    (- val M_PI <= val d <= val M_PI -> a = d).
Proof.
  intros G B. pose proof one_pos as HU. pose proof pi_bounds as HP.
  pose proof (passes_enough d) as HN.
  destruct (wrapDown_terminates (passes d) d G B ltac:(lia))
    as (r & R1 & R2 & R3 & R4 & R5).
  assert (Br : Z.abs (val r) <= 2 ^ 25 * one)
    by (destruct R4 as [-> | R4]; [exact B | lia]).
  assert (Nr : - val M_PI - Z.of_nat (passes d) * (4 * one) <= val r)
    by (destruct R4 as [-> | R4]; lia).
  destruct (wrapUp_terminates (passes d) r R2 Br Nr)
    as (a & A1 & A2 & A3 & A4 & A5).
  exists a. split; [| split; [| split; [split |]]].
  - intros fuel Hf. unfold shortestAngle. rewrite (R1 fuel Hf). cbn [bind].
    apply A1. exact Hf.
  - exact A2.
  - exact A3.
  - destruct A4 as [-> | A4]; [exact R3 | exact A4].
  - intros [L U]. specialize (R5 U). subst r. apply A5. exact L.
Qed.

(** *** A difference within one turn of the interval *)










(** ** Exact values and the integer scale *)

Lemma F2Q_scaled (x : spec_float) :
  (forall s m e, x = S754_finite s m e -> - scale <= e) ->
  (F2Q x * inject_Z one == inject_Z (val x))%Q.
Proof.
  intros H. destruct x as [s | s | | s m e]; try apply Qmult_0_l.
  specialize (H s m e eq_refl).
  assert (C : forall K, cond_Zopp s (Zpos m * K) = cond_Zopp s (Zpos m) * K)
    by (intros K; destruct s; cbn [cond_Zopp]; ring).
  unfold val. cbn [Round.V]. rewrite C.
  set (c := cond_Zopp s (Zpos m)).
  assert (Hs : 0 <= scale) by (unfold scale; lia).
  unfold F2Q. fold c. destruct e as [| p | p].
  - rewrite <- inject_Z_mult. rewrite Z.add_0_l. reflexivity.
  - rewrite <- inject_Z_mult. rewrite Z.pow_add_r by lia.
    unfold one. rewrite Z.mul_assoc. reflexivity.
  - unfold Qeq, Qmult, inject_Z. cbn [Qnum Qden].
    rewrite Pos.mul_1_r, Z.mul_1_r, Pos2Z.inj_pow.
    unfold one. replace scale with ((Zneg p + scale) + Zpos p) at 1 by lia.
    rewrite Z.pow_add_r by lia. ring.
Qed.

Lemma F2Q_float (x : float) :
  is_float x -> (F2Q x * inject_Z one == inject_Z (val x))%Q.
Proof.
  intros G. apply F2Q_scaled. intros s m e ->.
  apply float_shape in G. unfold scale. lia.
Qed.


Lemma scaled_le (q r : Q) (v w : Z) :
  (q * inject_Z one == inject_Z v)%Q -> (r * inject_Z one == inject_Z w)%Q ->
  ((q <= r)%Q <-> v <= w).
Proof.
  intros Hq Hr.
  assert (P : (0 < inject_Z one)%Q).
  { change 0%Q with (inject_Z 0). rewrite <- Zlt_Qlt. exact one_pos. }
  split; intros H.
  - rewrite Zle_Qle, <- Hq, <- Hr.
    apply Qmult_le_compat_r; [exact H | apply Qlt_le_weak; exact P].
  - apply (Qmult_lt_0_le_reg_r _ _ (inject_Z one) P).
    rewrite Hq, Hr, <- Zle_Qle. exact H.
Qed.

Lemma scaled_opp (q : Q) (v : Z) :
  (q * inject_Z one == inject_Z v)%Q -> (- q * inject_Z one == inject_Z (- v))%Q.
Proof. intros H. rewrite inject_Z_opp, <- H. ring. Qed.

Lemma scaled_Z (k : Z) : (inject_Z k * inject_Z one == inject_Z (k * one))%Q.
Proof. rewrite inject_Z_mult. reflexivity. Qed.






(** ** C2: the shortest angle difference *)




(** ** modulus *)

(** X1.  For every [int] [x] and every positive [int] [y], [modulus x y] is
    defined and is the residue of [x] modulo [y]: the number between 0 and
    [y - 1] that differs from [x] by a multiple of [y], also when [x] is
    negative, where [x % y] would be negative or zero.  For [y = 0] it is
    undefined for every [x]. *)
Theorem modulus_residue (x y : Z) :
  in_long x = true -> in_long y = true ->
  (0 < y ->
   modulus x y = Done (x mod y) /\
   0 <= x mod y < y /\ exists k : Z, x = k * y + x mod y) /\
  (y = 0 -> modulus x y = Undefined).
Proof.
  unfold in_long, LONG_MIN, LONG_MAX. intros Hx Hy.
  apply andb_prop in Hx as [Hx1 Hx2]. apply andb_prop in Hy as [Hy1 Hy2].
  apply Z.leb_le in Hx1, Hx2, Hy1, Hy2.
  split.
  - intros Hpos.
    pose proof (Z.mod_pos_bound x y Hpos) as Hm.
    split; [| split; [exact Hm | exists (x / y); pose proof (Z.div_mod x y); lia]].
    unfold modulus. destruct (Z.ltb_spec x 0) as [Hneg | Hnn].
    + unfold int_add at 1, in_long, LONG_MIN, LONG_MAX.
      destruct (Z.leb_spec (- 2 ^ 31) (x + 1)); [| lia].
      destruct (Z.leb_spec (x + 1) (2 ^ 31 - 1)); [| lia].
      cbn [andb bind]. unfold int_rem.
      destruct (Z.eqb_spec y 0); [lia |].
      destruct (Z.eqb_spec y (-1)); [lia |]. rewrite andb_false_r. cbn [bind].
      (* the truncating remainder of a number that is not positive *)
      assert (R : Z.rem (x + 1) y = - ((- (x + 1)) mod y)).
      { rewrite <- (Z.opp_involutive (x + 1)) at 1.
        rewrite Z.rem_opp_l by lia. rewrite Z.rem_mod_nonneg by lia. reflexivity. }
      pose proof (Z.mod_pos_bound (- (x + 1)) y Hpos) as Hr.
      pose proof (Z.div_mod (- (x + 1)) y ltac:(lia)) as Hd.
      assert (M : x mod y = y - 1 - (- (x + 1)) mod y).
      { symmetry. apply (Z.mod_unique x y (- (- (x + 1) / y) - 1)); [lia |]. lia. }
      rewrite R.
      unfold int_add, in_long, LONG_MIN, LONG_MAX.
      destruct (Z.leb_spec (- 2 ^ 31) (- ((- (x + 1)) mod y) + y)); [| lia].
      destruct (Z.leb_spec (- ((- (x + 1)) mod y) + y) (2 ^ 31 - 1)); [| lia].
      cbn [andb bind]. unfold int_sub, in_long, LONG_MIN, LONG_MAX.
      destruct (Z.leb_spec (- 2 ^ 31) (- ((- (x + 1)) mod y) + y - 1)); [| lia].
      destruct (Z.leb_spec (- ((- (x + 1)) mod y) + y - 1) (2 ^ 31 - 1)); [| lia].
      cbn [andb]. f_equal. lia.
    + unfold int_rem. destruct (Z.eqb_spec y 0); [lia |].
      destruct (Z.eqb_spec y (-1)); [lia |]. rewrite andb_false_r.
      rewrite Z.rem_mod_nonneg by lia. reflexivity.
  - intros ->. unfold modulus. destruct (x <? 0).
    + unfold int_add. destruct (in_long (x + 1)); reflexivity.
    + reflexivity.
Qed.

Lemma modulus_residue_witness :
  modulus (-7) 3 = Done 2 /\ modulus 7 3 = Done 1 /\ modulus (-7) 0 = Undefined.
Proof.
  destruct (modulus_residue (-7) 3 eq_refl eq_refl) as [P _].
  destruct (modulus_residue 7 3 eq_refl eq_refl) as [Q _].
  destruct (modulus_residue (-7) 0 eq_refl eq_refl) as [_ Z0].
  split; [exact (proj1 (P eq_refl)) |]. split; [exact (proj1 (Q eq_refl)) |].
  exact (Z0 eq_refl).
Defined.

(** ** The protocol: acknowledgments and what stays invariant *)

Lemma find_suffix (c : ascii) :
  forall (s : string) (n : nat),
    String.eqb (sdrop n s) (String c EmptyString) = true -> find c s <> None.
Proof.
  induction s as [| a s IH]; intros n H.
  - destruct n; discriminate.
  - cbn [find]. destruct (Ascii.eqb a c) eqn:E; [discriminate |].
    destruct n as [| n].
    + cbn [sdrop] in H. cbn [String.eqb] in H. rewrite E in H. discriminate.
    + cbn [sdrop] in H. specialize (IH n H).
      destruct (find c s); [discriminate | congruence].
Qed.

Lemma indexOf_terminated (input : string) :
  endsWith input ";" = true -> 0 <= indexOfFrom ";" input 0.
Proof.
  unfold endsWith, indexOfFrom. change (to_unsigned 0) with 0.
  change (strlen ";") with 1.
  destruct (Z.ltb_spec (strlen input) 1) as [| L]; [discriminate |].
  intros H. destruct (Z.leb_spec (strlen input) 0) as [| _]; [lia |].
  cbn [Z.to_nat sdrop]. apply find_suffix in H.
  destruct (find ";" input) as [k |]; [lia | congruence].
Qed.

Section Protocol.

Variable toFloat : string -> float.

Lemma fillBuffer_grows (n : nat) :
  forall (input : string) (pairIndex startIdx : Z) (buf : list (float * float)),
    pairIndex <= fst (fillBuffer toFloat n input pairIndex startIdx buf).
Proof.
  induction n as [| n IH]; intros input pairIndex startIdx buf; cbn [fillBuffer].
  - cbn [fst]. lia.
  - destruct (pairIndex <? BUFFER_SIZE); [| cbn [fst]; lia].
    destruct (indexOfFrom ";" input startIdx =? -1); [cbn [fst]; lia |].
    eapply Z.le_trans; [| apply IH]. lia.
Qed.

Lemma fillBuffer_first (n : nat) (input : string) (buf : list (float * float)) :
  endsWith input ";" = true ->
  0 < fst (fillBuffer toFloat (S n) input 0 0 buf).
Proof.
  intros H. cbn [fillBuffer]. change (0 <? BUFFER_SIZE) with true. cbv iota.
  pose proof (indexOf_terminated input H) as Hi.
  destruct (Z.eqb_spec (indexOfFrom ";" input 0) (-1)) as [C | _]; [lia |].
  eapply Z.lt_le_trans; [| apply fillBuffer_grows]. lia.
Qed.

Lemma readBatch_fills (input : string) (s : State) :
  endsWith input ";" = true ->
  batchComplete (readBatch toFloat input s) = true /\
  0 < bufferCount (readBatch toFloat input s) /\
  totalRevolutions (readBatch toFloat input s) = totalRevolutions s /\
  serialOut (readBatch toFloat input s) = serialOut s.
Proof.
  intros H. unfold readBatch.
  pose proof (fillBuffer_first 9 input (buffer s) H) as F.
  change (S 9) with (Z.to_nat BUFFER_SIZE) in F.
  destruct (fillBuffer toFloat (Z.to_nat BUFFER_SIZE) input 0 0 (buffer s))
    as [p buf].
  cbn [batchComplete bufferCount totalRevolutions serialOut set_batch].
  repeat split. exact F.
Qed.

Lemma processBatch_done (fuel : nat) (s s' : State) :
  batchComplete s = true -> 0 < bufferCount s ->
  processBatch fuel s = Done s' ->
  serialOut s' = serialOut s ++ ["R"%string] /\
  batchComplete s' = false /\ bufferCount s' = 0 /\
  isFirstCoordinates s' = false.
Proof.
  intros Hc Hn H. rewrite (processBatch_executeBatch fuel s Hc Hn) in H.
  apply bind_Done in H. destruct H as (s1 & H1 & H). inversion H; subst s'; clear H.
  apply executeBatch_frame in H1. destruct H1 as (O & _ & _ & F).
  cbn [serialOut batchComplete bufferCount isFirstCoordinates finishBatch println
       set_batch upd_inOutStepper upd_rotStepper].
  rewrite O. repeat split. apply F.
  destruct (Z.to_nat (bufferCount s)) as [| n] eqn:En; [lia |].
  unfold slice. cbn [seq map]. discriminate.
Qed.

(** Between passes of [loop] no batch is pending. *)
Lemma loop_clears_batch (fuel : nat) (available : option string) (s s' : State) :
  loop toFloat fuel available s = Done s' ->
  batchComplete s = false -> bufferCount s = 0 ->
  batchComplete s' = false /\ bufferCount s' = 0.
Proof.
  intros H Hb Hn. destruct available as [input |].
  - unfold loop in H.
    destruct (String.eqb input "HOME") eqn:H1;
      destruct (String.eqb input "RESET_THETA") eqn:H2;
      destruct (startsWith input "SET_SPEED") eqn:H3;
      destruct (endsWith input ";") eqn:H4; cbn [negb andb] in H;
      try (destruct (negb (indexOf " " input =? -1));
           [destruct (fgt _ (float_of_Z 0)) |]; inversion H; split; assumption);
      try (inversion H; split; assumption);
      try (unfold homing in H; apply bind_Done in H; destruct H as (st & _ & H);
           inversion H; split; assumption);
      try (apply bind_Done in H; destruct H as (s1 & S1 & H); inversion H; subst s'; clear H;
           unfold resetTheta in S1; apply bind_Done in S1; destruct S1 as (p & _ & S1);
           inversion S1; split; assumption).
    rewrite Hb in H. cbn [negb] in H.
    destruct (readBatch_fills input s H4) as (Rc & Rn & _ & _).
    destruct (processBatch_done fuel _ s' Rc Rn H) as (_ & C & N & _).
    split; assumption.
  - cbn [loop] in H. unfold processBatch in H. rewrite Hb in H. cbn [andb] in H.
    inversion H; subst. split; assumption.
Qed.




(** X3.  In every state the firmware reaches, from [setup] through any
    passes of [loop], [totalRevolutions] is zero, the speed limit of the
    radial axis is positive, and no batch is pending: the buffer is empty,
    and a pass of [loop] with no line available changes nothing. *)
Theorem firmware_invariant (s : State) :
  reachable toFloat s ->
  totalRevolutions s = S754_zero false /\
  fgt (stepperMaxSpeed (inOutStepper s)) (S754_zero false) = true /\
  batchComplete s = false /\ bufferCount s = 0 /\
  forall fuel : nat, loop toFloat fuel None s = Done s.
Proof.
  intros Hr. destruct (reachable_invariant toFloat s Hr) as [R M].
  split; [exact R |]. split; [exact M |].
  assert (B : batchComplete s = false /\ bufferCount s = 0).
  { induction Hr as [fuel s H | fuel available s s' Hr IH H].
    - unfold setup, homing in H. apply bind_Done in H. destruct H as (st & _ & H).
      inversion H. split; reflexivity.
    - destruct (reachable_invariant toFloat s Hr) as [R' M'].
      destruct (IH R' M') as [C N].
      exact (loop_clears_batch fuel available s s' H C N). }
  destruct B as [C N]. split; [exact C |]. split; [exact N |].
  intros fuel. cbn [loop]. unfold processBatch. rewrite C. reflexivity.
Qed.

End Protocol.


Lemma firmware_invariant_witness :
  reachable decimalToFloat homed /\
  totalRevolutions homed = S754_zero false /\
  batchComplete homed = false /\ bufferCount homed = 0 /\
  loop decimalToFloat 0 None homed = Done homed.
Proof.
  assert (R : reachable decimalToFloat homed)
    by (apply (reachable_setup decimalToFloat (Z.to_nat 5107)); exact setup_homed).
  destruct (firmware_invariant decimalToFloat homed R) as (A & _ & B & C & D).
  split; [exact R |]. split; [exact A |]. split; [exact B |]. split; [exact C |].
  apply D.
Defined.

(** ** Start-up, the clamp and RESET_THETA *)

(** X4.  Start-up: with fuel for the 5107 polls of the homing jog, [setup]
    emits the ready marker, homes, and leaves both position references and
    the Motion State at zero, the first-coordinates flag set, the buffer
    empty, the speed limit of both axes at 550 and R, HOMING, HOMED on the
    serial line. *)
Theorem startup (fuel : nat) :
  5107 <= Z.of_nat fuel ->
  exists s : State,
    setup fuel = Done s /\
    serialOut s = ["R"; "HOMING"; "HOMED"]%string /\
    motionState s = (S754_zero false, S754_zero false, S754_zero false, true) /\
    positions s = (0, 0) /\
    (batchComplete s, bufferCount s) = (false, 0) /\
    stepperMaxSpeed (rotStepper s) = float_of_Z 550 /\
    stepperMaxSpeed (inOutStepper s) = float_of_Z 550.
Proof.
  intros Hf. exists homed. split; [| repeat split].
  unfold setup, homing.
  match goal with
  | |- context [homingLoop fuel ?st] =>
      rewrite (homingLoop_terminates fuel st);
        [| vm_compute; reflexivity
         | replace (currentPosition st) with 0 by (vm_compute; reflexivity); lia]
  end.
  vm_compute. reflexivity.
Qed.

Lemma startup_witness :
  exists s : State,
    setup (Z.to_nat 5107) = Done s /\
    serialOut s = ["R"; "HOMING"; "HOMED"]%string.
Proof.
  destruct (startup (Z.to_nat 5107)) as (s & H & O & _).
  - vm_compute. discriminate.
  - exists s. split; assumption.
Defined.

Lemma clampRho_range (rho : float) :
  is_float rho ->
  (0 <= F2Q (clampRho rho) <= 1)%Q /\
  ((0 <= F2Q rho <= 1)%Q -> clampRho rho = rho).
Proof.
  intros G. destruct (to_double_val rho G) as [G' E].
  assert (Z0d : is_double (double_of_Z 0)) by exact I.
  assert (Z1d : is_double (double_of_Z 1)) by (vm_compute; reflexivity).
  assert (V1 : val (double_of_Z 1) = one) by (vm_compute; reflexivity).
  assert (T0 : flt (to_double rho) (double_of_Z 0) = (val rho <? 0)).
  { rewrite (flt_val _ _ G' Z0d), E. reflexivity. }
  assert (T1 : fgt (to_double rho) (double_of_Z 1) = (one <? val rho)).
  { unfold fgt. change (SFltb (double_of_Z 1) (to_double rho))
      with (flt (double_of_Z 1) (to_double rho)).
    rewrite (flt_val _ _ Z1d G'), E, V1. reflexivity. }
  pose proof (F2Q_float rho G) as Qr.
  assert (Q1 : (1 * inject_Z one == inject_Z one)%Q) by apply Qmult_1_l.
  assert (Q0 : (0 * inject_Z one == inject_Z 0)%Q) by apply Qmult_0_l.
  split.
  - unfold clampRho. rewrite T0, T1.
    destruct (Z.ltb_spec (val rho) 0) as [L | L].
    { split; vm_compute; discriminate. }
    destruct (Z.ltb_spec one (val rho)) as [U | U].
    { split; vm_compute; discriminate. }
    split.
    + apply (scaled_le _ _ _ _ Q0 Qr). exact L.
    + apply (scaled_le _ _ _ _ Qr Q1). exact U.
  - intros [L U].
    apply (scaled_le _ _ _ _ Q0 Qr) in L. apply (scaled_le _ _ _ _ Qr Q1) in U.
    unfold clampRho. rewrite T0, T1.
    destruct (Z.ltb_spec (val rho) 0); [lia |].
    destruct (Z.ltb_spec one (val rho)); [lia | reflexivity].
Qed.

(** X5.  The rho of a waypoint is clamped: for every finite [float] [rho],
    [movePolar] moves to and records a rho between 0 and 1, which is [rho]
    itself when that lies between 0 and 1; an infinite rho is clamped to 1
    or to 0 in the same way. *)
Theorem rho_clamped (rho : float) :
  is_float rho ->
  (0 <= F2Q (clampRho rho) <= 1)%Q /\
  ((0 <= F2Q rho <= 1)%Q -> clampRho rho = rho) /\
  (forall (theta : float) (s s' : State),
     movePolar theta rho s = Done s' ->
     currentRho s' = clampRho rho /\
     exists mv : Move, moveLog s' = moveLog s ++ [mv] /\ mv_rho mv = clampRho rho) /\
  clampRho (S754_infinity false) = float_of_Z 1 /\
  clampRho (S754_infinity true) = float_of_Z 0.
Proof.
  intros G. destruct (clampRho_range rho G) as [R I].
  split; [exact R |]. split; [exact I |]. split; [| split; vm_compute; reflexivity].
  intros theta s s' H. apply movePolar_Done in H.
  destruct H as (r & o & i & _ & _ & _ & _ & ->).
  split; [reflexivity |]. eexists. split; reflexivity.
Qed.

Lemma rho_clamped_witness :
  is_float (fliteral 15 1) /\ (0 <= F2Q (clampRho (fliteral 15 1)) <= 1)%Q /\
  clampRho (fliteral 15 1) = float_of_Z 1.
Proof.
  assert (G : is_float (fliteral 15 1)) by (vm_compute; reflexivity).
  split; [exact G |]. split; [exact (proj1 (rho_clamped (fliteral 15 1) G)) |].
  vm_compute. reflexivity.
Defined.

(** X6.  RESET_THETA unwinds theta without moving the table: when the
    Motion State holds a finite rho between 0 and 1 and [resetTheta] has
    completed, the move to theta 0 at that rho is defined and its two
    targets are the position references that [resetTheta] has set, so that
    neither axis takes a step. *)
Theorem reset_theta_no_motion (s s1 : State) :
  is_float (currentRho s) ->
  (0 <= F2Q (currentRho s) <= 1)%Q ->
  resetTheta s = Done s1 ->
  exists s2 : State,
    movePolar (S754_zero false) (currentRho s1) s1 = Done s2 /\
    positions s2 = positions s1 /\
    currentTheta s2 = S754_zero false /\ currentRho s2 = currentRho s.
Proof.
  intros G B H. apply resetTheta_Done in H.
  destruct H as (p & Hp & Hr & _ & Hpos).
  pose proof (proj2 (clampRho_range _ G) B) as Hc.
  assert (Hin : in_long p = true).
  { unfold cast_long in Hp.
    destruct (fmul (currentRho s) (float_of_Z inOut_total_steps)); try discriminate;
      destruct (in_long _) eqn:E; try discriminate; inversion Hp; subst; exact E. }
  rewrite Hr.
  assert (M : movePolar (S754_zero false) (currentRho s) s1 =
              Done (set_currentRho (currentRho s) (set_currentTheta (S754_zero false)
                      (runSpeedToPosition
                         (mkMove (S754_zero false) (currentRho s) 0 p) s1)))).
  { unfold movePolar. rewrite Hc.
    replace (cast_long (rotStepsValue (S754_zero false))) with (Done 0 : result Z)
      by (vm_compute; reflexivity).
    replace (cast_long (offsetValue (S754_zero false))) with (Done 0 : result Z)
      by (vm_compute; reflexivity).
    cbn [bind]. unfold inOutValue. rewrite Hp. cbn [bind].
    unfold long_sub. rewrite Z.sub_0_r, Hin. reflexivity. }
  eexists. split; [exact M |]. rewrite Hpos. repeat split.
Qed.

Lemma reset_theta_no_motion_witness :
  exists s1 s2 : State,
    resetTheta homed = Done s1 /\
    movePolar (S754_zero false) (currentRho s1) s1 = Done s2 /\
    positions s2 = positions s1.
Proof.
  assert (H : exists s1, resetTheta homed = Done s1) by (eexists; vm_compute; reflexivity).
  destruct H as (s1 & H).
  destruct (reset_theta_no_motion homed s1) as (s2 & M & P & _).
  - exact I.
  - split; vm_compute; discriminate.
  - exact H.
  - exists s1, s2. repeat split; assumption.
Defined.

(** ** Parsing a batch line *)

Lemma stake_all (s : string) : stake (String.length s) s = s.
Proof. induction s as [| c s IH]; simpl; [reflexivity | rewrite IH; reflexivity]. Qed.

Lemma sdrop_all (s : string) : sdrop (String.length s) s = EmptyString.
Proof. induction s as [| c s IH]; simpl; [reflexivity | exact IH]. Qed.

Lemma find_none_append (c : ascii) (s : string) :
  find c s = None -> forall k : nat, find c s <> Some k.
Proof. intros H k. rewrite H. discriminate. Qed.

Lemma slice_app (l r : list (float * float)) : slice (l ++ r) 0 (List.length l) = l.
Proof.
  transitivity (slice l 0 (List.length l)); [| apply slice_all].
  unfold slice. apply map_ext_in.
  intros j Hj. apply in_seq in Hj. apply app_nth1. lia.
Qed.

Section Parsing.

Variable toFloat : string -> float.

(** X7.  A pair is split at its first comma: the text before it is read as
    theta and the text after it as rho.  A pair with no comma is read twice:
    theta and rho are both the value of the whole text. *)
Theorem parsePair_splits :
  (forall a b : string,
     find "," a = None -> strlen (a ++ String "," b) < 2 ^ 32 ->
     parsePair toFloat (a ++ String "," b) = (toFloat a, toFloat b)) /\
  (forall pair : string,
     find "," pair = None -> strlen pair < 2 ^ 32 - 1 ->
     parsePair toFloat pair = (toFloat pair, toFloat pair)).
Proof.
  split.
  - intros a b Ha Hlen. unfold parsePair.
    pose proof (strlen_nonneg a) as Hna. pose proof (strlen_nonneg b) as Hnb.
    assert (L : strlen (a ++ String "," b) = strlen a + 1 + strlen b).
    { rewrite strlen_append. unfold strlen. cbn [String.length]. lia. }
    assert (Ci : indexOf "," (a ++ String "," b) = strlen a).
    { unfold indexOf, indexOfFrom. change (to_unsigned 0) with 0.
      destruct (Z.leb_spec (strlen (a ++ String "," b)) 0); [lia |].
      cbn [Z.to_nat sdrop]. rewrite (find_append _ _ _ Ha). reflexivity. }
    rewrite Ci. f_equal; f_equal.
    + unfold substring. change (to_unsigned 0) with 0.
      rewrite to_unsigned_small by lia.
      destruct (Z.ltb_spec (strlen a) 0); [lia |].
      destruct (Z.leb_spec (strlen (a ++ String "," b)) 0); [lia |].
      destruct (Z.ltb_spec (strlen (a ++ String "," b)) (strlen a)); [lia |].
      rewrite Z.sub_0_r. unfold strlen. rewrite Nat2Z.id. cbn [Z.to_nat sdrop].
      apply stake_append.
    + unfold substringFrom, substring. rewrite !to_unsigned_small by lia.
      destruct (Z.ltb_spec (strlen (a ++ String "," b)) (strlen a + 1)); [lia |].
      assert (D : sdrop (Z.to_nat (strlen a + 1)) (a ++ String "," b) = b).
      { replace (Z.to_nat (strlen a + 1)) with (String.length (a ++ String "," EmptyString)).
        - replace (a ++ String "," b)%string
            with ((a ++ String "," EmptyString) ++ b)%string
            by (rewrite append_assoc; reflexivity).
          apply sdrop_append.
        - rewrite length_append. unfold strlen. cbn [String.length]. lia. }
      destruct (Z.leb_spec (strlen (a ++ String "," b)) (strlen a + 1)).
      * assert (strlen b = 0) by lia. destruct b; [reflexivity |].
        unfold strlen in *. cbn [String.length] in *. lia.
      * destruct (Z.ltb_spec (strlen (a ++ String "," b)) (strlen (a ++ String "," b)));
          [lia |].
        rewrite D. replace (Z.to_nat (strlen (a ++ String "," b) - (strlen a + 1)))
          with (String.length b) by (unfold strlen in *; lia).
        apply stake_all.
  - intros pair Hp Hlen. unfold parsePair.
    pose proof (strlen_nonneg pair) as Hn.
    assert (Ci : indexOf "," pair = -1).
    { unfold indexOf, indexOfFrom. change (to_unsigned 0) with 0.
      destruct (Z.leb_spec (strlen pair) 0); [reflexivity |].
      cbn [Z.to_nat sdrop]. rewrite Hp. reflexivity. }
    rewrite Ci. change (-1 + 1) with 0.
    assert (E : pair = EmptyString \/ 0 < strlen pair).
    { destruct pair; [left; reflexivity | right].
      unfold strlen. cbn [String.length]. lia. }
    f_equal; f_equal.
    + unfold substring. change (to_unsigned 0) with 0.
      change (to_unsigned (-1)) with (2 ^ 32 - 1).
      destruct (Z.ltb_spec (2 ^ 32 - 1) 0); [lia |].
      destruct (Z.leb_spec (strlen pair) 0).
      * destruct E as [-> | E]; [reflexivity | lia].
      * destruct (Z.ltb_spec (strlen pair) (2 ^ 32 - 1)); [| lia].
        rewrite Z.sub_0_r. unfold strlen. rewrite Nat2Z.id. cbn [Z.to_nat sdrop].
        apply stake_all.
    + unfold substringFrom, substring. change (to_unsigned 0) with 0.
      rewrite to_unsigned_small by lia.
      destruct (Z.ltb_spec (strlen pair) 0); [lia |].
      destruct (Z.leb_spec (strlen pair) 0).
      * destruct E as [-> | E]; [reflexivity | lia].
      * destruct (Z.ltb_spec (strlen pair) (strlen pair)); [lia |].
        rewrite Z.sub_0_r. unfold strlen. rewrite Nat2Z.id. cbn [Z.to_nat sdrop].
        apply stake_all.
Qed.

(** The fill loop takes every segment of a line that fits the buffer, and
    stops at the end of the line. *)
Lemma fillBuffer_all (segs : list string) :
  forall (fuel : nat) (pre : string) (pairIndex : Z) (buf : list (float * float)),
    (List.length segs <= fuel)%nat ->
    Forall (fun seg => find ";" seg = None) segs ->
    strlen (pre ++ join segs) < 2 ^ 32 ->
    0 <= pairIndex -> pairIndex + Z.of_nat (List.length segs) <= BUFFER_SIZE ->
    fillBuffer toFloat fuel (pre ++ join segs) pairIndex (strlen pre) buf =
    (pairIndex + Z.of_nat (List.length segs),
     storeAll buf (Z.to_nat pairIndex) (map (parsePair toFloat) segs)).
Proof.
  induction segs as [| seg segs IH]; intros fuel pre pairIndex buf Hn Hsegs Hlen Hp Hroom.
  - cbn [join List.length map storeAll Z.of_nat]. rewrite Z.add_0_r.
    destruct fuel as [| fuel]; [reflexivity |]. cbn [fillBuffer].
    destruct (pairIndex <? BUFFER_SIZE); [| reflexivity].
    assert (E : indexOfFrom ";" (pre ++ "") (strlen pre) = -1).
    { unfold indexOfFrom. pose proof (strlen_nonneg pre).
      cbn [join] in Hlen. rewrite strlen_append in *. change (strlen "") with 0 in *.
      rewrite to_unsigned_small by lia.
      destruct (Z.leb_spec (strlen pre + 0) (strlen pre)); [reflexivity | lia]. }
    rewrite E. reflexivity.
  - destruct fuel as [| fuel]; [simpl in Hn; lia |].
    inversion Hsegs as [| ? ? Hseg Hrest]; subst.
    cbn [fillBuffer join map storeAll List.length].
    cbn [List.length] in Hroom.
    destruct (Z.ltb_spec pairIndex BUFFER_SIZE) as [_ | H]; [| lia].
    cbn [join] in Hlen.
    rewrite (indexOfFrom_segment pre seg (join segs) Hseg Hlen).
    pose proof (strlen_nonneg pre) as Hpre. pose proof (strlen_nonneg seg) as Hs.
    destruct (Z.eqb_spec (strlen pre + strlen seg) (-1)) as [H | _]; [lia |].
    rewrite (substring_segment pre seg (join segs) Hlen).
    assert (Hassoc : (pre ++ seg ++ String ";" (join segs) =
                      (pre ++ seg ++ String ";" EmptyString) ++ join segs)%string).
    { rewrite !append_assoc. reflexivity. }
    assert (Hidx : strlen pre + strlen seg + 1 =
                   strlen (pre ++ seg ++ String ";" EmptyString)).
    { rewrite !strlen_append. change (strlen (String ";" EmptyString)) with 1. lia. }
    rewrite Hassoc, Hidx.
    rewrite IH; try assumption; try lia.
    + f_equal; [lia |]. f_equal. lia.
    + simpl in Hn. lia.
    + rewrite <- Hassoc. exact Hlen.
Qed.

(** X8.  A line of at most 10 semicolon-terminated pairs (that is not a
    SET_SPEED command, and arrives when no batch is pending) is carried out
    as the batch of all its pairs, in the order of the line: they fill the
    first cells of the buffer, the cells after them keep their contents, the
    count is the number of pairs, and the batch is executed on exactly these
    pairs. *)
Theorem batch_pairs_executed (fuel : nat) (s : State) (segs : list string) :
  batchComplete s = false ->
  List.length (buffer s) = 10%nat ->
  Forall (fun seg => find ";" seg = None) segs ->
  (1 <= List.length segs <= 10)%nat ->
  strlen (join segs) < 2 ^ 31 ->
  startsWith (join segs) "SET_SPEED" = false ->
  let ws := map (parsePair toFloat) segs in
  let filled := ws ++ skipn (List.length ws) (buffer s) in
  readBatch toFloat (join segs) s =
    set_batch filled (Z.of_nat (List.length segs)) true s /\
  loop toFloat fuel (Some (join segs)) s =
    (s1 <- executeBatch fuel ws
             (enableOutputs (set_batch filled (Z.of_nat (List.length segs)) true s)) ;;
     Done (finishBatch s1)).
Proof.
  intros Hc Hbuf Hsegs [Hlo Hhi] Hlen Hcmd ws filled.
  destruct (join_last segs) as (x & Hx).
  { intros ->. simpl in Hlo. lia. }
  assert (Hends : endsWith (join segs) (String ";" EmptyString) = true)
    by (rewrite Hx; apply endsWith_semicolon).
  assert (Hhome : String.eqb (join segs) "HOME" = false).
  { destruct (String.eqb_spec (join segs) "HOME") as [E | _]; [| reflexivity].
    rewrite E in Hends. vm_compute in Hends. discriminate. }
  assert (Hreset : String.eqb (join segs) "RESET_THETA" = false).
  { destruct (String.eqb_spec (join segs) "RESET_THETA") as [E | _]; [| reflexivity].
    rewrite E in Hends. vm_compute in Hends. discriminate. }
  assert (Hws : List.length ws = List.length segs) by (unfold ws; apply length_map).
  assert (Hread : readBatch toFloat (join segs) s =
                  set_batch filled (Z.of_nat (List.length segs)) true s).
  { unfold readBatch.
    pose proof (fillBuffer_all segs (Z.to_nat BUFFER_SIZE) EmptyString 0 (buffer s)) as Hfill.
    cbn [append] in Hfill. change (strlen EmptyString) with 0 in Hfill.
    rewrite Hfill; try assumption; try (unfold BUFFER_SIZE; lia).
    pose proof (storeAll_app ws [] (buffer s)) as E. cbn [app List.length] in E.
    change (Z.to_nat 0) with O. fold ws. rewrite E by lia. reflexivity. }
  split; [exact Hread |].
  unfold loop. rewrite Hhome, Hreset, Hcmd, Hends, Hc. cbn [negb andb].
  rewrite Hread.
  rewrite processBatch_executeBatch by (cbn [batchComplete bufferCount set_batch]; reflexivity || lia).
  cbn [buffer bufferCount set_batch]. rewrite Nat2Z.id, <- Hws.
  unfold filled. rewrite slice_app. reflexivity.
Qed.

End Parsing.

Lemma batch_pairs_executed_witness :
  let ws := [(fliteral 0 0, fliteral 0 0); (fliteral 0 0, fliteral 1 3)] in
  readBatch decimalToFloat "0,0;0,0.001;" homed =
    set_batch (ws ++ skipn 2 (buffer homed)) 2 true homed /\
  exists s' : State,
    loop decimalToFloat 0 (Some "0,0;0,0.001;"%string) homed = Done s' /\
    List.length (moveLog s') = 4%nat.
Proof.
  cbv zeta.
  assert (F : Forall (fun seg => find ";" seg = None) ["0,0"; "0,0.001"]%string)
    by (repeat constructor).
  assert (N : (1 <= List.length ["0,0"; "0,0.001"]%string <= 10)%nat) by (cbn; lia).
  assert (B : strlen (join ["0,0"; "0,0.001"]%string) < 2 ^ 31) by (vm_compute; reflexivity).
  destruct (batch_pairs_executed decimalToFloat 0 homed ["0,0"; "0,0.001"]%string
              eq_refl eq_refl F N B eq_refl) as [R L].
  split.
  - etransitivity; [exact R | vm_compute; reflexivity].
  - eexists. split; vm_compute; reflexivity.
Defined.

(** ** Where an interpolation starts and ends *)

Lemma float_of_Z_val (n : Z) :
  Z.abs n <= 2 ^ 31 ->
  is_float (float_of_Z n) /\ val (float_of_Z n) = round32 (n * one).
Proof.
  intros H. unfold float_of_Z, is_float, val, round32, one.
  replace (n * 2 ^ scale) with (n * 2 ^ (0 + scale)) by (f_equal).
  apply (normalize_V 24 128 prec_float emax_float scale scale_float n 0).
  - unfold scale. lia.
  - change (128 - 1 + scale) with (127 + scale). rewrite (pow_one 127) by lia.
    rewrite (pow_one 0) by lia. change (2 ^ 0) with 1.
    pose proof one_pos. pose proof pow_127.
    assert (2 ^ 31 < 2 ^ 127) by (apply Z.pow_lt_mono_r; lia). nia.
Qed.

Lemma float_of_Z_positive (n : Z) :
  1 <= n <= 2 ^ 31 -> exists m e, float_of_Z n = S754_finite false m e.
Proof.
  intros H. destruct (float_of_Z_val n ltac:(lia)) as [G E].
  pose proof one_pos as HU.
  assert (P : one <= val (float_of_Z n)).
  { rewrite E.
    replace one with (round32 (1 * 2 ^ (0 + scale))) at 1.
    - apply round32_mono. rewrite (pow_one 0) by lia. change (2 ^ 0) with 1. nia.
    - rewrite round32_short by (cbn; lia). rewrite (pow_one 0) by lia. reflexivity. }
  destruct (float_of_Z n) as [s | s | | s m e]; try (exfalso; exact G).
  - cbn in P. lia.
  - destruct s; [| exists m, e; reflexivity].
    unfold val in P. cbn [Round.V cond_Zopp] in P.
    assert (0 < Zpos m * 2 ^ (e + scale)); [| lia].
    apply Z.mul_pos_pos; [lia |]. apply Z.pow_pos_nonneg; [lia |].
    apply (good_exponent 24 128 scale scale_float) in G. lia.
Qed.

(** A finite number divided by itself is 1. *)
Lemma fdiv_self (s : bool) (m : positive) (e : Z) :
  fdiv (S754_finite s m e) (S754_finite s m e) = S754_finite false 8388608 (-23).
Proof.
  unfold fdiv. cbn [SFdiv]. unfold SFdiv_core_binary.
  rewrite Z.sub_diag, Z.sub_diag.
  change (Z.min (fexp 24 128 0) 0) with (-24). change (0 - -24) with 24.
  cbv iota.
  assert (D : Z.div_eucl (Z.shiftl (Zpos m) 24) (Zpos m) = (16777216, 0)).
  { rewrite Z.shiftl_mul_pow2 by lia.
    pose proof (Z.div_mul (2 ^ 24) (Zpos m) ltac:(lia)) as Q.
    pose proof (Z.mod_mul (2 ^ 24) (Zpos m) ltac:(lia)) as R.
    rewrite (Z.mul_comm (Zpos m)).
    unfold Z.div, Z.modulo in Q, R.
    destruct (Z.div_eucl (2 ^ 24 * Zpos m) (Zpos m)) as [q r].
    cbn [fst snd] in *. subst. reflexivity. }
  rewrite D.
  assert (L : new_location (Zpos m) 0 = loc_Exact).
  { unfold new_location, new_location_even, new_location_odd.
    destruct (Z.even (Zpos m)); reflexivity. }
  rewrite L. destruct s; vm_compute; reflexivity.
Qed.

(** 1 times a [float] is that [float]. *)
Lemma fmul_one (a : float) :
  is_float a -> fmul (S754_finite false 8388608 (-23)) a = a.
Proof.
  intros G. destruct a as [s | s | | s m e]; try (exfalso; exact G).
  - reflexivity.
  - unfold fmul. cbn [SFmul xorb].
    rewrite (binary_round_aux_exact 24 128 prec_float).
    destruct (good_canonical 24 128 s m e G) as [C B].
    pose proof (good_exponent 24 128 scale scale_float s m e G) as (_ & Hd & _).
    assert (Em : Zpos (8388608 * m) = Zpos m * 2 ^ 23) by lia.
    assert (Ed : Zpos (digits2_pos (8388608 * m)) = Zpos (digits2_pos m) + 23).
    { change (Zpos (digits2_pos (8388608 * m))) with (Zdigits2 (Zpos (8388608 * m))).
      change (Zpos (digits2_pos m)) with (Zdigits2 (Zpos m)).
      rewrite !Zdigits2_log2, Em, Z.log2_mul_pow2 by lia. lia. }
    unfold Round.round_core. rewrite Ed.
    replace (Zpos (digits2_pos m) + 23 + (-23 + e)) with (Zpos (digits2_pos m) + e) by lia.
    rewrite C. destruct (Z.leb_spec e (-23 + e)); [lia |].
    replace (e - (-23 + e)) with 23 by lia.
    rewrite Em, rne_div_exact by (try apply Z.mod_mul; lia).
    rewrite Z.div_mul by lia.
    pose proof (digits_bounds m) as [_ Hm].
    assert (Zpos m < 2 ^ 24).
    { eapply Z.lt_le_trans; [exact Hm |]. apply Z.pow_le_mono_r; lia. }
    unfold Round.renorm. destruct (Z.eqb_spec (Zpos m) (2 ^ 24)); [lia |].
    unfold Round.pack. cbn [fst snd].
    destruct (Z.leb_spec e (128 - 24)); [reflexivity | lia].
Qed.

(** Zero times a [float] is a zero, and a zero added to a [float] leaves
    its value. *)
Lemma fadd_zero_times (x a : float) :
  is_float x -> is_float a ->
  is_float (fadd x (fmul (S754_zero false) a)) /\
  F2Q (fadd x (fmul (S754_zero false) a)) = F2Q x.
Proof.
  intros Gx Ga.
  destruct a as [sa | sa | | sa ma ea]; try (exfalso; exact Ga);
    destruct x as [sx | sx | | sx mx ex]; try (exfalso; exact Gx);
    cbn [fmul SFmul fadd SFadd]; try (split; [exact Gx | reflexivity]);
    destruct sx, sa; cbn; split; (exact I || reflexivity).
Qed.

Lemma moveThrough_last (ws : list (float * float)) :
  forall (w : float * float) (s s' : State),
    moveThrough (ws ++ [w]) s = Done s' ->
    currentTheta s' = fst w /\ currentRho s' = clampRho (snd w).
Proof.
  induction ws as [| v ws IH]; intros w s s' H; cbn [app moveThrough] in H;
    apply bind_Done in H; destruct H as (s1 & H1 & H).
  - inversion H; subst s'. apply movePolar_Done in H1.
    destruct H1 as (r & o & i & _ & _ & _ & _ & ->). split; reflexivity.
  - exact (IH w s1 s' H).
Qed.

Lemma wrapDown_more (fuel : nat) :
  forall (x r : float) (k : nat),
    wrapDown fuel x = Done r -> wrapDown (fuel + k) x = Done r.
Proof.
  induction fuel as [| fuel IH]; intros x r k H.
  - cbn [wrapDown] in H. destruct k; cbn [Nat.add wrapDown];
      destruct (fgt (to_double x) M_PI); try discriminate; exact H.
  - cbn [Nat.add wrapDown] in *. destruct (fgt (to_double x) M_PI); [| exact H].
    apply IH. exact H.
Qed.

Lemma wrapUp_more (fuel : nat) :
  forall (x r : float) (k : nat),
    wrapUp fuel x = Done r -> wrapUp (fuel + k) x = Done r.
Proof.
  induction fuel as [| fuel IH]; intros x r k H.
  - cbn [wrapUp] in H. destruct k; cbn [Nat.add wrapUp];
      destruct (flt (to_double x) (SFopp M_PI)); try discriminate; exact H.
  - cbn [Nat.add wrapUp] in *. destruct (flt (to_double x) (SFopp M_PI)); [| exact H].
    apply IH. exact H.
Qed.

Lemma shortestAngle_more (fuel k : nat) (x r : float) :
  shortestAngle fuel x = Done r -> shortestAngle (fuel + k) x = Done r.
Proof.
  unfold shortestAngle. intros H. apply bind_Done in H. destruct H as (a & H1 & H2).
  rewrite (wrapDown_more fuel x a k H1). cbn [bind]. apply wrapUp_more. exact H2.
Qed.

Lemma bounded_val (x : float) :
  is_float x ->
  (- inject_Z 16777216 <= F2Q x <= inject_Z 16777216)%Q ->
  Z.abs (val x) <= 2 ^ 24 * one.
Proof.
  intros G [L U].
  apply (scaled_le _ _ _ _ (scaled_opp _ _ (scaled_Z 16777216)) (F2Q_float _ G)) in L.
  apply (scaled_le _ _ _ _ (F2Q_float _ G) (scaled_Z 16777216)) in U.
  change (2 ^ 24) with 16777216. lia.
Qed.

Lemma fsub_bounded (x y : float) :
  is_float x -> is_float y ->
  Z.abs (val x) <= 2 ^ 24 * one -> Z.abs (val y) <= 2 ^ 24 * one ->
  is_float (fsub x y) /\ Z.abs (val (fsub x y)) <= 2 ^ 25 * one.
Proof.
  intros Gx Gy Bx By. pose proof one_pos. pose proof pow_127.
  destruct (fsub_val x y Gx Gy) as [G E]; [nia |].
  split; [exact G |]. rewrite E. apply round32_bound; lia.
Qed.

(** X9.  The waypoints of an interpolation: with start and end coordinates
    that are finite [float]s of magnitude at most 2^24, the first waypoint
    has the value of the start point, whatever the end point is, and the
    last one is the start point plus the differences the interpolation is
    computed with: theta ends at [startTheta + angleDiff], with the
    normalised difference, not at [endTheta], and rho at
    [startRho + (endRho - startRho)].  These last values are what an
    interpolation that completes leaves in [currentTheta] and, clamped, in
    [currentRho]. *)
Theorem interpolation_endpoints
    (fuel : nat) (startTheta startRho endTheta endRho stepSize : float) (s s' : State) :
  is_float startTheta -> is_float startRho -> is_float endTheta -> is_float endRho ->
  (- inject_Z 16777216 <= F2Q startTheta <= inject_Z 16777216)%Q ->
  (- inject_Z 16777216 <= F2Q startRho <= inject_Z 16777216)%Q ->
  (- inject_Z 16777216 <= F2Q endTheta <= inject_Z 16777216)%Q ->
  (- inject_Z 16777216 <= F2Q endRho <= inject_Z 16777216)%Q ->
  interpolatePath fuel startTheta startRho endTheta endRho stepSize s = Done s' ->
  exists (numSteps : Z) (angleDiff : float),
    1 <= numSteps /\
    shortestAngle fuel (fsub endTheta startTheta) = Done angleDiff /\
    (let first := interpolated startTheta startRho angleDiff endRho numSteps 0 in
     F2Q (fst first) = F2Q startTheta /\ F2Q (snd first) = F2Q startRho /\
     is_float (fst first) /\ is_float (snd first)) /\
    interpolated startTheta startRho angleDiff endRho numSteps numSteps =
      (fadd startTheta angleDiff, fadd startRho (fsub endRho startRho)) /\
    currentTheta s' = fadd startTheta angleDiff /\
    currentRho s' = clampRho (fadd startRho (fsub endRho startRho)).
Proof.
  intros GsT GsR GeT GeR BsT BsR BeT BeR H.
  apply bounded_val in BsT, BsR, BeT, BeR; try assumption.
  rewrite interpolatePath_waypoints in H.
  apply bind_Done in H. destruct H as (n & Hn & H).
  apply bind_Done in H. destruct H as (a & Ha & H).
  set (N := Z.max 1 n) in *.
  assert (Hin : in_long n = true).
  { unfold cast_long in Hn.
    destruct (fdiv _ _); try discriminate;
      destruct (in_long _) eqn:E; try discriminate; inversion Hn; subst; exact E. }
  assert (HN : 1 <= N <= 2 ^ 31).
  { unfold in_long, LONG_MIN, LONG_MAX in Hin. apply andb_prop in Hin as [_ U].
    apply Z.leb_le in U. unfold N. lia. }
  (* the normalised difference is a float *)
  destruct (fsub_bounded endTheta startTheta GeT GsT BeT BsT) as [Gd Bd].
  destruct (shortestAngle_val _ Gd Bd) as (a' & A1 & Ga & _).
  assert (Eq : a' = a).
  { pose proof (shortestAngle_more fuel (passes (fsub endTheta startTheta)) _ _ Ha) as M.
    rewrite (A1 (fuel + passes (fsub endTheta startTheta))%nat ltac:(lia)) in M.
    inversion M. reflexivity. }
  subst a'.
  destruct (fsub_bounded endRho startRho GeR GsR BeR BsR) as [Gr _].
  destruct (float_of_Z_positive N HN) as (m & e & EN).
  assert (Last : interpolated startTheta startRho a endRho N N =
                 (fadd startTheta a, fadd startRho (fsub endRho startRho))).
  { unfold interpolated. rewrite EN, fdiv_self, !fmul_one by assumption. reflexivity. }
  exists N, a. split; [lia |]. split; [exact Ha |]. split; [| split; [exact Last |]].
  - cbv zeta. unfold interpolated. cbn [fst snd].
    change (float_of_Z 0) with (S754_zero false). rewrite EN.
    change (fdiv (S754_zero false) (S754_finite false m e)) with (S754_zero false).
    destruct (fadd_zero_times startTheta a GsT Ga) as [G1 E1].
    destruct (fadd_zero_times startRho (fsub endRho startRho) GsR Gr) as [G2 E2].
    repeat split; assumption.
  - unfold waypoints in H.
    replace (Z.to_nat (N + 1)) with (S (Z.to_nat N)) in H by lia.
    rewrite seq_S, map_app in H. cbn [map Nat.add] in H.
    apply moveThrough_last in H. rewrite Z2Nat.id in H by lia.
    rewrite Last in H. exact H.
Qed.

Lemma interpolation_endpoints_witness :
  exists s' : State,
    interpolatePath 0 (S754_zero false) (S754_zero false)
      (S754_zero false) (fliteral 1 3) interpolationResolution homed = Done s' /\
    currentTheta s' = fadd (S754_zero false) (S754_zero false) /\
    currentRho s' = clampRho (fadd (S754_zero false) (fsub (fliteral 1 3) (S754_zero false))).
Proof.
  assert (H : exists s', interpolatePath 0 (S754_zero false) (S754_zero false)
      (S754_zero false) (fliteral 1 3) interpolationResolution homed = Done s')
    by (eexists; vm_compute; reflexivity).
  destruct H as (s' & H). exists s'. split; [exact H |].
  assert (Z0 : (- inject_Z 16777216 <= F2Q (S754_zero false) <= inject_Z 16777216)%Q)
    by (split; vm_compute; discriminate).
  assert (G1 : is_float (fliteral 1 3)) by (vm_compute; reflexivity).
  assert (B1 : (- inject_Z 16777216 <= F2Q (fliteral 1 3) <= inject_Z 16777216)%Q)
    by (split; vm_compute; discriminate).
  destruct (interpolation_endpoints 0 (S754_zero false) (S754_zero false)
              (S754_zero false) (fliteral 1 3) interpolationResolution homed s'
              I I I G1 Z0 Z0 Z0 B1 H) as (n & a & _ & Ha & _ & _ & T & R).
  assert (Ea : a = S754_zero false).
  { assert (E : shortestAngle 0 (fsub (S754_zero false) (S754_zero false)) =
                Done (S754_zero false)) by (vm_compute; reflexivity).
    rewrite E in Ha. inversion Ha. reflexivity. }
  subst a. split; [exact T | exact R].
Defined.

(** ** The Arduino sketch *)

Lemma SFcompare_swap (x y : spec_float) :
  SFcompare y x = option_map CompOpp (SFcompare x y).
Proof.
  destruct x as [sx | sx | | sx mx ex], y as [sy | sy | | sy my ey];
    try reflexivity; try (destruct sx; reflexivity); try (destruct sy; reflexivity);
    try (destruct sx, sy; reflexivity).
  cbn [SFcompare option_map]. f_equal.
  destruct sx, sy; try reflexivity; rewrite (Z.compare_antisym ex ey);
    destruct (ex ?= ey); cbn [CompOpp]; try reflexivity.
  - f_equal. symmetry. exact (Pos.compare_cont_antisym mx my Eq).
  - symmetry. exact (Pos.compare_cont_antisym mx my Eq).
Qed.

Section Compare.

Variables prec emax : Z.
Hypothesis Hprec : 2 <= prec.
Variable off : Z.
Hypothesis Hoff : 0 <= SpecFloat.emin prec emax + off.

Lemma SFleb_V (x y : spec_float) :
  Round.good prec emax x -> Round.good prec emax y ->
  SFleb x y = (Round.V off x <=? Round.V off y).
Proof.
  intros Gx Gy.
  rewrite Z.leb_antisym, <- (SFltb_V prec emax Hprec off Hoff y x Gy Gx).
  unfold SFleb, SFltb. rewrite (SFcompare_swap x y).
  destruct x as [sx | sx | | sx mx ex]; try (exfalso; exact Gx);
    destruct y as [sy | sy | | sy my ey]; try (exfalso; exact Gy);
    destruct (SFcompare _ _) as [[| |] |] eqn:E; try reflexivity;
    cbn in E; try discriminate; destruct sx; discriminate.
Qed.

End Compare.

Lemma format_ok (fmt : Arduino.doubleFormat) :
  2 <= Arduino.dprec fmt /\ Arduino.dprec fmt < Arduino.demax fmt /\
  0 <= SpecFloat.emin (Arduino.dprec fmt) (Arduino.demax fmt) + scale.
Proof. destruct fmt; repeat split; vm_compute; (reflexivity || discriminate). Qed.

Lemma double_lit_val (fmt : Arduino.doubleFormat) (p : Z) :
  Z.abs p <= 2 ^ 31 ->
  Round.good (Arduino.dprec fmt) (Arduino.demax fmt) (Arduino.double_lit fmt p) /\
  val (Arduino.double_lit fmt p) =
  Round.RNDs (Arduino.dprec fmt) (Arduino.demax fmt) scale (p * one).
Proof.
  intros H. destruct (format_ok fmt) as (H1 & H2 & H3).
  unfold Arduino.double_lit, val, one.
  replace (p * 2 ^ scale) with (p * 2 ^ (0 + scale)) by (f_equal).
  apply (normalize_V _ _ H1 H2 scale H3 p 0).
  - unfold scale. lia.
  - rewrite (pow_one 0) by lia. change (2 ^ 0) with 1.
    pose proof one_pos.
    assert (2 ^ 31 * one < 2 ^ (Arduino.demax fmt - 1 + scale)); [| nia].
    destruct fmt.
    + change (Arduino.demax Arduino.Binary32 - 1 + scale) with (127 + scale).
      rewrite (pow_one 127) by lia.
      assert (2 ^ 31 < 2 ^ 127) by (apply Z.pow_lt_mono_r; lia). nia.
    + change (Arduino.demax Arduino.Binary64 - 1 + scale) with (1023 + scale).
      rewrite (pow_one 1023) by lia.
      assert (2 ^ 31 < 2 ^ 1023) by (apply Z.pow_lt_mono_r; lia). nia.
Qed.

Lemma integer_exact (fmt : Arduino.doubleFormat) (k : Z) :
  Z.abs k < 2 ^ 24 ->
  Round.RNDs (Arduino.dprec fmt) (Arduino.demax fmt) scale (k * one) = k * one.
Proof.
  intros H. destruct (format_ok fmt) as (H1 & H2 & H3).
  unfold one. replace (k * 2 ^ scale) with (k * 2 ^ (0 + scale)) by (f_equal).
  apply (RNDs_format _ _ H1 scale H3).
  - eapply Z.lt_le_trans; [exact H |]. apply Z.pow_le_mono_r; destruct fmt; cbn; lia.
  - destruct fmt; vm_compute; discriminate.
Qed.

(** The exit test of the homing jog: at or below -6336 where [double] has
    the format of [float], at or below -6337 where it is binary64, because
    there the product [-5760 * 1.1] is a little below -6336. *)
Lemma homed_at_stop (fmt : Arduino.doubleFormat) (p : Z) :
  Z.abs p <= 2 ^ 31 ->
  Arduino.homed_at fmt p = (p <=? arduinoHomingStop fmt).
Proof.
  intros H. destruct (format_ok fmt) as (H1 & H2 & H3).
  destruct (double_lit_val fmt p H) as [G E].
  assert (GL : Round.good (Arduino.dprec fmt) (Arduino.demax fmt) (Arduino.homingLimit fmt))
    by (destruct fmt; vm_compute; reflexivity).
  unfold Arduino.homed_at. rewrite (SFleb_V _ _ H1 scale H3 _ _ G GL).
  fold (val (Arduino.double_lit fmt p)). fold (val (Arduino.homingLimit fmt)). rewrite E.
  assert (L : arduinoHomingStop fmt * one <= val (Arduino.homingLimit fmt) /\
              val (Arduino.homingLimit fmt) < (arduinoHomingStop fmt + 1) * one)
    by (destruct fmt; split; vm_compute; (reflexivity || discriminate)).
  assert (B : Z.abs (arduinoHomingStop fmt) < 2 ^ 24 /\
              Z.abs (arduinoHomingStop fmt + 1) < 2 ^ 24)
    by (destruct fmt; split; vm_compute; reflexivity).
  pose proof one_pos as HU.
  destruct (Z.leb_spec p (arduinoHomingStop fmt)) as [Le | Gt].
  - apply Z.leb_le.
    pose proof (RNDs_mono _ _ H1 scale H3 (p * one) (arduinoHomingStop fmt * one)
                  ltac:(nia)) as M.
    rewrite (integer_exact fmt _ (proj1 B)) in M. lia.
  - apply Z.leb_gt.
    pose proof (RNDs_mono _ _ H1 scale H3 ((arduinoHomingStop fmt + 1) * one) (p * one)
                  ltac:(nia)) as M.
    rewrite (integer_exact fmt _ (proj2 B)) in M. lia.
Qed.

Lemma setSpeed_jog (st : AccelStepper) :
  fgt (stepperMaxSpeed st) (S754_zero false) = true ->
  flt (speed (setSpeed (float_of_Z (-5000)) st)) (S754_zero false) = true /\
  currentPosition (setSpeed (float_of_Z (-5000)) st) = currentPosition st /\
  stepperMaxSpeed (setSpeed (float_of_Z (-5000)) st) = stepperMaxSpeed st.
Proof.
  intros Hmax.
  assert (E : float_of_Z (-5000) = S754_finite true 10240000 (-11))
    by (vm_compute; reflexivity).
  unfold setSpeed. rewrite E.
  destruct (feq (S754_finite true 10240000 (-11)) (speed st)) eqn:Heq.
  - repeat split.
    destruct (speed st) as [s|s| |s m e]; try destruct s;
      try (vm_compute in Heq; discriminate); reflexivity.
  - repeat split. unfold speed at 1, constrain.
    destruct (stepperMaxSpeed st) as [s|s| |s m e]; try destruct s;
      try (vm_compute in Hmax; discriminate).
    + reflexivity.
    + unfold fgt, flt, SFltb, SFopp, SFcompare, negb.
      match goal with
      | |- context [if ?c then _ else _] => destruct c
      end; reflexivity.
Qed.

Lemma arduino_homingLoop (fmt : Arduino.doubleFormat) (fuel : nat) :
  forall st : AccelStepper,
    flt (speed st) (S754_zero false) = true ->
    - 2 ^ 31 < currentPosition st <= 2 ^ 31 ->
    Z.max 1 (currentPosition st - arduinoHomingStop fmt) <= Z.of_nat fuel ->
    Arduino.homingLoop fmt fuel st =
    Done (mkStepper (Z.min (currentPosition st - 1) (arduinoHomingStop fmt)) (speed st)
            (stepperMaxSpeed st) (acceleration st) (outputsEnabled st)).
Proof.
  assert (S : - 2 ^ 24 < arduinoHomingStop fmt) by (destruct fmt; vm_compute; reflexivity).
  induction fuel as [| fuel IH]; intros st Hsp Hpos Hfuel; [lia |].
  cbn [Arduino.homingLoop]. rewrite (runSpeed_negative st Hsp). cbn [currentPosition].
  rewrite homed_at_stop by lia.
  destruct (Z.leb_spec (currentPosition st - 1) (arduinoHomingStop fmt)) as [Hle | Hgt].
  - rewrite Z.min_l by lia. reflexivity.
  - rewrite IH; cbn [currentPosition speed stepperMaxSpeed acceleration outputsEnabled];
      [| exact Hsp | lia | lia].
    f_equal. f_equal. lia.
Qed.

(** X10.  Homing in the Arduino sketch: from every radial position above
    the least [long], with a positive speed limit on the radial axis, the
    jog ends, within [max 1 (position + 6336)] polls where [double] has the
    format of [float] and within one more where it is binary64; afterwards
    the position reference of the radial axis is zero.  Unlike on the ESP32, the rotation
    axis is not touched: its position reference stays as it was; HOMING and
    HOMED are emitted, and no ready marker. *)
Theorem arduino_homing (fmt : Arduino.doubleFormat) (fuel : nat) (s : Arduino.State) :
  fgt (stepperMaxSpeed (Arduino.inOutStepper s)) (S754_zero false) = true ->
  - 2 ^ 31 < currentPosition (Arduino.inOutStepper s) <= 2 ^ 31 ->
  Z.max 1 (currentPosition (Arduino.inOutStepper s) - arduinoHomingStop fmt)
    <= Z.of_nat fuel ->
  exists s' : Arduino.State,
    Arduino.homing fmt fuel s = Done s' /\
    currentPosition (Arduino.inOutStepper s') = 0 /\
    Arduino.rotStepper s' = Arduino.rotStepper s /\
    Arduino.serialOut s' = Arduino.serialOut s ++ ["HOMING"; "HOMED"]%string /\
    (Arduino.buffer s', Arduino.bufferCount s', Arduino.batchComplete s', Arduino.moveLog s') =
    (Arduino.buffer s, Arduino.bufferCount s, Arduino.batchComplete s, Arduino.moveLog s).
Proof.
  intros Hmax Hpos Hfuel. unfold Arduino.homing.
  destruct (setSpeed_jog (Arduino.inOutStepper s) Hmax) as (Hsp & Hp & _).
  cbn [Arduino.inOutStepper Arduino.upd_inOutStepper Arduino.println].
  rewrite (arduino_homingLoop fmt fuel _ Hsp) by (rewrite Hp; assumption).
  cbn [bind]. eexists. split; [reflexivity |].
  cbn [Arduino.inOutStepper Arduino.rotStepper Arduino.serialOut Arduino.buffer
       Arduino.bufferCount Arduino.batchComplete Arduino.moveLog
       Arduino.upd_inOutStepper Arduino.println setCurrentPosition currentPosition].
  rewrite <- app_assoc. repeat split.
Qed.

Lemma arduino_homing_witness :
  exists s' : Arduino.State,
    Arduino.setup Arduino.Binary32 (Z.to_nat 6336) = Done s' /\
    currentPosition (Arduino.inOutStepper s') = 0 /\
    Arduino.serialOut s' = ["READY"; "HOMING"; "HOMED"]%string.
Proof.
  unfold Arduino.setup.
  match goal with
  | |- context [Arduino.homing _ _ ?s0] =>
      destruct (arduino_homing Arduino.Binary32 (Z.to_nat 6336) s0) as (s' & H & P & _ & O & _)
  end.
  - vm_compute. reflexivity.
  - split; vm_compute; (reflexivity || discriminate).
  - vm_compute. discriminate.
  - exists s'. split; [exact H |]. split; [exact P | exact O].
Defined.

(** *** Reading and carrying out a batch on the Arduino *)

Lemma uint_small (fmt : Arduino.doubleFormat) (z : Z) :
  0 <= z < 2 ^ 16 -> z mod 2 ^ Arduino.uintBits fmt = z.
Proof. intros H. destruct fmt; apply Z.mod_small; cbn [Arduino.uintBits]; lia. Qed.

Lemma indexOfFromW_agree (fmt : Arduino.doubleFormat) (c : ascii) (s : string) (from : Z) :
  0 <= from < 2 ^ 16 ->
  indexOfFromW (Arduino.uintBits fmt) c s from = indexOfFrom c s from.
Proof.
  intros H. unfold indexOfFromW, indexOfFrom.
  rewrite uint_small, to_unsigned_small by lia. reflexivity.
Qed.

Lemma substringW_agree (fmt : Arduino.doubleFormat) (s : string) (from to : Z) :
  0 <= from < 2 ^ 16 -> 0 <= to < 2 ^ 16 ->
  substringW (Arduino.uintBits fmt) s from to = substring s from to.
Proof.
  intros H1 H2. unfold substringW, substring.
  rewrite !uint_small, !to_unsigned_small by lia. reflexivity.
Qed.

Lemma find_bound (c : ascii) (s : string) :
  forall k : nat, find c s = Some k -> (k < String.length s)%nat.
Proof.
  induction s as [| a s IH]; intros k H; cbn [find] in H; [discriminate |].
  cbn [String.length]. destruct (Ascii.eqb a c).
  - injection H as <-. lia.
  - destruct (find c s) as [j |]; [| discriminate].
    injection H as <-. specialize (IH j eq_refl). lia.
Qed.

Lemma sdrop_length (n : nat) :
  forall s : string, String.length (sdrop n s) = (String.length s - n)%nat.
Proof.
  induction n as [| n IH]; intros s; destruct s; cbn [sdrop String.length];
    try reflexivity; try lia. apply IH.
Qed.

Lemma stake_length (n : nat) :
  forall s : string, (String.length (stake n s) <= String.length s)%nat.
Proof.
  induction n as [| n IH]; intros s; destruct s; cbn [stake String.length]; try lia.
  specialize (IH s). lia.
Qed.

Lemma indexOfFrom_range (c : ascii) (s : string) (from : Z) :
  0 <= from < 2 ^ 32 ->
  indexOfFrom c s from = -1 \/ from <= indexOfFrom c s from < strlen s.
Proof.
  intros H. unfold indexOfFrom. rewrite to_unsigned_small by exact H.
  destruct (Z.leb_spec (strlen s) from) as [| L]; [left; reflexivity |].
  destruct (find c (sdrop (Z.to_nat from) s)) as [k |] eqn:E; [right | left; reflexivity].
  apply find_bound in E. rewrite sdrop_length in E. unfold strlen in *. lia.
Qed.

Lemma strlen_substring (s : string) (from to : Z) :
  strlen (substring s from to) <= strlen s.
Proof.
  unfold substring.
  destruct (to_unsigned to <? to_unsigned from);
    match goal with
    | |- context [if ?c then EmptyString else _] => destruct c
    end; try apply strlen_nonneg;
    unfold strlen; apply Nat2Z.inj_le;
    (eapply Nat.le_trans; [apply stake_length |]); rewrite sdrop_length; lia.
Qed.

Lemma strlen_segment (segs : list string) :
  Forall (fun seg => strlen seg <= strlen (join segs)) segs.
Proof.
  induction segs as [| seg segs IH]; constructor.
  - cbn [join]. rewrite strlen_append. pose proof (strlen_nonneg (String ";" (join segs))). lia.
  - eapply Forall_impl; [| exact IH]. cbn beta. intros a Ha. cbn [join].
    rewrite strlen_append. change (strlen (String ";" (join segs)))
      with (Z.of_nat (S (String.length (join segs)))).
    pose proof (strlen_nonneg seg). unfold strlen in *. lia.
Qed.

Lemma last_cons {A : Type} (l : list A) :
  forall a d : A, last (a :: l) d = last l a.
Proof.
  induction l as [| b l IH]; intros a d; [reflexivity |].
  change (last (a :: b :: l) d) with (last (b :: l) d). rewrite !IH. reflexivity.
Qed.

Section ArduinoBatch.

Variable fmt : Arduino.doubleFormat.
Variable toFloat : string -> float.

Lemma arduino_parsePair_agree (pair : string) :
  strlen pair < 2 ^ 15 ->
  Arduino.parsePair fmt toFloat pair = parsePair toFloat pair.
Proof.
  intros Hlen. pose proof (strlen_nonneg pair) as Hn.
  unfold Arduino.parsePair, parsePair, indexOf, substringFrom.
  rewrite indexOfFromW_agree by lia.
  destruct (indexOfFrom_range "," pair 0 ltac:(lia)) as [E | R].
  - rewrite E. change (-1 + 1) with 0. f_equal; f_equal.
    + destruct fmt; [| reflexivity].
      unfold substringW, substring, to_unsigned. cbn [Arduino.uintBits].
      change (0 mod 2 ^ 16) with 0. change (0 mod 2 ^ 32) with 0.
      change (-1 mod 2 ^ 16) with 65535. change (-1 mod 2 ^ 32) with 4294967295.
      change (65535 <? 0) with false. change (4294967295 <? 0) with false. cbv iota beta.
      destruct (strlen pair <=? 0); [reflexivity |].
      destruct (Z.ltb_spec (strlen pair) 65535); [| lia].
      destruct (Z.ltb_spec (strlen pair) 4294967295); [| lia].
      reflexivity.
    + apply substringW_agree; lia.
  - rewrite !substringW_agree by lia. reflexivity.
Qed.

Lemma arduino_fillBuffer_agree (input : string) :
  strlen input < 2 ^ 15 ->
  forall (n : nat) (pairIndex startIdx : Z) (buf : list (float * float)),
    0 <= startIdx <= strlen input ->
    Arduino.fillBuffer fmt toFloat n input pairIndex startIdx buf =
    fillBuffer toFloat n input pairIndex startIdx buf.
Proof.
  intros Hlen. induction n as [| n IH]; intros pairIndex startIdx buf Hs; [reflexivity |].
  cbn [Arduino.fillBuffer fillBuffer]. change BUFFER_SIZE with 10.
  destruct (pairIndex <? 10); [| reflexivity].
  rewrite indexOfFromW_agree by lia.
  destruct (indexOfFrom_range ";" input startIdx ltac:(lia)) as [E | R].
  - rewrite E. reflexivity.
  - destruct (indexOfFrom ";" input startIdx =? -1); [reflexivity |].
    rewrite substringW_agree by lia.
    rewrite arduino_parsePair_agree
      by (pose proof (strlen_substring input startIdx (indexOfFrom ";" input startIdx)); lia).
    apply IH. lia.
Qed.

(** X11.  The two firmwares read a line the same way: for a text shorter
    than 32768 characters, where the narrower [int] and [unsigned int] of
    the AVR boards still hold every index, the Arduino sketch splits a pair
    into the same two numbers as the ESP32 firmware, and takes the same
    pairs of a line into the same cells of the buffer. *)
Theorem parsing_agrees (input : string) :
  strlen input < 2 ^ 15 ->
  Arduino.parsePair fmt toFloat input = parsePair toFloat input /\
  forall buf : list (float * float),
    Arduino.fillBuffer fmt toFloat 10 input 0 0 buf =
    fillBuffer toFloat (Z.to_nat BUFFER_SIZE) input 0 0 buf.
Proof.
  intros Hlen. split; [exact (arduino_parsePair_agree input Hlen) |].
  intros buf. pose proof (strlen_nonneg input).
  exact (arduino_fillBuffer_agree input Hlen 10 0 0 buf ltac:(lia)).
Qed.

Lemma arduino_batchLoop_run (ws : list (float * float)) (targets : list (Z * Z)) :
  Forall2 (fun w t => Arduino.movePolar fmt (fst w) (snd w) = Done t) ws targets ->
  forall (i : Z) (s : Arduino.State),
    0 <= i ->
    slice (Arduino.buffer s) (Z.to_nat i) (List.length ws) = ws ->
    exists s' : Arduino.State,
      Arduino.batchLoop fmt (List.length ws) i s = Done s' /\
      Arduino.moveLog s' = Arduino.moveLog s ++ targets /\
      (currentPosition (Arduino.rotStepper s'),
       currentPosition (Arduino.inOutStepper s')) =
      last targets (currentPosition (Arduino.rotStepper s),
                    currentPosition (Arduino.inOutStepper s)) /\
      Arduino.buffer s' = Arduino.buffer s /\
      Arduino.bufferCount s' = Arduino.bufferCount s /\
      Arduino.batchComplete s' = Arduino.batchComplete s /\
      Arduino.serialOut s' = Arduino.serialOut s.
Proof.
  induction 1 as [| w t ws targets Hw Hrest IH]; intros i s Hi Hsl.
  - exists s. cbn [List.length Arduino.batchLoop last]. rewrite app_nil_r.
    repeat split.
  - cbn [List.length Arduino.batchLoop].
    unfold slice in Hsl. cbn [List.length seq map] in Hsl.
    injection Hsl as Hhead Htail. rewrite Hhead.
    unfold Arduino.movePolarTo. rewrite Hw. cbn [bind].
    match goal with
    | |- context [Arduino.batchLoop _ _ _ ?s1] =>
        destruct (IH (i + 1) s1 ltac:(lia)) as (s' & R & L & P & B & C & D & O)
    end.
    + cbn [Arduino.buffer]. replace (Z.to_nat (i + 1)) with (S (Z.to_nat i)) by lia.
      exact Htail.
    + exists s'. split; [exact R |].
      cbn [Arduino.moveLog Arduino.buffer Arduino.bufferCount Arduino.batchComplete
           Arduino.serialOut] in L, B, C, D, O.
      cbn [Arduino.rotStepper Arduino.inOutStepper arriveAt currentPosition] in P.
      rewrite L, <- app_assoc, last_cons, P. repeat split; try assumption.
      destruct t; reflexivity.
Qed.

Lemma arduino_batchLoop_done (n : nat) :
  forall (i : Z) (s s' : Arduino.State),
    0 <= i ->
    Arduino.batchLoop fmt n i s = Done s' ->
    exists targets : list (Z * Z),
      Forall2 (fun w t => Arduino.movePolar fmt (fst w) (snd w) = Done t)
        (slice (Arduino.buffer s) (Z.to_nat i) n) targets.
Proof.
  induction n as [| n IH]; intros i s s' Hi H.
  - exists []. constructor.
  - cbn [Arduino.batchLoop] in H. unfold Arduino.movePolarTo in H.
    destruct (Arduino.movePolar fmt _ _) as [t | |] eqn:E; try discriminate.
    cbn [bind] in H. apply IH in H; [| lia]. destruct H as (targets & F).
    cbn [Arduino.buffer] in F. replace (Z.to_nat (i + 1)) with (S (Z.to_nat i)) in F by lia.
    exists (t :: targets). unfold slice. cbn [seq map]. constructor; assumption.
Qed.

(** X12.  A batch on the Arduino: a line of at most 10 semicolon-terminated
    pairs, arriving when no batch is pending, is carried out as one direct
    coordinated move per pair, in the order of the line and with no points
    in between: when the step targets of all pairs are defined, the pass
    ends, the moves made are exactly these targets, the two position
    references are the last of them, READY is emitted once, the pairs stay
    in the first cells of the buffer and the batch flags are cleared.  The
    pass ends only in this case. *)
Theorem arduino_batch (fuel : nat) (s : Arduino.State) (segs : list string) :
  Arduino.batchComplete s = false ->
  List.length (Arduino.buffer s) = 10%nat ->
  Forall (fun seg => find ";" seg = None) segs ->
  (1 <= List.length segs <= 10)%nat ->
  strlen (join segs) < 2 ^ 15 ->
  let ws := map (Arduino.parsePair fmt toFloat) segs in
  let moved := fun w t => Arduino.movePolar fmt (fst w) (snd w) = Done t in
  (forall targets : list (Z * Z),
     Forall2 moved ws targets ->
     exists s' : Arduino.State,
       Arduino.loop fmt toFloat fuel (Some (join segs)) s = Done s' /\
       Arduino.moveLog s' = Arduino.moveLog s ++ targets /\
       (currentPosition (Arduino.rotStepper s'),
        currentPosition (Arduino.inOutStepper s')) =
       last targets (currentPosition (Arduino.rotStepper s),
                     currentPosition (Arduino.inOutStepper s)) /\
       Arduino.serialOut s' = Arduino.serialOut s ++ ["READY"%string] /\
       Arduino.buffer s' = ws ++ skipn (List.length ws) (Arduino.buffer s) /\
       Arduino.bufferCount s' = 0 /\
       Arduino.batchComplete s' = false) /\
  (forall s' : Arduino.State,
     Arduino.loop fmt toFloat fuel (Some (join segs)) s = Done s' ->
     exists targets : list (Z * Z), Forall2 moved ws targets).
Proof.
  intros Hc Hbuf Hsegs [Hlo Hhi] Hlen ws moved.
  destruct (join_last segs) as (x & Hx).
  { intros ->. simpl in Hlo. lia. }
  assert (Hends : endsWith (join segs) (String ";" EmptyString) = true)
    by (rewrite Hx; apply endsWith_semicolon).
  assert (Hhome : String.eqb (join segs) "HOME" = false).
  { destruct (String.eqb_spec (join segs) "HOME") as [E | _]; [| reflexivity].
    rewrite E in Hends. vm_compute in Hends. discriminate. }
  assert (Hws : ws = map (parsePair toFloat) segs).
  { unfold ws. apply map_ext_in. intros seg Hin.
    apply arduino_parsePair_agree.
    pose proof (strlen_segment segs) as F. rewrite Forall_forall in F.
    specialize (F seg Hin). lia. }
  assert (Hn : List.length ws = List.length segs) by (unfold ws; apply length_map).
  pose proof (strlen_nonneg (join segs)) as Hnn.
  assert (Hfill : Arduino.fillBuffer fmt toFloat 10 (join segs) 0 0 (Arduino.buffer s) =
                  (Z.of_nat (List.length segs),
                   ws ++ skipn (List.length ws) (Arduino.buffer s))).
  { rewrite (arduino_fillBuffer_agree (join segs) Hlen 10 0 0 _ ltac:(lia)).
    pose proof (fillBuffer_all toFloat segs 10 EmptyString 0 (Arduino.buffer s)) as Hf.
    cbn [append] in Hf. change (strlen EmptyString) with 0 in Hf.
    rewrite Hf; try assumption; try (unfold BUFFER_SIZE; lia).
    pose proof (storeAll_app ws [] (Arduino.buffer s)) as E. cbn [app List.length] in E.
    change (Z.to_nat 0) with O. rewrite <- Hws, E by lia. reflexivity. }
  assert (Hloop : Arduino.loop fmt toFloat fuel (Some (join segs)) s =
                  (s1 <- Arduino.batchLoop fmt (List.length ws) 0
                           (Arduino.set_batch (ws ++ skipn (List.length ws) (Arduino.buffer s))
                              (Z.of_nat (List.length segs)) true s) ;;
                   Done (Arduino.println "READY"
                           (Arduino.set_batch (Arduino.buffer s1) 0 false s1)))).
  { unfold Arduino.loop. rewrite Hhome, Hends, Hc. cbn [negb andb].
    unfold Arduino.readBatch. rewrite Hfill. unfold Arduino.processBatch.
    cbn [Arduino.batchComplete Arduino.bufferCount Arduino.set_batch andb].
    destruct (Z.ltb_spec 0 (Z.of_nat (List.length segs))) as [_ | H]; [| lia].
    rewrite Nat2Z.id, Hn. reflexivity. }
  rewrite Hloop. split.
  - intros targets F.
    match goal with
    | |- context [Arduino.batchLoop _ _ _ ?s1] =>
        destruct (arduino_batchLoop_run ws targets F 0 s1 ltac:(lia))
          as (s1' & R & L & P & B & C & D & O)
    end.
    { cbn [Arduino.buffer Arduino.set_batch]. apply slice_app. }
    rewrite R. cbn [bind]. eexists. split; [reflexivity |].
    cbn [Arduino.moveLog Arduino.rotStepper Arduino.inOutStepper Arduino.serialOut
         Arduino.buffer Arduino.bufferCount Arduino.batchComplete
         Arduino.println Arduino.set_batch] in *.
    rewrite L, P, B, O. repeat split.
  - intros s' H.
    destruct (Arduino.batchLoop fmt _ _ _) as [s1 | |] eqn:E; try discriminate.
    apply arduino_batchLoop_done in E; [| lia].
    cbn [Arduino.buffer Arduino.set_batch] in E. change (Z.to_nat 0) with O in E.
    rewrite slice_app in E. exact E.
Qed.





End ArduinoBatch.

Lemma parsing_agrees_witness :
  Arduino.parsePair Arduino.Binary32 decimalToFloat "0,0.5;" =
    parsePair decimalToFloat "0,0.5;" /\
  Arduino.fillBuffer Arduino.Binary32 decimalToFloat 10 "0,0.5;" 0 0
    (Arduino.buffer Arduino.powerOn) =
  fillBuffer decimalToFloat (Z.to_nat BUFFER_SIZE) "0,0.5;" 0 0
    (Arduino.buffer Arduino.powerOn).
Proof.
  destruct (parsing_agrees Arduino.Binary32 decimalToFloat "0,0.5;" eq_refl) as [A B].
  split; [exact A | exact (B (Arduino.buffer Arduino.powerOn))].
Defined.

Lemma arduino_batch_witness :
  exists s' : Arduino.State,
    Arduino.loop Arduino.Binary32 decimalToFloat 0 (Some "0,0;0,0.5;"%string)
      Arduino.powerOn = Done s' /\
    Arduino.moveLog s' = [(0, 0); (0, 2880)] /\
    Arduino.serialOut s' = ["READY"%string].
Proof.
  assert (F : Forall (fun seg => find ";" seg = None) ["0,0"; "0,0.5"]%string)
    by (repeat constructor).
  assert (N : (1 <= List.length ["0,0"; "0,0.5"]%string <= 10)%nat) by (cbn; lia).
  assert (T : Forall2
                (fun w t => Arduino.movePolar Arduino.Binary32 (fst w) (snd w) = Done t)
                (map (Arduino.parsePair Arduino.Binary32 decimalToFloat)
                   ["0,0"; "0,0.5"]%string)
                [(0, 0); (0, 2880)])
    by (repeat constructor; vm_compute; reflexivity).
  destruct (arduino_batch Arduino.Binary32 decimalToFloat 0 Arduino.powerOn
              ["0,0"; "0,0.5"]%string eq_refl eq_refl F N eq_refl) as [R _].
  destruct (R [(0, 0); (0, 2880)] T) as (s' & H & L & _ & O & _).
  exists s'. split; [exact H |]. split; [exact L | exact O].
Defined.

